(** * tiny_regex: Thompson construction and subset construction (src/nfa.cpp)

    A shallow embedding of [src/nfa.cpp]: the fragment algebra of [NFA]
    ([ch], [link], [select], [star], [question], [range], [one_of]), the
    epsilon-closure pass [calculate_epsilon_closures] and the conversion
    [NFA::nfa2dfa], followed by the properties proved about them.

    Conventions.
    - [long] and [size_t] values that index vectors are integers ([Z]); the
      sentinel [REF_UNDEFINED] is [-1].
    - [char] is the signed 8-bit character of the x86-64 ABI: an integer in
      [-128, 127]; [RULE_UNDEFINED] is [-1] and [RULE_EPSILON] is [-2].
    - [std::vector<T>] is [list T]; reading or writing outside its bounds is
      undefined behaviour in the source and the outcome [Undef] here.
    - [std::set<long>] is [gset Z]; [std::map<char, std::set<long>>] is
      [gmap Z (gset Z)]; both are traversed in ascending key order, as the
      ordered containers of the source are.
    - [std::stack<long>] is a list whose head is the top.
    - A vector that a function receives by reference and writes to is
      threaded through it: the function yields its outcome together with the
      vector as the caller finds it afterwards, also when it throws. *)

From stdpp Require Import base option list sorting gmap fin_sets strings.
From Stdlib Require Import ZArith Lia.

Open Scope Z_scope.

(** ** Outcomes of a computation *)

Inductive outcome (A : Type) : Type :=
| Done (a : A)      (* the code returns [a] *)
| Throw             (* [throw "An epsilon infinite loop is detected."] *)
| Undef             (* a vector is indexed outside its bounds *)
| OutOfFuel.        (* the step budget of the model is spent: the code is still running *)

Arguments Done {A} a.
Arguments Throw {A}.
Arguments Undef {A}.
Arguments OutOfFuel {A}.

Definition obind {A B : Type} (m : outcome A) (k : A → outcome B) : outcome B :=
  match m with
  | Done a => k a
  | Throw => Throw
  | Undef => Undef
  | OutOfFuel => OutOfFuel
  end.

#[global] Instance outcome_ret : MRet outcome := λ A a, Done a.
#[global] Instance outcome_bind : MBind outcome := λ A B k m, obind m k.

(** ** Vectors indexed by [long] *)

(** [v[i]] as an rvalue. *)
Definition vec_at {A : Type} (v : list A) (i : Z) : outcome A :=
  if i <? 0 then Undef
  else match v !! Z.to_nat i with
       | Some x => Done x
       | None => Undef
       end.

(** [v[i] = f (v[i])]: an in-place update of one cell. *)
Definition vec_upd {A : Type} (v : list A) (i : Z) (f : A → A) : outcome (list A) :=
  if i <? 0 then Undef
  else match v !! Z.to_nat i with
       | Some x => Done (<[Z.to_nat i := f x]> v)
       | None => Undef
       end.

(** [v.size()]. *)
Definition vec_size {A : Type} (v : list A) : Z := Z.of_nat (length v).

(** ** Data model (nfa.h) *)

Definition RULE_UNDEFINED : Z := -1.
Definition RULE_EPSILON : Z := -2.
Definition REF_UNDEFINED : Z := -1.

(** The value of a [char] expression computed in [int]: reduction into
    [-128, 127]. *)
Definition to_char (z : Z) : Z := (z + 128) mod 256 - 128.

(** [struct NFASubsetRef { long start, end; }]; [end] is reserved in Rocq. *)
Record NFASubsetRef : Type := mkRef { start : Z; end_ : Z }.

(** [NFASubsetRef::NFASubsetRef()]: the sentinel fragment. *)
Definition NFASubsetRef_new : NFASubsetRef :=
  {| start := REF_UNDEFINED; end_ := REF_UNDEFINED |}.

(** [struct NFAState { char rule; std::pair<long, long> refs; }]. *)
Record NFAState : Type := mkState { rule : Z; refs : Z * Z }.

(** [NFAState::NFAState()]. *)
Definition NFAState_new : NFAState :=
  {| rule := RULE_UNDEFINED; refs := (REF_UNDEFINED, REF_UNDEFINED) |}.

(** [class NFA]: the stored fragment [nfa] and the state arena [vec]. *)
Record NFA : Type := mkNFA { nfa : NFASubsetRef; vec : list NFAState }.

(** [NFA::NFA()]. *)
Definition NFA_new : NFA := {| nfa := NFASubsetRef_new; vec := [] |}.

#[global] Instance NFASubsetRef_eq_dec : EqDecision NFASubsetRef.
Proof. solve_decision. Defined.
#[global] Instance NFAState_eq_dec : EqDecision NFAState.
Proof. solve_decision. Defined.
#[global] Instance NFA_eq_dec : EqDecision NFA.
Proof. solve_decision. Defined.

(** ** Member functions run against the object: a state and error monad

    A member function maps the object before the call to the outcome of the
    call and the object after it; the object survives a [throw]. *)

Definition M (A : Type) : Type := NFA → outcome A * NFA.

(** An outcome that carries no value, at another type. *)
Definition fail_as {A : Type} (B : Type) (o : outcome A) : outcome B :=
  match o with
  | Done _ => Undef
  | Throw => Throw
  | Undef => Undef
  | OutOfFuel => OutOfFuel
  end.

#[global] Instance M_ret : MRet M := λ A a n, (Done a, n).
#[global] Instance M_bind : MBind M := λ A B k m n,
  match m n with
  | (Done a, n') => k a n'
  | (o, n') => (fail_as B o, n')
  end.

(** A computation that does not touch the object. *)
Definition lift {A : Type} (o : outcome A) : M A := λ n, (o, n).

(** Reads. *)
Definition get_nfa : M NFASubsetRef := λ n, (Done (nfa n), n).
Definition get_vec : M (list NFAState) := λ n, (Done (vec n), n).
Definition get_size : M Z := λ n, (Done (vec_size (vec n)), n).
Definition get_state (i : Z) : M NFAState := λ n, (vec_at (vec n) i, n).

(** Writes. *)
Definition set_nfa (s e : Z) : M unit := λ n,
  (Done tt, {| nfa := {| start := s; end_ := e |}; vec := vec n |}).
Definition push_back (s : NFAState) : M unit := λ n,
  (Done tt, {| nfa := nfa n; vec := vec n ++ [s] |}).
Definition upd_state (i : Z) (f : NFAState → NFAState) : M unit := λ n,
  match vec_upd (vec n) i f with
  | Done v => (Done tt, {| nfa := nfa n; vec := v |})
  | o => (fail_as unit o, n)
  end.

(** [vec[i].rule = c], [vec[i].refs.first = r], [vec[i].refs.second = r]. *)
Definition set_rule (i c : Z) : M unit :=
  upd_state i (λ s, {| rule := c; refs := refs s |}).
Definition set_first (i r : Z) : M unit :=
  upd_state i (λ s, {| rule := rule s; refs := (r, (refs s).2) |}).
Definition set_second (i r : Z) : M unit :=
  upd_state i (λ s, {| rule := rule s; refs := ((refs s).1, r) |}).

(** ** The fragment algebra *)

Definition ch (c : Z) : M NFASubsetRef :=
  sz ← get_size;
  set_nfa sz (sz + 1);;
  push_back NFAState_new;;
  push_back NFAState_new;;
  r ← get_nfa;
  set_rule (start r) c;;
  set_first (start r) (end_ r);;
  get_nfa.

Definition link (lv rv : NFASubsetRef) : M NFASubsetRef :=
  set_nfa (start lv) (end_ rv);;
  set_rule (end_ lv) RULE_EPSILON;;
  set_first (end_ lv) (start rv);;
  get_nfa.

Definition select (lv rv : NFASubsetRef) : M NFASubsetRef :=
  sz ← get_size;
  set_nfa sz (sz + 1);;
  push_back NFAState_new;;
  push_back NFAState_new;;
  r ← get_nfa;
  set_rule (start r) RULE_EPSILON;;
  set_first (start r) (start lv);;
  set_second (start r) (start rv);;
  set_rule (end_ lv) RULE_EPSILON;;
  set_first (end_ lv) (end_ r);;
  set_rule (end_ rv) RULE_EPSILON;;
  set_first (end_ rv) (end_ r);;
  get_nfa.

Definition star (v : NFASubsetRef) : M NFASubsetRef :=
  sz ← get_size;
  set_nfa sz (sz + 1);;
  push_back NFAState_new;;
  push_back NFAState_new;;
  r ← get_nfa;
  set_rule (start r) RULE_EPSILON;;
  set_first (start r) (start v);;
  set_second (start r) (end_ r);;
  set_rule (end_ v) RULE_EPSILON;;
  set_first (end_ v) (start r);;
  get_nfa.

Definition question (v : NFASubsetRef) : M NFASubsetRef :=
  sz ← get_size;
  set_nfa sz (end_ v);;
  push_back NFAState_new;;
  r ← get_nfa;
  set_rule (start r) RULE_EPSILON;;
  set_first (start r) (start v);;
  set_second (start r) (end_ v);;
  get_nfa.

(** The loop of [range]: [for(char c = s + 1; c <= e; c++) ns = select(ns, ch(c));].
    [c++] wraps around at 127, so the loop never ends when [e] is 127; after
    256 rounds it cannot end any more. *)
Fixpoint range_for (fuel : nat) (c e : Z) (ns : NFASubsetRef) : M NFASubsetRef :=
  if c <=? e then
    match fuel with
    | O => lift OutOfFuel
    | S fuel' =>
        r ← ch c;
        ns' ← select ns r;
        range_for fuel' (to_char (c + 1)) e ns'
    end
  else mret ns.

Definition range (s e : Z) : M NFASubsetRef :=
  if s >? e then mret NFASubsetRef_new
  else if s =? e then ch s
  else
    ns ← ch s;
    range_for 256 (to_char (s + 1)) e ns.

(** The loop of [one_of] over the characters that follow the first one; the
    string ends at its first NUL. *)
Fixpoint one_of_for (p : list Z) (ns : NFASubsetRef) : M NFASubsetRef :=
  match p with
  | [] => mret ns
  | c :: p' =>
      if c =? 0 then mret ns
      else
        r ← ch c;
        ns' ← select ns r;
        one_of_for p' ns'
  end.

(** [one_of(const char *list)]: the argument is the sequence of characters
    the pointer refers to, the terminating NUL left implicit. *)
Definition one_of (list : list Z) : M NFASubsetRef :=
  match list with
  | [] => mret NFASubsetRef_new
  | c :: p =>
      if c =? 0 then mret NFASubsetRef_new
      else
        ns ← ch c;
        one_of_for p ns
  end.

(** ** Epsilon closures: [calculate_epsilon_closures] *)

(** One of the two blocks [if(s != NFA::REF_UNDEFINED) { ... }] in the body
    of the loop: [None] when [s] is pushed (the [continue]), otherwise the
    closure table after [ecs[argi].insert(ecs[s].begin(), ecs[s].end())]. *)
Definition merge_ref (flag : list bool) (ecs : list (gset Z)) (argi s : Z)
  : outcome (option (list (gset Z))) :=
  if s =? REF_UNDEFINED then Done (Some ecs)
  else
    f ← vec_at flag s;
    if negb f then Done None
    else
      c ← vec_at ecs s;
      ecs' ← vec_upd ecs argi (λ e, e ∪ c);
      Done (Some ecs').

(** What one round of the [while] loop decides for the state on top. *)
Inductive visit : Type :=
| Push (s : Z) (ecs : list (gset Z))   (* [stack.push(s); continue;] *)
| Finish (ecs : list (gset Z)).        (* fall through to the end of the body *)

Definition visit_top (nss : list NFAState) (flag : list bool)
    (ecs : list (gset Z)) (argi : Z) : outcome visit :=
  st ← vec_at nss argi;
  if rule st =? RULE_EPSILON then
    r1 ← merge_ref flag ecs argi (refs st).1;
    match r1 with
    | None => Done (Push (refs st).1 ecs)
    | Some ecs1 =>
        r2 ← merge_ref flag ecs1 argi (refs st).2;
        match r2 with
        | None => Done (Push (refs st).2 ecs1)
        | Some ecs2 => Done (Finish ecs2)
        end
    end
  else Done (Finish ecs).

(** [while(!stack.empty()) { ... }]. The closure table [ecs] belongs to the
    caller, who passes it by reference: next to the outcome, with the flags
    the loop leaves, stands the table as the caller finds it afterwards, also
    when the loop throws. After an access outside a vector nothing is known
    of the table; the one shown is the last one before that access. *)
Fixpoint closure_while (fuel : nat) (nss : list NFAState) (flag : list bool)
    (ecs : list (gset Z)) (stack : list Z) : outcome (list bool) * list (gset Z) :=
  match stack with
  | [] => (Done flag, ecs)
  | argi :: below =>
      match fuel with
      | O => (OutOfFuel, ecs)
      | S fuel' =>
          if (length ecs <? length stack)%nat then (Throw, ecs)
          else
            match visit_top nss flag ecs argi with
            | Done (Push s ecs') => closure_while fuel' nss flag ecs' (s :: stack)
            | Done (Finish ecs') =>
                match vec_upd flag argi (λ _, true),
                      vec_upd ecs' argi (λ e, e ∪ {[argi]}) with
                | Done flag', Done ecs'' => closure_while fuel' nss flag' ecs'' below
                | Done _, o => (fail_as (list bool) o, ecs')
                | o, _ => (fail_as (list bool) o, ecs')
                end
            | o => (fail_as (list bool) o, ecs)
            end
      end
  end.

(** A budget that every run of the [while] loop stays within. *)
Definition closure_fuel (n : nat) : nat := ((n + 1) * (n + 2))%nat.

(** [for(size_t i = 0; i < nss.size(); i++) { stack.push(i); while ... }]. *)
Fixpoint closure_for (nss : list NFAState) (idx : list nat) (flag : list bool)
    (ecs : list (gset Z)) : outcome (list bool) * list (gset Z) :=
  match idx with
  | [] => (Done flag, ecs)
  | i :: idx' =>
      match closure_while (closure_fuel (length ecs)) nss flag ecs [Z.of_nat i] with
      | (Done flag', ecs') => closure_for nss idx' flag' ecs'
      | (o, ecs') => (o, ecs')
      end
  end.

(** [void calculate_epsilon_closures(nss, ecs)]: the outcome of the call and
    the caller's table after it. The flags are a local of the function. *)
Definition calculate_epsilon_closures (nss : list NFAState) (ecs : list (gset Z))
  : outcome unit * list (gset Z) :=
  match closure_for nss (seq 0 (length nss)) (replicate (length nss) false) ecs with
  | (o, ecs') => (_ ← o; Done tt, ecs')
  end.

(** ** The result structure (dfa.h) *)

(** Modelled from the spec: [dfa.h] is not part of the sources. A DFA is a
    fixed-size sequence of states; each carries an accepting flag ([is_end])
    and a mapping from symbol to exactly one successor index (the member the
    source calls [refs]); [emplace] leaves an existing entry alone. *)
Record DFAState : Type := mkDFAState { is_end : bool; drefs : gmap Z Z }.

Abbreviation DFA := (list DFAState) (only parsing).

(** [DFA dfa(size)]: [size] states, not accepting, without transitions. *)
Definition DFA_new (size : nat) : DFA :=
  replicate size {| is_end := false; drefs := ∅ |}.

Definition emplace (c to : Z) (m : gmap Z Z) : gmap Z Z :=
  match m !! c with
  | Some _ => m
  | None => <[c := to]> m
  end.

(** Modelled from the spec: the matching engine is an external collaborator
    that drives the DFA from state 0, one input symbol at a time; a symbol
    without a recorded transition rejects; the input is accepted when the
    state reached carries the accepting flag. *)
Fixpoint dfa_run (d : DFA) (q : Z) (w : list Z) : bool :=
  match vec_at d q with
  | Done st =>
      match w with
      | [] => is_end st
      | c :: w' =>
          match drefs st !! c with
          | Some q' => dfa_run d q' w'
          | None => false
          end
      end
  | _ => false
  end.

Definition dfa_accepts (d : DFA) (w : list Z) : bool := dfa_run d 0 w.

(** ** Subset construction: [NFA::nfa2dfa] *)

(** [struct DFARefRecord { long from; char rule; long to; }]. *)
Record DFARefRecord : Type := mkRec { rec_from : Z; rec_rule : Z; rec_to : Z }.

(** Ascending traversal of a [std::set<long>]. *)
Definition set_iter (s : gset Z) : list Z := merge_sort Z.le (elements s).

(** Ascending traversal of a [std::map<char, std::set<long>>]. *)
Definition key_le (a b : Z * gset Z) : Prop := a.1 ≤ b.1.
#[global] Instance key_le_dec : RelDecision key_le.
Proof. intros a b. unfold key_le. apply _. Defined.
Definition map_iter (m : gmap Z (gset Z)) : list (Z * gset Z) :=
  merge_sort key_le (map_to_list m).

(** [std::for_each] with a callback that runs against the object. *)
Fixpoint for_each {A B : Type} (f : B → A → M B) (l : list A) (b : B) : M B :=
  match l with
  | [] => mret b
  | x :: l' => b' ← f b x; for_each f l' b'
  end.

(** The first callback: the member [si] of the current DFA state adds the
    closure of its target to the entry of its symbol. *)
Definition add_member (epsilon_closures : list (gset Z))
    (ch_closures : gmap Z (gset Z)) (si : Z) : M (gmap Z (gset Z)) :=
  st ← get_state si;
  if (rule st =? RULE_EPSILON) || (rule st =? RULE_UNDEFINED) then mret ch_closures
  else
    c ← lift (vec_at epsilon_closures (refs st).1);
    mret (<[rule st := default ∅ (ch_closures !! rule st) ∪ c]> ch_closures).

(** [std::find(dfa_states.begin(), dfa_states.end(), x)] as an index. *)
Definition find_state (x : gset Z) (dfa_states : list (gset Z)) : option nat :=
  fst <$> list_find (λ y, y = x) dfa_states.

(** The second callback: the candidate [cs] is looked up among the states
    discovered so far and appended when it is new; the transition is
    recorded in both cases. *)
Definition index_closure (dsi : nat)
    (acc : list (gset Z) * list DFARefRecord) (cs : Z * gset Z)
  : list (gset Z) * list DFARefRecord :=
  let '(dfa_states, dfa_ref_records) := acc in
  match find_state cs.2 dfa_states with
  | Some i =>
      (dfa_states,
       dfa_ref_records ++ [mkRec (Z.of_nat dsi) cs.1 (Z.of_nat i)])
  | None =>
      (dfa_states ++ [cs.2],
       dfa_ref_records ++ [mkRec (Z.of_nat dsi) cs.1 (vec_size dfa_states)])
  end.

(** [for(size_t dsi = 0; dsi < dfa_states.size(); dsi++) { ... }]. *)
Fixpoint subset_for (fuel : nat) (epsilon_closures : list (gset Z)) (dsi : nat)
    (dfa_states : list (gset Z)) (dfa_ref_records : list DFARefRecord)
  : M (list (gset Z) * list DFARefRecord) :=
  match dfa_states !! dsi with
  | None => mret (dfa_states, dfa_ref_records)
  | Some members =>
      match fuel with
      | O => lift OutOfFuel
      | S fuel' =>
          ch_closures ← for_each (add_member epsilon_closures) (set_iter members) ∅;
          let '(dfa_states', dfa_ref_records') :=
            foldl (index_closure dsi) (dfa_states, dfa_ref_records) (map_iter ch_closures) in
          subset_for fuel' epsilon_closures (S dsi) dfa_states' dfa_ref_records'
      end
  end.

(** A budget the outer loop stays within: one round for each set of states. *)
Definition subset_fuel (n : nat) : nat := (2 ^ n + 1)%nat.

(** [dfa[i].is_end = dfa_states[i].find(nfa.end) != dfa_states[i].end()]. *)
Definition mark_end (e : Z) (dfa_states : list (gset Z)) (dfa : DFA) : DFA :=
  imap (λ i st,
    {| is_end := bool_decide (e ∈ default ∅ (dfa_states !! i)); drefs := drefs st |}) dfa.

(** [dfa[rec.from].refs.emplace(rec.rule, rec.to)]. *)
Definition add_record (dfa : DFA) (r : DFARefRecord) : outcome DFA :=
  vec_upd dfa (rec_from r)
    (λ st, {| is_end := is_end st; drefs := emplace (rec_rule r) (rec_to r) (drefs st) |}).

Fixpoint add_records (dfa : DFA) (rs : list DFARefRecord) : outcome DFA :=
  match rs with
  | [] => Done dfa
  | r :: rs' => dfa' ← add_record dfa r; add_records dfa' rs'
  end.

(** The first half of [nfa2dfa]: the table of DFA states and the table of
    transitions. The closure table is a local of [nfa2dfa], handed by
    reference to [calculate_epsilon_closures]; when that call throws, the
    table goes with the frame. *)
Definition dfa_tables : M (list (gset Z) * list DFARefRecord) :=
  sz ← get_size;
  v ← get_vec;
  match calculate_epsilon_closures v (replicate (Z.to_nat sz) ∅) with
  | (o, epsilon_closures) =>
      _ ← lift o;
      r ← get_nfa;
      c0 ← lift (vec_at epsilon_closures (start r));
      subset_for (subset_fuel (length v)) epsilon_closures 0 [c0] []
  end.

Definition nfa2dfa : M DFA :=
  '(dfa_states, dfa_ref_records) ← dfa_tables;
  r ← get_nfa;
  lift (add_records (mark_end (end_ r) dfa_states (DFA_new (length dfa_states)))
          dfa_ref_records).

(** ** The automaton as a graph, and what it accepts *)

(** [p] has an epsilon transition to [q]: [p] is a state whose rule is
    [RULE_EPSILON] and [q] is one of its two targets, not [REF_UNDEFINED]. *)
Definition eps_edge (nss : list NFAState) (p q : Z) : Prop :=
  ∃ st, vec_at nss p = Done st ∧ rule st = RULE_EPSILON ∧
        q ≠ REF_UNDEFINED ∧ (q = (refs st).1 ∨ q = (refs st).2).

(** Zero or more epsilon transitions. *)
Definition eps_reach (nss : list NFAState) : Z → Z → Prop := rtc (eps_edge nss).

(** One or more epsilon transitions that lead back: an epsilon cycle. *)
Definition eps_cycle (nss : list NFAState) : Prop := ∃ p, tc (eps_edge nss) p p.

(** A symbol: a [char] that is neither of the two sentinels. *)
Definition is_symbol (c : Z) : Prop := c ≠ RULE_EPSILON ∧ c ≠ RULE_UNDEFINED.

(** [p] has a transition on the symbol [c] to [q]. *)
Definition sym_edge (nss : list NFAState) (p c q : Z) : Prop :=
  ∃ st, vec_at nss p = Done st ∧ rule st = c ∧ is_symbol c ∧ q = (refs st).1.

(** Modelled from the spec: the sources hold no matcher for the NFA. A state
    whose rule is a symbol moves to its first target on that symbol, an
    epsilon state moves to either target without consuming input, and a
    state whose rule is [RULE_UNDEFINED] has no transition. [nfa_path p w q]:
    the automaton can go from [p] to [q] reading [w]. *)
Inductive nfa_path (nss : list NFAState) : Z → list Z → Z → Prop :=
| path_nil p : nfa_path nss p [] p
| path_eps p q w r : eps_edge nss p q → nfa_path nss q w r → nfa_path nss p w r
| path_sym p c q w r : sym_edge nss p c q → nfa_path nss q w r → nfa_path nss p (c :: w) r.

(** The NFA accepts [w]: a path from the start state of the stored fragment
    to its end state reads [w]. *)
Definition nfa_accepts (n : NFA) (w : list Z) : Prop :=
  nfa_path (vec n) (start (nfa n)) w (end_ (nfa n)).

(** ** Well-formed automata *)

Definition in_range (nss : list NFAState) (i : Z) : Prop := 0 ≤ i < vec_size nss.

Definition ref_ok (nss : list NFAState) (r : Z) : Prop :=
  r = REF_UNDEFINED ∨ in_range nss r.

(** The targets that are read are states of the arena: both targets of an
    epsilon state unless undefined, the first target of a symbol state. *)
Definition state_ok (nss : list NFAState) (st : NFAState) : Prop :=
  (rule st = RULE_EPSILON → ref_ok nss (refs st).1 ∧ ref_ok nss (refs st).2) ∧
  (is_symbol (rule st) → in_range nss (refs st).1).

Definition states_ok (nss : list NFAState) : Prop := Forall (state_ok nss) nss.

(** A fragment whose two ends are states of the arena. *)
Definition frag_ok (n : NFA) (r : NFASubsetRef) : Prop :=
  in_range (vec n) (start r) ∧ in_range (vec n) (end_ r).

(** The automata that calls of the algebra build, starting from [NFA()].
    Operands are fragments of the arena; [range] and [one_of] may return the
    sentinel and then leave the object as it is. *)
Inductive built : NFA → Prop :=
| built_new : built NFA_new
| built_ch n c r n' :
    built n → ch c n = (Done r, n') → built n'
| built_link n lv rv r n' :
    built n → frag_ok n lv → frag_ok n rv → link lv rv n = (Done r, n') → built n'
| built_select n lv rv r n' :
    built n → frag_ok n lv → frag_ok n rv → select lv rv n = (Done r, n') → built n'
| built_star n v r n' :
    built n → frag_ok n v → star v n = (Done r, n') → built n'
| built_question n v r n' :
    built n → frag_ok n v → question v n = (Done r, n') → built n'
| built_range n s e r n' :
    built n → range s e n = (Done r, n') → built n'
| built_one_of n l r n' :
    built n → one_of l n = (Done r, n') → built n'.

(** ** Bookkeeping of the closure pass *)

(** [s] is a target that the loop would push: defined and not yet flagged. *)
Definition unflagged (flag : list bool) (s : Z) : bool :=
  negb (s =? REF_UNDEFINED) &&
  match vec_at flag s with
  | Done false => true
  | _ => false
  end.

(** The state that [x] waits for: its first unflagged target. *)
Definition next_ref (nss : list NFAState) (flag : list bool) (x : Z) : option Z :=
  match vec_at nss x with
  | Done st =>
      if rule st =? RULE_EPSILON then
        if unflagged flag (refs st).1 then Some (refs st).1
        else if unflagged flag (refs st).2 then Some (refs st).2
        else None
      else None
  | _ => None
  end.

(** Every state on the stack waits for the state above it. *)
Fixpoint chain (nss : list NFAState) (flag : list bool) (stack : list Z) : Prop :=
  match stack with
  | y :: below =>
      match below with
      | x :: _ => next_ref nss flag x = Some y ∧ chain nss flag below
      | [] => True
      end
  | [] => True
  end.

(** Number of states not yet flagged. *)
Definition todo (flag : list bool) : nat := length (filter (λ b, b = false) flag).

(** The closure table [ecs] holds, for a state [i], exactly the states that
    [i] reaches by epsilon transitions. *)
Definition closure_of (nss : list NFAState) (ecs : list (gset Z)) (i : Z) : Prop :=
  ∃ s, vec_at ecs i = Done s ∧ ∀ j, j ∈ s ↔ eps_reach nss i j.

(** Invariant of the closure pass. *)
Record closure_inv (nss : list NFAState) (flag : list bool) (ecs : list (gset Z))
  : Prop := {
  ci_flag_len : length flag = length nss;
  ci_ecs_len : length ecs = length nss;
  ci_sound : ∀ i s j, vec_at ecs i = Done s → j ∈ s → eps_reach nss i j;
  ci_complete : ∀ i s j,
    vec_at flag i = Done true → vec_at ecs i = Done s → eps_reach nss i j → j ∈ s;
  ci_closed : ∀ i q,
    vec_at flag i = Done true → eps_edge nss i q →
    vec_at flag q = Done true ∧ ¬ eps_reach nss q i
}.

(** The closure table only grows. *)
Definition ecs_le (ecs ecs' : list (gset Z)) : Prop :=
  ∀ i a, vec_at ecs i = Done a → ∃ a', vec_at ecs' i = Done a' ∧ a ⊆ a'.

(** ** Bookkeeping of the subset construction *)

(** [j] is reached from a member of [members] by one transition on [c]
    followed by epsilon transitions. *)
Definition move_to (nss : list NFAState) (members : gset Z) (c j : Z) : Prop :=
  ∃ si q, si ∈ members ∧ sym_edge nss si c q ∧ eps_reach nss q j.

(** Some member of the list has a transition on [c]. *)
Definition has_symbol (nss : list NFAState) (members : list Z) (c : Z) : Prop :=
  ∃ si q, si ∈ members ∧ sym_edge nss si c q.

(** What [ch_closures] holds once the members in [seen] have been visited. *)
Definition chc_spec (nss : list NFAState) (seen : list Z)
    (ch_closures : gmap Z (gset Z)) : Prop :=
  ∀ c,
    match ch_closures !! c with
    | Some t =>
        has_symbol nss seen c ∧
        ∀ j, j ∈ t ↔ ∃ si q, si ∈ seen ∧ sym_edge nss si c q ∧ eps_reach nss q j
    | None => ¬ has_symbol nss seen c
    end.

(** A member set of a DFA state: states of the arena, closed under epsilon
    transitions. *)
Definition good_set (nss : list NFAState) (s : gset Z) : Prop :=
  (∀ j, j ∈ s → in_range nss j) ∧
  (∀ j k, j ∈ s → eps_reach nss j k → k ∈ s).

(** A recorded transition leads from a discovered state, on a symbol that
    one of its members has, to the discovered state that holds exactly the
    states reached on that symbol. *)
Definition record_ok (nss : list NFAState) (dfa_states : list (gset Z))
    (r : DFARefRecord) : Prop :=
  ∃ (i k : nat) s t,
    rec_from r = Z.of_nat i ∧ rec_to r = Z.of_nat k ∧
    dfa_states !! i = Some s ∧ dfa_states !! k = Some t ∧
    has_symbol nss (elements s) (rec_rule r) ∧
    ∀ j, j ∈ t ↔ move_to nss s (rec_rule r) j.

(** Invariant of the two tables when the states before [dsi] have been
    processed. *)
Record tables_inv (nss : list NFAState) (dsi : nat)
    (dfa_states : list (gset Z)) (dfa_ref_records : list DFARefRecord) : Prop := {
  ti_nodup : NoDup dfa_states;
  ti_good : Forall (good_set nss) dfa_states;
  ti_recs : Forall (record_ok nss dfa_states) dfa_ref_records;
  ti_complete : ∀ (i : nat) s c,
    (i < dsi)%nat → dfa_states !! i = Some s → has_symbol nss (elements s) c →
    ∃ to, mkRec (Z.of_nat i) c to ∈ dfa_ref_records
}.

(** The sets of states below [n], as vectors of [n] bits: there are [2 ^ n]. *)
Fixpoint bool_lists (n : nat) : list (list bool) :=
  match n with
  | O => [[]]
  | S n' => (cons true <$> bool_lists n') ++ (cons false <$> bool_lists n')
  end.

Definition chi (n : nat) (s : gset Z) : list bool :=
  (λ i : nat, bool_decide (Z.of_nat i ∈ s)) <$> seq 0 n.

(** What [add_records] leaves in the state [i] of the result: the flag is
    kept, every transition is an old one or a recorded one, and every
    recorded symbol has a transition. *)
Definition refs_from (recs : list DFARefRecord) (i : nat) (st st' : DFAState) : Prop :=
  is_end st' = is_end st ∧
  (∀ c to, drefs st' !! c = Some to →
           drefs st !! c = Some to ∨ mkRec (Z.of_nat i) c to ∈ recs) ∧
  (∀ c, is_Some (drefs st !! c) ∨ (∃ to, mkRec (Z.of_nat i) c to ∈ recs) →
        is_Some (drefs st' !! c)).

(** The result [d] of the conversion, read against the table of DFA states
    [ds], the transitions [recs] and the end state [e] it was built from. *)
Definition dfa_of (ds : list (gset Z)) (recs : list DFARefRecord) (e : Z)
    (d : DFA) : Prop :=
  length d = length ds ∧
  ∀ (i : nat) s, ds !! i = Some s →
    ∃ st, d !! i = Some st ∧
          is_end st = bool_decide (e ∈ s) ∧
          (∀ c to, drefs st !! c = Some to → mkRec (Z.of_nat i) c to ∈ recs) ∧
          (∀ c to, mkRec (Z.of_nat i) c to ∈ recs → is_Some (drefs st !! c)).

(** ** Invariant of the arena under the algebra *)

(** A state of an arena of [size] states: both targets are undefined or
    states of the arena, and a symbol state has its first target. *)
Definition node_ok (size : Z) (st : NFAState) : Prop :=
  ((refs st).1 = REF_UNDEFINED ∨ 0 ≤ (refs st).1 < size) ∧
  ((refs st).2 = REF_UNDEFINED ∨ 0 ≤ (refs st).2 < size) ∧
  (is_symbol (rule st) → 0 ≤ (refs st).1 < size).

Definition arena_ok (nss : list NFAState) : Prop := Forall (node_ok (vec_size nss)) nss.

(** The object between two calls: a sound arena, and a stored fragment that
    is still the sentinel of [NFA()] or lies in the arena. *)
Definition nfa_ok (n : NFA) : Prop :=
  arena_ok (vec n) ∧ (nfa n = NFASubsetRef_new ∧ vec n = [] ∨ frag_ok n (nfa n)).

(** No two states of the table have the same members. *)
Definition distinct_members (dfa_states : list (gset Z)) : Prop :=
  ∀ (i j : nat) s t,
    dfa_states !! i = Some s → dfa_states !! j = Some t →
    (∀ x, x ∈ s ↔ x ∈ t) → i = j.

(** ** Example automata *)

(** [ch('a')]. *)
Definition ex_a : NFA := (ch 97 NFA_new).2.

(** [star(ch('a'))]. *)
Definition ex_a_star : NFA := ((a ← ch 97; star a) NFA_new).2.

(** [star(star(ch('a')))]. *)
Definition ex_a_star_star : NFA := ((a ← ch 97; b ← star a; star b) NFA_new).2.

(** One state with an epsilon transition to itself and no other target. *)
Definition ex_self_loop : list NFAState :=
  [ {| rule := RULE_EPSILON; refs := (0, REF_UNDEFINED) |} ].


(** The closure table of [ex_a_star]. *)
Definition ex_a_star_closures : list (gset Z) :=
  [ {[0]}; {[0; 1; 2; 3]}; {[0; 2; 3]}; {[3]} ].

(** The tables and the DFA of [ex_a]. *)
Definition ex_a_states : list (gset Z) := [ {[0]}; {[1]} ].
Definition ex_a_records : list DFARefRecord := [ mkRec 0 97 1 ].
Definition ex_a_dfa : DFA :=
  [ {| is_end := false; drefs := {[97 := 1]} |}; {| is_end := true; drefs := ∅ |} ].

(** ** Fragments and their languages *)

(** Any transition from [p] to [q]. *)
Definition edge (nss : list NFAState) (p q : Z) : Prop :=
  eps_edge nss p q ∨ ∃ c, sym_edge nss p c q.

(** A fragment ready to be an operand: its footprint [F] holds states of the
    arena, among them both ends, no transition leaves it, and the exit state
    is still as [NFAState()] made it. *)
Record proper_frag (nss : list NFAState) (r : NFASubsetRef) (F : gset Z) : Prop := {
  pf_start : start r ∈ F;
  pf_end : end_ r ∈ F;
  pf_range : ∀ i, i ∈ F → in_range nss i;
  pf_exit : vec_at nss (end_ r) = Done NFAState_new;
  pf_closed : ∀ p q, p ∈ F → edge nss p q → q ∈ F
}.

(** The inputs that lead from the entry of a fragment to its exit. *)
Definition frag_lang (nss : list NFAState) (r : NFASubsetRef) (w : list Z) : Prop :=
  nfa_path nss (start r) w (end_ r).

Definition lang_cat (L1 L2 : list Z → Prop) (w : list Z) : Prop :=
  ∃ w1 w2, w = w1 ++ w2 ∧ L1 w1 ∧ L2 w2.

Inductive lang_star (L : list Z → Prop) : list Z → Prop :=
| star_nil : lang_star L []
| star_app w1 w2 : L w1 → lang_star L w2 → lang_star L (w1 ++ w2).

(** [nss'] has the states of [F] as [nss] has them. *)
Definition keeps (nss nss' : list NFAState) (F : gset Z) : Prop :=
  ∀ i, i ∈ F → vec_at nss' i = vec_at nss i.

(** [nss'] has every state of [nss] that has a rule. *)
Definition extends (nss nss' : list NFAState) : Prop :=
  ∀ p st, vec_at nss p = Done st → rule st ≠ RULE_UNDEFINED → vec_at nss' p = Done st.

(** ** Constructions *)

(** The inputs that the fragment of [ch(c)] reads: [c] itself when it is a
    symbol, the empty input when it is [RULE_EPSILON], none when it is
    [RULE_UNDEFINED]. *)
Definition char_lang (c : Z) (w : list Z) : Prop :=
  (is_symbol c ∧ w = [c]) ∨ (c = RULE_EPSILON ∧ w = []).

(** [m] constructs a fragment for the language [L], and an epsilon cycle
    when [C] holds: on every sound arena it returns and stores a fragment
    whose footprint lies in the states it has appended, leaves the states it
    found as they were, and keeps the arena sound. *)
Definition builds (m : M NFASubsetRef) (L : list Z → Prop) (C : Prop) : Prop :=
  ∀ n, arena_ok (vec n) →
    ∃ r n' F,
      m n = (Done r, n') ∧ nfa n' = r ∧ arena_ok (vec n') ∧
      proper_frag (vec n') r F ∧
      (∀ i, i ∈ F → vec_size (vec n) ≤ i) ∧
      (∀ i, in_range (vec n) i → vec_at (vec n') i = vec_at (vec n) i) ∧
      vec_size (vec n) ≤ vec_size (vec n') ∧
      (eps_cycle (vec n') ↔ eps_cycle (vec n) ∨ C) ∧
      ∀ w, frag_lang (vec n') r w ↔ L w.

(** A call [select(a(), b())]: the order in which the two arguments are
    evaluated is left to the compiler. *)
Definition select_args (left_first : bool) (a b : M NFASubsetRef) : M NFASubsetRef :=
  if left_first then x ← a; y ← b; select x y
  else y ← b; x ← a; select x y.

(** The characters of a C string: those before its first NUL. *)
Fixpoint c_str (l : list Z) : list Z :=
  match l with
  | [] => []
  | c :: p => if c =? 0 then [] else c :: c_str p
  end.

(** The inputs read by a choice between the characters [cs]. *)
Definition chars_lang (cs : list Z) (w : list Z) : Prop :=
  ∃ c, c ∈ cs ∧ char_lang c w.

(** The inputs of one symbol, taken from the class [P]. *)
Definition single_of (P : Z → Prop) (w : list Z) : Prop :=
  ∃ c, w = [c] ∧ P c.

(** ** The named character classes *)

(** The [char]s of a string literal. *)
Definition literal (s : string) : list Z :=
  map (λ a, to_char (Z.of_nat (Ascii.nat_of_ascii a))) (String.list_ascii_of_string s).

(** The calls [select(f(), g())] of the classes: which argument each of them
    evaluates first is the compiler's choice. *)
Inductive call_site : Set :=
| in_alnum | in_alpha | in_graph | in_print | in_xdigit.

Definition blank : M NFASubsetRef := one_of (literal " "%string ++ [9]).

Definition digit : M NFASubsetRef := one_of (literal "0123456789"%string).

Definition lower : M NFASubsetRef := one_of (literal "abcdefghijklmnopqrstuvwxyz"%string).

Definition upper : M NFASubsetRef := one_of (literal "ABCDEFGHIJKLMNOPQRSTUVWXYZ"%string).

(** The literal of the source, its escaped double quote and backslash
    written as their codes 34 and 92. *)
Definition punct : M NFASubsetRef :=
  one_of (literal "!"%string ++ [34] ++ literal "#$%&'()*+,-./:;<=>?@["%string ++ [92]
            ++ literal "]^_`{|}"%string).

Definition alpha (left_first : call_site → bool) : M NFASubsetRef :=
  select_args (left_first in_alpha) lower upper.

Definition alnum (left_first : call_site → bool) : M NFASubsetRef :=
  select_args (left_first in_alnum) (alpha left_first) digit.

Definition graph (left_first : call_site → bool) : M NFASubsetRef :=
  select_args (left_first in_graph) (alnum left_first) punct.

Definition print (left_first : call_site → bool) : M NFASubsetRef :=
  select_args (left_first in_print) (graph left_first) (ch 32).

Definition xdigit (left_first : call_site → bool) : M NFASubsetRef :=
  select_args (left_first in_xdigit) digit (one_of (literal "ABCDEFabcdef"%string)).

(** [NFA::operator[]]: the state at an index, unchecked. *)
Definition NFA_index (n : NFA) (i : Z) : outcome NFAState := vec_at (vec n) i.

(** The arena after [ch('a')] and [ch('b')], its two fragments and their
    footprints. *)
Definition ex_ab : NFA := (ch 98 ex_a).2.
Definition ex_fa : NFASubsetRef := {| start := 0; end_ := 1 |}.
Definition ex_fb : NFASubsetRef := {| start := 2; end_ := 3 |}.
Definition ex_Fa : gset Z := {[0; 1]}.
Definition ex_Fb : gset Z := {[2; 3]}.
(** * Properties *)

(** ** Vectors *)

Section vectors.
Context {A : Type}.
Implicit Types (v : list A) (i : Z) (x : A).

Lemma vec_at_Done v i x :
  vec_at v i = Done x ↔ 0 ≤ i ∧ v !! Z.to_nat i = Some x.
Proof.
  unfold vec_at. destruct (Z.ltb_spec i 0); [split; [done | lia] |].
  destruct (v !! Z.to_nat i); split; naive_solver.
Qed.

Lemma vec_at_nat v (k : nat) : vec_at v (Z.of_nat k) = from_option Done Undef (v !! k).
Proof.
  unfold vec_at. destruct (Z.ltb_spec (Z.of_nat k) 0); [lia |].
  rewrite Nat2Z.id. by destruct (v !! k).
Qed.

Lemma vec_at_cases v i :
  (∃ x, vec_at v i = Done x) ∨ vec_at v i = Undef.
Proof.
  unfold vec_at. destruct (i <? 0); [by right |].
  destruct (v !! Z.to_nat i); eauto.
Qed.

Lemma vec_at_in_range v i x : vec_at v i = Done x → 0 ≤ i < vec_size v.
Proof.
  rewrite vec_at_Done. intros [? Hl]. apply lookup_lt_Some in Hl.
  unfold vec_size. lia.
Qed.

Lemma vec_at_is_Done v i : 0 ≤ i < vec_size v → ∃ x, vec_at v i = Done x.
Proof.
  unfold vec_size. intros Hi.
  destruct (lookup_lt_is_Some_2 v (Z.to_nat i)) as [x Hx]; [lia |].
  exists x. apply vec_at_Done. split; [lia | done].
Qed.

Lemma vec_upd_Done v i f v' :
  vec_upd v i f = Done v' ↔
  ∃ x, vec_at v i = Done x ∧ v' = <[Z.to_nat i := f x]> v.
Proof.
  unfold vec_upd, vec_at. destruct (i <? 0); [naive_solver |].
  destruct (v !! Z.to_nat i); naive_solver.
Qed.

Lemma vec_upd_cases v i f :
  (∃ x, vec_at v i = Done x ∧ vec_upd v i f = Done (<[Z.to_nat i := f x]> v))
  ∨ (vec_at v i = Undef ∧ vec_upd v i f = Undef).
Proof.
  unfold vec_upd, vec_at. destruct (i <? 0); [by right |].
  destruct (v !! Z.to_nat i); eauto.
Qed.

Lemma vec_at_insert_eq v i x y :
  vec_at v i = Done y → vec_at (<[Z.to_nat i := x]> v) i = Done x.
Proof.
  rewrite !vec_at_Done. intros [? Hl]. split; [done |].
  apply list_lookup_insert_eq. by eapply lookup_lt_Some.
Qed.

Lemma vec_at_insert_ne v i j x :
  0 ≤ i → i ≠ j → vec_at (<[Z.to_nat i := x]> v) j = vec_at v j.
Proof.
  intros ? ?. unfold vec_at. destruct (Z.ltb_spec j 0); [done |].
  rewrite list_lookup_insert_ne; [done | lia].
Qed.

Lemma vec_at_insert v i j x y :
  vec_at v i = Done y →
  vec_at (<[Z.to_nat i := x]> v) j = if decide (i = j) then Done x else vec_at v j.
Proof.
  intros Hi. case_decide as Hij.
  - subst. by eapply vec_at_insert_eq.
  - apply vec_at_insert_ne; [|done]. apply vec_at_Done in Hi. lia.
Qed.

Lemma vec_size_insert v (k : nat) x : vec_size (<[k := x]> v) = vec_size v.
Proof. unfold vec_size. by rewrite length_insert. Qed.
End vectors.

(** ** Traversal orders *)

Lemma elem_of_set_iter (s : gset Z) x : x ∈ set_iter s ↔ x ∈ s.
Proof. unfold set_iter. rewrite merge_sort_Permutation. apply elem_of_elements. Qed.

Lemma elem_of_map_iter (m : gmap Z (gset Z)) c s :
  (c, s) ∈ map_iter m ↔ m !! c = Some s.
Proof. unfold map_iter. rewrite merge_sort_Permutation. apply elem_of_map_to_list. Qed.

Lemma NoDup_fst_map_iter (m : gmap Z (gset Z)) : NoDup (map_iter m).*1.
Proof. unfold map_iter. rewrite merge_sort_Permutation. apply NoDup_fst_map_to_list. Qed.

(** ** The monad *)

Lemma obind_Done {A B} (m : outcome A) (k : A → outcome B) b :
  m ≫= k = Done b ↔ ∃ a, m = Done a ∧ k a = Done b.
Proof. destruct m; simpl; naive_solver. Qed.

Lemma mbind_Done {A B} (m : M A) (k : A → M B) n b n'' :
  (m ≫= k) n = (Done b, n'') ↔ ∃ a n', m n = (Done a, n') ∧ k a n' = (Done b, n'').
Proof.
  unfold mbind, M_bind. destruct (m n) as [[a| | |] n']; simpl; naive_solver.
Qed.

(** ** Epsilon closures *)

Section closure.
Variable nss : list NFAState.

Lemma eps_edge_source p q : eps_edge nss p q → in_range nss p.
Proof. intros (st & Hst & _). by eapply vec_at_in_range. Qed.

Lemma eps_edge_target p q : states_ok nss → eps_edge nss p q → in_range nss q.
Proof.
  intros Hok (st & Hst & Hr & Hq & Hor).
  apply vec_at_Done in Hst as [_ Hst].
  eapply Forall_lookup_1 in Hok as [Hok _]; [|done].
  destruct (Hok Hr) as [[?|?] [?|?]], Hor; subst; done.
Qed.

Lemma eps_reach_in_range p q :
  states_ok nss → in_range nss p → eps_reach nss p q → in_range nss q.
Proof.
  intros Hok Hp Hr. induction Hr as [|p q r Hpq _ IH]; [done |].
  apply IH. by eapply eps_edge_target.
Qed.

Lemma eps_reach_inv p r :
  eps_reach nss p r → r = p ∨ ∃ q, eps_edge nss p q ∧ eps_reach nss q r.
Proof. intros H. inversion H; subst; eauto. Qed.

Lemma unflagged_true flag s :
  unflagged flag s = true ↔ s ≠ REF_UNDEFINED ∧ vec_at flag s = Done false.
Proof.
  unfold unflagged. rewrite andb_true_iff, negb_true_iff, Z.eqb_neq.
  destruct (vec_at flag s) as [[]| | |]; naive_solver.
Qed.

Lemma next_ref_Some flag x y :
  next_ref nss flag x = Some y → eps_edge nss x y ∧ vec_at flag y = Done false.
Proof.
  unfold next_ref, eps_edge.
  destruct (vec_at nss x) as [st| | |] eqn:Hst; [|done..].
  destruct (Z.eqb_spec (rule st) RULE_EPSILON) as [Hr|]; [|done].
  destruct (unflagged flag (refs st).1) eqn:H1.
  { intros [= <-]. apply unflagged_true in H1 as [? ?]. eauto 10. }
  destruct (unflagged flag (refs st).2) eqn:H2; [|done].
  intros [= <-]. apply unflagged_true in H2 as [? ?]. eauto 10.
Qed.

Lemma next_ref_flag_set flag x y a :
  next_ref nss flag x = Some y → y ≠ a → 0 ≤ a →
  next_ref nss (<[Z.to_nat a := true]> flag) x = Some y.
Proof.
  unfold next_ref. intros H Hy Ha.
  destruct (vec_at nss x) as [st| | |]; [|done..].
  destruct (rule st =? RULE_EPSILON); [|done].
  assert (∀ s, s ≠ a →
    unflagged (<[Z.to_nat a := true]> flag) s = unflagged flag s) as Hne.
  { intros s Hs. unfold unflagged. by rewrite vec_at_insert_ne. }
  assert (∀ s, unflagged flag s = false →
    unflagged (<[Z.to_nat a := true]> flag) s = false) as Hmono.
  { intros s Hs. destruct (decide (s = a)) as [->|]; [|by rewrite Hne].
    unfold unflagged in *. destruct (a =? REF_UNDEFINED); [done |]. simpl in *.
    destruct (vec_at_cases flag a) as [[b Hb]|Hb].
    - by erewrite vec_at_insert_eq.
    - apply not_true_iff_false. rewrite not_true_iff_false.
      destruct (vec_at (<[Z.to_nat a:=true]> flag) a) as [[]| | |] eqn:E; try done.
      apply vec_at_Done in E as [_ E].
      apply lookup_lt_Some in E. rewrite length_insert in E.
      destruct (lookup_lt_is_Some_2 flag (Z.to_nat a) E) as [b Hb'].
      assert (vec_at flag a = Done b) by (apply vec_at_Done; done).
      congruence. }
  destruct (unflagged flag (refs st).1) eqn:H1.
  { injection H as <-. by rewrite Hne, H1. }
  rewrite (Hmono _ H1).
  destruct (unflagged flag (refs st).2) eqn:H2; [|done].
  injection H as <-. by rewrite Hne, H2.
Qed.

Lemma chain_tail flag y below : chain nss flag (y :: below) → chain nss flag below.
Proof. destruct below; [done |]. by intros [_ ?]. Qed.

Lemma chain_waiting flag y below x :
  chain nss flag (y :: below) → x ∈ below → is_Some (next_ref nss flag x).
Proof.
  revert y. induction below as [|z below IH]; intros y Hc Hx.
  { by apply elem_of_nil in Hx. }
  destruct Hc as [Hz Hc]. apply elem_of_cons in Hx as [->|Hx]; [eauto |].
  by eapply IH.
Qed.

Lemma chain_tc flag y below x :
  chain nss flag (y :: below) → x ∈ below → tc (eps_edge nss) x y.
Proof.
  revert y. induction below as [|z below IH]; intros y Hc Hx.
  { by apply elem_of_nil in Hx. }
  destruct Hc as [Hz Hc]. apply next_ref_Some in Hz as [Hz _].
  apply elem_of_cons in Hx as [->|Hx]; [by apply tc_once |].
  eapply tc_r; [|done]. by eapply IH.
Qed.

Lemma chain_unflagged flag y below :
  chain nss flag (y :: below) → below ≠ [] → vec_at flag y = Done false.
Proof.
  destruct below as [|x below]; [done |]. intros [Hx _] _.
  by apply next_ref_Some in Hx as [_ ?].
Qed.

Lemma chain_flag_set flag stack a :
  chain nss flag stack → a ∉ stack → 0 ≤ a →
  chain nss (<[Z.to_nat a := true]> flag) stack.
Proof.
  induction stack as [|y [|x below] IH]; [done..|].
  intros [Hx Hc] Ha ?. split.
  - apply next_ref_flag_set; [done | | done]. set_solver.
  - apply IH; [done | set_solver | done].
Qed.

Lemma chain_pop flag a below :
  chain nss flag (a :: below) → next_ref nss flag a = None → 0 ≤ a →
  chain nss (<[Z.to_nat a := true]> flag) below.
Proof.
  intros Hc Hn Ha. apply chain_flag_set; [by eapply chain_tail | | done].
  intros Hin. destruct (chain_waiting _ _ _ _ Hc Hin) as [? ?]. congruence.
Qed.

Lemma chain_NoDup flag stack :
  chain nss flag stack → NoDup stack ∨ eps_cycle nss.
Proof.
  induction stack as [|y below IH]; intros Hc; [left; constructor |].
  destruct (IH (chain_tail _ _ _ Hc)) as [Hnd|?]; [|by right].
  destruct (decide (y ∈ below)) as [Hin|Hin].
  - right. exists y. by eapply chain_tc.
  - left. by constructor.
Qed.

Lemma stack_bound (stack : list Z) :
  NoDup stack → Forall (in_range nss) stack → (length stack ≤ length nss)%nat.
Proof.
  intros Hnd Hall.
  assert (stack ⊆+ seqZ 0 (vec_size nss)) as Hsub.
  { apply NoDup_submseteq; [done |]. intros x Hx.
    rewrite Forall_forall in Hall. apply Hall in Hx.
    apply elem_of_seqZ. unfold in_range in Hx. lia. }
  apply submseteq_length in Hsub. rewrite length_seqZ in Hsub.
  unfold vec_size in Hsub. lia.
Qed.
End closure.

Section closure_pass.
Variable nss : list NFAState.

Lemma ecs_le_refl ecs : ecs_le ecs ecs.
Proof. intros i a ?. by exists a. Qed.

Lemma ecs_le_trans e1 e2 e3 : ecs_le e1 e2 → ecs_le e2 e3 → ecs_le e1 e3.
Proof.
  intros H12 H23 i a Ha. destruct (H12 _ _ Ha) as (a' & Ha' & ?).
  destruct (H23 _ _ Ha') as (a'' & ? & ?). exists a''. split; [done | set_solver].
Qed.

Lemma merge_ref_None flag ecs argi s :
  merge_ref flag ecs argi s = Done None → unflagged flag s = true.
Proof.
  unfold merge_ref. intros H. apply unflagged_true.
  destruct (Z.eqb_spec s REF_UNDEFINED); [done |].
  apply obind_Done in H as (f & Hf & H). destruct f; simpl in H.
  - apply obind_Done in H as (c & _ & H).
    by apply obind_Done in H as (e & _ & H).
  - done.
Qed.

Lemma merge_ref_Some flag ecs argi s ecs' :
  merge_ref flag ecs argi s = Done (Some ecs') →
  unflagged flag s = false ∧ length ecs' = length ecs ∧
  (s = REF_UNDEFINED ∧ ecs' = ecs ∨
   s ≠ REF_UNDEFINED ∧ vec_at flag s = Done true ∧
   ∃ c a, vec_at ecs s = Done c ∧ vec_at ecs argi = Done a ∧
          ecs' = <[Z.to_nat argi := a ∪ c]> ecs).
Proof.
  unfold merge_ref, unflagged. intros H.
  destruct (Z.eqb_spec s REF_UNDEFINED) as [->|Hs].
  { injection H as <-. eauto. }
  apply obind_Done in H as (f & Hf & H). rewrite Hf. destruct f; simpl in H; [|done].
  apply obind_Done in H as (c & Hc & H).
  apply obind_Done in H as (e & He & H). injection H as <-.
  apply vec_upd_Done in He as (a & Ha & ->).
  rewrite length_insert. split_and!; [done..|]. right. eauto 10.
Qed.

Lemma merge_ref_inv flag ecs argi s ecs' :
  closure_inv nss flag ecs →
  (s ≠ REF_UNDEFINED → eps_edge nss argi s) →
  merge_ref flag ecs argi s = Done (Some ecs') →
  closure_inv nss flag ecs' ∧ ecs_le ecs ecs' ∧
  (s ≠ REF_UNDEFINED →
   vec_at flag s = Done true ∧
   ∃ a', vec_at ecs' argi = Done a' ∧ ∀ j, eps_reach nss s j → j ∈ a').
Proof.
  intros Hinv Hedge H.
  apply merge_ref_Some in H as (_ & Hlen & [[-> ->]|(Hs & Hf & c & a & Hc & Ha & ->)]).
  { split_and!; [done | apply ecs_le_refl | done]. }
  specialize (Hedge Hs). destruct Hinv as [Hfl Hel Hsound Hcompl Hclosed].
  assert (ecs_le ecs (<[Z.to_nat argi := a ∪ c]> ecs)) as Hle.
  { intros i b Hb. rewrite (vec_at_insert _ _ _ _ _ Ha). case_decide as Hi.
    - subst i. exists (a ∪ c). split; [done |].
      assert (b = a) as -> by congruence. apply union_subseteq_l.
    - by exists b. }
  split_and!; [constructor | done |].
  - done.
  - by rewrite length_insert.
  - intros i b j. rewrite (vec_at_insert _ _ _ _ _ Ha). case_decide as Hi.
    + subst i. intros [= <-] [Hj|Hj]%elem_of_union; [by eapply Hsound |].
      eapply rtc_l; [done |]. by eapply Hsound.
    + apply Hsound.
  - intros i b j Hi Hb Hr.
    destruct (vec_at_cases ecs i) as [[b0 Hb0]|Hb0].
    + destruct (Hle _ _ Hb0) as (b' & Hb' & Hsub).
      assert (b' = b) as -> by congruence.
      apply Hsub. by eapply Hcompl.
    + rewrite (vec_at_insert _ _ _ _ _ Ha) in Hb. case_decide; congruence.
  - done.
  - intros _. split; [done |]. exists (a ∪ c). split; [by eapply vec_at_insert_eq |].
    intros j Hj. apply elem_of_union_r. by eapply Hcompl.
Qed.

Lemma visit_top_next flag ecs argi v :
  visit_top nss flag ecs argi = Done v →
  match v with
  | Push s ecs' => next_ref nss flag argi = Some s ∧ length ecs' = length ecs
  | Finish ecs' => next_ref nss flag argi = None ∧ length ecs' = length ecs
  end.
Proof.
  unfold visit_top, next_ref. intros H.
  apply obind_Done in H as (st & Hst & H). rewrite Hst.
  destruct (rule st =? RULE_EPSILON); [|by injection H as <-].
  apply obind_Done in H as (r1 & H1 & H). destruct r1 as [ecs1|].
  - apply merge_ref_Some in H1 as (-> & Hl1 & _).
    apply obind_Done in H as (r2 & H2 & H). destruct r2 as [ecs2|].
    + apply merge_ref_Some in H2 as (-> & Hl2 & _). injection H as <-.
      split; [done | congruence].
    + apply merge_ref_None in H2 as ->. by injection H as <-.
  - apply merge_ref_None in H1 as ->. by injection H as <-.
Qed.

Lemma visit_top_inv flag ecs argi v :
  closure_inv nss flag ecs →
  visit_top nss flag ecs argi = Done v →
  match v with
  | Push s ecs' => closure_inv nss flag ecs'
  | Finish ecs' =>
      closure_inv nss flag ecs' ∧
      ∀ q, eps_edge nss argi q →
           vec_at flag q = Done true ∧
           ∃ a', vec_at ecs' argi = Done a' ∧ ∀ j, eps_reach nss q j → j ∈ a'
  end.
Proof.
  unfold visit_top. intros Hinv H.
  apply obind_Done in H as (st & Hst & H).
  destruct (Z.eqb_spec (rule st) RULE_EPSILON) as [Hr|Hr]; cycle 1.
  { injection H as <-. split; [done |]. intros q (st' & ? & ? & _). congruence. }
  assert (∀ s, s = (refs st).1 ∨ s = (refs st).2 →
               s ≠ REF_UNDEFINED → eps_edge nss argi s) as Hedge.
  { intros s Hs ?. exists st. eauto. }
  apply obind_Done in H as (r1 & H1 & H). destruct r1 as [ecs1|]; cycle 1.
  { by injection H as <-. }
  eapply merge_ref_inv in H1 as (Hinv1 & Hle1 & Hc1); [|done|eauto].
  apply obind_Done in H as (r2 & H2 & H). destruct r2 as [ecs2|]; cycle 1.
  { by injection H as <-. }
  eapply merge_ref_inv in H2 as (Hinv2 & Hle2 & Hc2); [|done|eauto].
  injection H as <-. split; [done |].
  intros q (st' & Hst' & _ & Hq & Hor).
  assert (st' = st) as -> by congruence.
  destruct Hor as [->| ->].
  - destruct (Hc1 Hq) as (? & a1 & Ha1 & Hall). split; [done |].
    destruct (Hle2 _ _ Ha1) as (a2 & ? & ?). exists a2. split; [done |].
    intros j Hj. set_solver.
  - by apply Hc2.
Qed.

Lemma flagged_reach flag ecs p q :
  closure_inv nss flag ecs →
  vec_at flag p = Done true → eps_reach nss p q → vec_at flag q = Done true.
Proof.
  intros Hinv Hp Hr. induction Hr as [|p q r Hpq _ IH]; [done |].
  apply IH. by eapply (ci_closed _ _ _ Hinv).
Qed.

(** The end of the loop body: [flag[argi] = true; ecs[argi].insert(argi);]. *)
Lemma finish_inv flag ecs argi flag' ecs' :
  closure_inv nss flag ecs →
  (∀ q, eps_edge nss argi q →
        vec_at flag q = Done true ∧
        ∃ a', vec_at ecs argi = Done a' ∧ ∀ j, eps_reach nss q j → j ∈ a') →
  vec_upd flag argi (λ _, true) = Done flag' →
  vec_upd ecs argi (λ e, e ∪ {[argi]}) = Done ecs' →
  closure_inv nss flag' ecs' ∧
  vec_at flag' argi = Done true ∧
  (∀ i, vec_at flag i = Done true → vec_at flag' i = Done true).
Proof.
  intros Hinv Hsucc Hf He.
  apply vec_upd_Done in Hf as (b & Hb & ->).
  apply vec_upd_Done in He as (a & Ha & ->).
  assert (∀ i, vec_at flag i = Done true →
               vec_at (<[Z.to_nat argi := true]> flag) i = Done true) as Hmono.
  { intros i Hi. rewrite (vec_at_insert _ _ _ _ _ Hb). by case_decide. }
  destruct Hinv as [Hfl Hel Hsound Hcompl Hclosed].
  split_and!; [constructor | by eapply vec_at_insert_eq | done].
  - by rewrite length_insert.
  - by rewrite length_insert.
  - intros i s j. rewrite (vec_at_insert _ _ _ _ _ Ha). case_decide as Hi.
    + subst i. intros [= <-] [Hj|Hj]%elem_of_union; [by eapply Hsound |].
      apply elem_of_singleton in Hj as ->. apply rtc_refl.
    + apply Hsound.
  - intros i s j. rewrite (vec_at_insert _ _ _ _ _ Hb), (vec_at_insert _ _ _ _ _ Ha).
    case_decide as Hi; [|apply Hcompl].
    subst i. intros _ [= <-] Hr.
    apply eps_reach_inv in Hr as [->|(q & Hq & Hr)]; [set_solver |].
    destruct (Hsucc _ Hq) as (_ & a' & Ha' & Hall).
    assert (a' = a) as -> by congruence. apply elem_of_union_l. by apply Hall.
  - intros i q. rewrite (vec_at_insert _ _ _ _ _ Hb). case_decide as Hi.
    + subst i. intros _ Hq. destruct (Hsucc _ Hq) as (Hfq & _).
      split; [by apply Hmono |]. intros Hr.
      destruct b.
      * by eapply (Hclosed argi q).
      * assert (vec_at flag argi = Done true); [|congruence].
        eapply flagged_reach; [by constructor | done..].
    + intros Hfi Hq. destruct (Hclosed _ _ Hfi Hq) as [? ?]. split; [by apply Hmono | done].
Qed.

Lemma closure_while_inv fuel : ∀ flag ecs stack flag' ecs',
  closure_inv nss flag ecs →
  closure_while fuel nss flag ecs stack = (Done flag', ecs') →
  closure_inv nss flag' ecs' ∧
  (∀ i, vec_at flag i = Done true → vec_at flag' i = Done true) ∧
  (∀ x, x ∈ stack → vec_at flag' x = Done true).
Proof.
  induction fuel as [|fuel IH]; intros flag ecs stack flag' ecs' Hinv H.
  { destruct stack; [|done]. injection H as <- <-.
    split_and!; [done..|]. intros x Hx. by apply elem_of_nil in Hx. }
  destruct stack as [|argi below].
  { injection H as <- <-.
    split_and!; [done..|]. intros x Hx. by apply elem_of_nil in Hx. }
  cbn [closure_while] in H.
  destruct (length ecs <? length (argi :: below))%nat; [done |].
  destruct (visit_top nss flag ecs argi) as [v| | |] eqn:Hv; [|done..].
  pose proof (visit_top_inv _ _ _ _ Hinv Hv) as Hv'.
  destruct v as [s ecs1|ecs1].
  - apply IH in H as (? & ? & Hall); [|done].
    split_and!; [done..|]. intros x Hx. apply Hall. by right.
  - destruct Hv' as [Hinv1 Hsucc].
    destruct (vec_upd flag argi (λ _, true)) as [flag1| | |] eqn:Hf1; [|done..].
    destruct (vec_upd ecs1 argi (λ e, e ∪ {[argi]})) as [ecs2| | |] eqn:He2; [|done..].
    destruct (finish_inv _ _ _ _ _ Hinv1 Hsucc Hf1 He2) as (Hinv2 & Hargi & Hmono).
    apply IH in H as (? & Hmono' & Hall); [|done].
    split_and!; [done | by auto |].
    intros x [->|Hx]%elem_of_cons; by auto.
Qed.

Lemma closure_for_inv idx : ∀ flag ecs flag' ecs',
  closure_inv nss flag ecs →
  closure_for nss idx flag ecs = (Done flag', ecs') →
  closure_inv nss flag' ecs' ∧
  (∀ i, vec_at flag i = Done true → vec_at flag' i = Done true) ∧
  (∀ i, i ∈ idx → vec_at flag' (Z.of_nat i) = Done true).
Proof.
  induction idx as [|i idx IH]; intros flag ecs flag' ecs' Hinv H.
  { injection H as <- <-. split_and!; [done..|]. intros x Hx. by apply elem_of_nil in Hx. }
  cbn [closure_for] in H.
  destruct (closure_while _ nss flag ecs [Z.of_nat i]) as [[flag1| | |] ecs1] eqn:Hw;
    [|done..].
  apply closure_while_inv in Hw as (Hinv1 & Hmono1 & Hall1); [|done].
  apply IH in H as (? & Hmono & Hall); [|done].
  split_and!; [done | by auto |].
  intros x [->|Hx]%elem_of_cons; [|by auto].
  apply Hmono, Hall1. by left.
Qed.

Lemma closure_inv_init :
  closure_inv nss (replicate (length nss) false) (replicate (length nss) ∅).
Proof.
  constructor.
  - by rewrite length_replicate.
  - by rewrite length_replicate.
  - intros i s j [_ Hs]%vec_at_Done. apply lookup_replicate in Hs as [-> _]. set_solver.
  - intros i s j [_ Hf]%vec_at_Done. by apply lookup_replicate in Hf as [? _].
  - intros i q [_ Hf]%vec_at_Done. by apply lookup_replicate in Hf as [? _].
Qed.




(** What a completed pass has computed. *)
Lemma closures_Done ecs :
  calculate_epsilon_closures nss (replicate (length nss) ∅) = (Done tt, ecs) →
  length ecs = length nss ∧ ¬ eps_cycle nss ∧
  ∀ i, in_range nss i → closure_of nss ecs i.
Proof.
  unfold calculate_epsilon_closures.
  destruct (closure_for nss _ _ _) as [[flag'| | |] ecs'] eqn:H; [|done..].
  intros [= ->].
  apply closure_for_inv in H as (Hinv & _ & Hall); [|apply closure_inv_init].
  assert (∀ i, in_range nss i → vec_at flag' i = Done true) as Hflag.
  { intros i Hi. unfold in_range, vec_size in Hi.
    rewrite <- (Z2Nat.id i) by lia. apply Hall, elem_of_seq. lia. }
  split_and!.
  - apply (ci_ecs_len _ _ _ Hinv).
  - intros [p Hp].
    assert (∃ q, eps_edge nss p q ∧ eps_reach nss q p) as (q & Hpq & Hqp).
    { inversion Hp; subst; [by eexists |]. eexists. split; [done |]. by apply tc_rtc. }
    eapply (ci_closed _ _ _ Hinv); [|done..].
    apply Hflag. by eapply eps_edge_source.
  - intros i Hi. unfold closure_of.
    destruct (vec_at_is_Done ecs i) as [s Hs].
    { unfold in_range, vec_size in *. rewrite (ci_ecs_len _ _ _ Hinv). done. }
    exists s. split; [done |]. intros j. split.
    + by apply (ci_sound _ _ _ Hinv).
    + apply (ci_complete _ _ _ Hinv); [by apply Hflag | done].
Qed.
End closure_pass.

Section closure_total.
Variable nss : list NFAState.
Hypothesis Hok : states_ok nss.

Lemma todo_le flag : (todo flag ≤ length flag)%nat.
Proof. apply length_filter. Qed.

Lemma todo_insert flag a :
  vec_at flag a = Done false →
  (todo (<[Z.to_nat a := true]> flag) + 1 = todo flag)%nat.
Proof.
  intros [_ Ha]%vec_at_Done. revert Ha. generalize (Z.to_nat a) as k.
  unfold todo. induction flag as [|b flag IH]; intros k Hk; [done |].
  destruct k as [|k]; simpl in *.
  - injection Hk as ->. rewrite !filter_cons.
    repeat case_decide; try done. simpl. lia.
  - rewrite !filter_cons. case_decide; simpl; rewrite <- (IH k Hk); lia.
Qed.

Lemma merge_ref_total flag ecs argi s :
  length flag = length nss → length ecs = length nss →
  in_range nss argi → ref_ok nss s →
  ∃ r, merge_ref flag ecs argi s = Done r.
Proof.
  intros Hfl Hel Hargi Hs. unfold merge_ref.
  destruct (Z.eqb_spec s REF_UNDEFINED) as [|Hne]; [eauto |].
  destruct Hs as [?|Hs]; [done |].
  unfold in_range, vec_size in *.
  destruct (vec_at_is_Done flag s) as [f ->]; [unfold vec_size; lia |]. simpl.
  destruct f; simpl; [|eauto].
  destruct (vec_at_is_Done ecs s) as [c ->]; [unfold vec_size; lia |]. simpl.
  destruct (vec_upd_cases ecs argi (λ e, e ∪ c)) as [(x & _ & ->)|[Hu _]]; [simpl; eauto |].
  destruct (vec_at_is_Done ecs argi) as [? ?]; [unfold vec_size; lia | congruence].
Qed.

Lemma visit_top_total flag ecs argi :
  length flag = length nss → length ecs = length nss →
  in_range nss argi →
  ∃ v, visit_top nss flag ecs argi = Done v.
Proof.
  intros Hfl Hel Hargi. unfold visit_top.
  destruct (vec_at_is_Done nss argi Hargi) as [st Hst]. rewrite Hst. simpl.
  destruct (Z.eqb_spec (rule st) RULE_EPSILON) as [Hr|]; [|eauto].
  apply vec_at_Done in Hst as [_ Hst].
  eapply Forall_lookup_1 in Hok as [Hrefs _]; [|done].
  destruct (Hrefs Hr) as [H1 H2].
  destruct (merge_ref_total flag ecs argi _ Hfl Hel Hargi H1) as [r1 Hr1].
  rewrite Hr1. simpl. destruct r1 as [ecs1|]; [|eauto].
  apply merge_ref_Some in Hr1 as (_ & Hl1 & _).
  destruct (merge_ref_total flag ecs1 argi _ Hfl (eq_trans Hl1 Hel) Hargi H2) as [r2 Hr2].
  rewrite Hr2. simpl. destruct r2; eauto.
Qed.

Lemma closure_while_total fuel : ∀ flag ecs stack,
  closure_inv nss flag ecs →
  Forall (in_range nss) stack →
  chain nss flag stack →
  (length stack ≤ length nss + 1)%nat →
  (stack ≠ [] →
   todo flag * (length nss + 2) + (length nss + 2 - length stack) < fuel)%nat →
  (∃ flag' ecs', closure_while fuel nss flag ecs stack = (Done flag', ecs')) ∨
  (∃ ecs', closure_while fuel nss flag ecs stack = (Throw, ecs') ∧ eps_cycle nss).
Proof.
  induction fuel as [|fuel IH]; intros flag ecs stack Hinv Hrng Hch Hlen Hfuel.
  { destruct stack; [left; by eexists _, _ |]. specialize (Hfuel ltac:(done)). lia. }
  destruct stack as [|argi below]; [left; by eexists _, _ |].
  specialize (Hfuel ltac:(done)). cbn [closure_while].
  pose proof (ci_flag_len _ _ _ Hinv) as Hfl.
  pose proof (ci_ecs_len _ _ _ Hinv) as Hel.
  destruct (Nat.ltb_spec (length ecs) (length (argi :: below))) as [Hthrow|Hfits].
  { right. exists ecs. split; [done |]. destruct (chain_NoDup _ _ _ Hch) as [Hnd|?]; [|done].
    apply (stack_bound nss) in Hnd; [simpl in *; lia | done]. }
  apply Forall_cons in Hrng as Hrng'. destruct Hrng' as [Hargi Hbelow].
  destruct (visit_top_total flag ecs argi Hfl Hel Hargi) as [v Hv]. rewrite Hv.
  pose proof (visit_top_next _ _ _ _ _ Hv) as Hnext.
  pose proof (visit_top_inv _ _ _ _ _ Hinv Hv) as Hinv'.
  destruct v as [s ecs1|ecs1].
  - destruct Hnext as [Hs Hl1].
    apply IH; [done | | by split | simpl in *; lia | intros _; simpl in *; lia].
    apply Forall_cons; split; [|done].
    apply next_ref_Some in Hs as [_ Hs]. apply vec_at_in_range in Hs.
    unfold in_range, vec_size in *. lia.
  - destruct Hnext as [Hnone Hl1]. destruct Hinv' as [Hinv1 Hsucc].
    destruct (vec_upd_cases flag argi (λ _, true)) as [(b & Hb & Hf)|[Hu _]]; cycle 1.
    { destruct (vec_at_is_Done flag argi) as [? ?]; [|congruence].
      unfold in_range, vec_size in *. lia. }
    rewrite Hf.
    destruct (vec_upd_cases ecs1 argi (λ e, e ∪ {[argi]})) as [(a & Ha & He)|[Hu _]]; cycle 1.
    { destruct (vec_at_is_Done ecs1 argi) as [? ?]; [|congruence].
      unfold in_range, vec_size in *. lia. }
    rewrite He.
    destruct (finish_inv _ _ _ _ _ _ Hinv1 Hsucc Hf He) as (Hinv2 & _ & _).
    apply IH; [done | done | | simpl in *; lia |].
    + apply chain_pop; [done..|]. unfold in_range in Hargi. lia.
    + intros Hne. pose proof (chain_unflagged _ _ _ _ Hch Hne) as Hun.
      pose proof (todo_insert _ _ Hun) as Htodo. simpl in *. nia.
Qed.

Lemma closure_for_total idx : ∀ flag ecs,
  closure_inv nss flag ecs →
  Forall (λ i, i < length nss)%nat idx →
  (∃ flag' ecs', closure_for nss idx flag ecs = (Done flag', ecs')) ∨
  (∃ ecs', closure_for nss idx flag ecs = (Throw, ecs') ∧ eps_cycle nss).
Proof.
  induction idx as [|i idx IH]; intros flag ecs Hinv Hidx; [left; by eexists _, _ |].
  apply Forall_cons in Hidx as [Hi Hidx]. cbn [closure_for].
  pose proof (ci_flag_len _ _ _ Hinv) as Hfl.
  pose proof (ci_ecs_len _ _ _ Hinv) as Hel.
  destruct (closure_while_total (closure_fuel (length ecs)) flag ecs [Z.of_nat i])
    as [(flag1 & ecs1 & Hw)|(ecs1 & Hw & ?)]; [done | | done | simpl; lia | | |].
  - apply Forall_singleton. unfold in_range, vec_size. lia.
  - intros _. pose proof (todo_le flag). unfold closure_fuel. simpl. nia.
  - rewrite Hw. apply closure_while_inv in Hw as (Hinv1 & _); [|done].
    by apply IH.
  - right. exists ecs1. by rewrite Hw.
Qed.

(** The pass ends, with the closure table or with the exception. *)
Lemma closures_total :
  (∃ ecs, calculate_epsilon_closures nss (replicate (length nss) ∅) = (Done tt, ecs)) ∨
  (∃ ecs, calculate_epsilon_closures nss (replicate (length nss) ∅) = (Throw, ecs) ∧
          eps_cycle nss).
Proof.
  unfold calculate_epsilon_closures.
  destruct (closure_for_total (seq 0 (length nss))
              (replicate (length nss) false) (replicate (length nss) ∅))
    as [(flag1 & ecs1 & H)|(ecs1 & H & ?)].
  - apply closure_inv_init.
  - apply Forall_forall. intros i Hi%elem_of_seq. lia.
  - left. rewrite H. by eexists.
  - right. rewrite H. by eexists.
Qed.
End closure_total.

(** ** Counting sets of states *)

Lemma length_bool_lists n : length (bool_lists n) = (2 ^ n)%nat.
Proof.
  induction n as [|n IH]; [done |].
  cbn [bool_lists]. rewrite length_app, !length_fmap, IH. simpl. lia.
Qed.

Lemma elem_of_bool_lists (l : list bool) : l ∈ bool_lists (length l).
Proof.
  induction l as [|b l IH]; [by apply list_elem_of_singleton |].
  cbn [length bool_lists]. apply elem_of_app.
  destruct b; [left | right]; by apply list_elem_of_fmap_2.
Qed.

Lemma length_chi n s : length (chi n s) = n.
Proof. unfold chi. by rewrite length_fmap, length_seq. Qed.

Lemma chi_inj n (s t : gset Z) :
  (∀ j, j ∈ s → 0 ≤ j < Z.of_nat n) → (∀ j, j ∈ t → 0 ≤ j < Z.of_nat n) →
  chi n s = chi n t → s = t.
Proof.
  intros Hs Ht Heq. apply set_eq. intros j.
  assert (∀ i : nat, (i < n)%nat → Z.of_nat i ∈ s ↔ Z.of_nat i ∈ t) as Hbits.
  { intros i Hi.
    assert (chi n s !! i = chi n t !! i) as Hi' by by rewrite Heq.
    unfold chi in Hi'. rewrite !list_lookup_fmap, !lookup_seq_lt in Hi' by done.
    simpl in Hi'. injection Hi' as Hi'.
    rewrite <- (bool_decide_eq_true (Z.of_nat i ∈ s)).
    rewrite <- (bool_decide_eq_true (Z.of_nat i ∈ t)). by rewrite Hi'. }
  assert (j ∈ s ∨ j ∈ t → ∃ i : nat, j = Z.of_nat i ∧ (i < n)%nat) as Hnat.
  { intros Hj. exists (Z.to_nat j). destruct Hj as [Hj|Hj]; [apply Hs in Hj | apply Ht in Hj]; lia. }
  split; intros Hj.
  - destruct Hnat as (i & -> & Hi); [by left |]. by apply Hbits.
  - destruct Hnat as (i & -> & Hi); [by right |]. by apply Hbits.
Qed.

Lemma subsets_bound n (l : list (gset Z)) :
  NoDup l → Forall (λ s : gset Z, ∀ j, j ∈ s → 0 ≤ j < Z.of_nat n) l →
  (length l ≤ 2 ^ n)%nat.
Proof.
  intros Hnd Hall.
  rewrite <- length_bool_lists, <- (length_fmap (chi n) l).
  apply submseteq_length, NoDup_submseteq.
  - apply NoDup_fmap_2_strong; [|done]. intros s t Hs Ht.
    rewrite Forall_forall in Hall. apply chi_inj; by apply Hall.
  - intros bs (s & -> & _)%list_elem_of_fmap.
    rewrite <- (length_chi n s) at 2. apply elem_of_bool_lists.
Qed.

(** ** Subset construction *)

Lemma sym_edge_rule nss p c q st :
  sym_edge nss p c q → vec_at nss p = Done st → rule st = c ∧ q = (refs st).1.
Proof. intros (st' & Hst' & ? & _ & ?) Hst. by assert (st' = st) as -> by congruence. Qed.

Lemma sym_edge_target nss p c q : states_ok nss → sym_edge nss p c q → in_range nss q.
Proof.
  intros Hok (st & Hst & <- & Hsym & ->).
  apply vec_at_Done in Hst as [_ Hst].
  eapply Forall_lookup_1 in Hok as [_ Hok]; [|done]. by apply Hok.
Qed.

Lemma is_symbol_eqb c :
  (c =? RULE_EPSILON) || (c =? RULE_UNDEFINED) = false ↔ is_symbol c.
Proof. unfold is_symbol. rewrite orb_false_iff, !Z.eqb_neq. done. Qed.

Section subset.
Variable nss : list NFAState.
Variable ecs : list (gset Z).
Hypothesis Hok : states_ok nss.
Hypothesis Hecs : ∀ i, in_range nss i → closure_of nss ecs i.

Lemma add_member_frame chc si n o n' :
  add_member ecs chc si n = (o, n') → n' = n.
Proof.
  unfold add_member, mbind, M_bind, get_state, lift, mret, M_ret.
  destruct (vec_at (vec n) si) as [st| | |]; try by intros [= _ <-].
  destruct (_ || _); [by intros [= _ <-] |].
  destruct (vec_at ecs (refs st).1); by intros [= _ <-].
Qed.

Lemma add_member_step seen chc si n :
  vec n = nss → in_range nss si → chc_spec nss seen chc →
  ∃ chc', add_member ecs chc si n = (Done chc', n) ∧ chc_spec nss (seen ++ [si]) chc'.
Proof.
  intros Hvec Hsi Hspec.
  unfold add_member, mbind, M_bind, get_state, lift, mret, M_ret. rewrite Hvec.
  destruct (vec_at_is_Done nss si Hsi) as [st Hst]. rewrite Hst.
  assert (∀ c, has_symbol nss (seen ++ [si]) c ↔
               has_symbol nss seen c ∨ (rule st = c ∧ is_symbol c)) as Hhas.
  { intros c. unfold has_symbol. split.
    - intros (p & q & [Hp| ->%list_elem_of_singleton]%elem_of_app & He); [left; eauto |].
      right. destruct (sym_edge_rule _ _ _ _ _ He Hst) as [? _].
      destruct He as (? & _ & _ & ? & _). done.
    - intros [(p & q & Hp & He)|[Hr Hs]].
      + exists p, q. split; [|done]. apply elem_of_app. by left.
      + exists si, (refs st).1. split; [apply elem_of_app; right; by left |].
        exists st. done. }
  destruct ((rule st =? RULE_EPSILON) || (rule st =? RULE_UNDEFINED)) eqn:Hsent.
  { exists chc. split; [done |]. intros c. specialize (Hspec c).
    assert (¬ (rule st = c ∧ is_symbol c)) as Hno.
    { intros [<- Hs%is_symbol_eqb]. congruence. }
    destruct (chc !! c) as [t|].
    - destruct Hspec as [Hsome Hmem]. split; [apply Hhas; by left |].
      intros j. rewrite Hmem. split.
      + intros (p & q & Hp & He & Hr). exists p, q. split; [|done]. apply elem_of_app. by left.
      + intros (p & q & [Hp| ->%list_elem_of_singleton]%elem_of_app & He & Hr); [eauto |].
        destruct Hno. destruct (sym_edge_rule _ _ _ _ _ He Hst) as [? _].
        destruct He as (? & _ & _ & ? & _). done.
    - rewrite Hhas. tauto. }
  apply is_symbol_eqb in Hsent.
  assert (in_range nss (refs st).1) as Hq.
  { eapply sym_edge_target; [done |]. exists st. done. }
  destruct (Hecs _ Hq) as (cl & Hcl & Hclm). rewrite Hcl.
  eexists. split; [done |]. intros c.
  destruct (decide (rule st = c)) as [<-|Hne].
  - rewrite lookup_insert_eq. split; [apply Hhas; by right |].
    intros j. rewrite elem_of_union, Hclm. specialize (Hspec (rule st)). split.
    + intros [Hj|Hj].
      * destruct (chc !! rule st) as [t|]; [|set_solver].
        destruct Hspec as [_ Hmem]. apply Hmem in Hj as (p & q & Hp & He & Hr).
        exists p, q. split; [|done]. apply elem_of_app. by left.
      * exists si, (refs st).1. split; [apply elem_of_app; right; by left |].
        split; [|done]. exists st. done.
    + intros (p & q & [Hp| ->%list_elem_of_singleton]%elem_of_app & He & Hr).
      * left. destruct (chc !! rule st) as [t|].
        -- destruct Hspec as [_ Hmem]. apply Hmem. eauto.
        -- destruct Hspec. by exists p, q.
      * right. by destruct (sym_edge_rule _ _ _ _ _ He Hst) as [_ <-].
  - rewrite lookup_insert_ne by done. specialize (Hspec c).
    destruct (chc !! c) as [t|].
    + destruct Hspec as [Hsome Hmem]. split; [apply Hhas; by left |].
      intros j. rewrite Hmem. split.
      * intros (p & q & Hp & He & Hr). exists p, q. split; [|done]. apply elem_of_app. by left.
      * intros (p & q & [Hp| ->%list_elem_of_singleton]%elem_of_app & He & Hr); [eauto |].
        by destruct (sym_edge_rule _ _ _ _ _ He Hst) as [? _].
    + rewrite Hhas. tauto.
Qed.

Lemma for_each_add_member l : ∀ seen chc n,
  vec n = nss → Forall (in_range nss) l → chc_spec nss seen chc →
  ∃ chc', for_each (add_member ecs) l chc n = (Done chc', n) ∧
          chc_spec nss (seen ++ l) chc'.
Proof.
  induction l as [|si l IH]; intros seen chc n Hvec Hl Hspec.
  { exists chc. by rewrite app_nil_r. }
  apply Forall_cons in Hl as [Hsi Hl].
  destruct (add_member_step seen chc si n Hvec Hsi Hspec) as (chc1 & H1 & Hspec1).
  destruct (IH _ _ n Hvec Hl Hspec1) as (chc' & H' & Hspec').
  exists chc'. rewrite <- (assoc_L (++)) in Hspec'. split; [|done].
  cbn [for_each]. unfold mbind, M_bind. by rewrite H1.
Qed.

Lemma for_each_frame l : ∀ chc n o n',
  for_each (add_member ecs) l chc n = (o, n') → n' = n.
Proof.
  induction l as [|si l IH]; intros chc n o n'; [by intros [= _ <-] |].
  cbn [for_each]. unfold mbind, M_bind.
  destruct (add_member ecs chc si n) as [o1 n1] eqn:H1.
  apply add_member_frame in H1 as ->.
  destruct o1; [apply IH | by intros [= _ <-]..].
Qed.

(** The map built for one DFA state. *)
Lemma ch_closures_spec (s : gset Z) n :
  vec n = nss → good_set nss s →
  ∃ chc, for_each (add_member ecs) (set_iter s) ∅ n = (Done chc, n) ∧
    ∀ c t, chc !! c = Some t →
           good_set nss t ∧ has_symbol nss (elements s) c ∧
           ∀ j, j ∈ t ↔ move_to nss s c j.
Proof.
  intros Hvec [Hrng Hclosed].
  destruct (for_each_add_member (set_iter s) [] ∅ n) as (chc & H & Hspec); [done | | |].
  { apply Forall_forall. intros x Hx%elem_of_set_iter. by apply Hrng. }
  { intros c. rewrite lookup_empty. intros (p & q & Hp & _). by apply elem_of_nil in Hp. }
  exists chc. split; [done |]. intros c t Ht. specialize (Hspec c). rewrite Ht in Hspec.
  destruct Hspec as [Hhas Hmem].
  assert (∀ j, j ∈ t ↔ move_to nss s c j) as Hmove.
  { intros j. rewrite Hmem. unfold move_to. simpl.
    by setoid_rewrite elem_of_set_iter. }
  split; [|split; [|done]]; cycle 1.
  { destruct Hhas as (p & q & Hp & He). exists p, q. split; [|done].
    simpl in Hp. apply elem_of_set_iter in Hp. by apply elem_of_elements. }
  split.
  - intros j (p & q & Hp & He & Hr)%Hmove.
    eapply eps_reach_in_range; [done | by eapply sym_edge_target | done].
  - intros j k (p & q & Hp & He & Hr)%Hmove Hjk. apply Hmove.
    exists p, q. split_and!; [done..|]. by etrans.
Qed.

Lemma ch_closures_complete (s : gset Z) n chc c :
  vec n = nss → good_set nss s →
  for_each (add_member ecs) (set_iter s) ∅ n = (Done chc, n) →
  has_symbol nss (elements s) c → is_Some (chc !! c).
Proof.
  intros Hvec [Hrng Hclosed] H Hhas.
  destruct (for_each_add_member (set_iter s) [] ∅ n) as (chc' & H' & Hspec); [done | | |].
  { apply Forall_forall. intros x Hx%elem_of_set_iter. by apply Hrng. }
  { intros c'. rewrite lookup_empty. intros (p & q & Hp & _). by apply elem_of_nil in Hp. }
  assert (chc' = chc) as -> by congruence.
  specialize (Hspec c). destruct (chc !! c); [done |]. destruct Hspec.
  destruct Hhas as (p & q & Hp & He). exists p, q. split; [|done].
  simpl. apply elem_of_set_iter. by apply elem_of_elements.
Qed.
End subset.

Lemma find_state_Some x (ds : list (gset Z)) i : find_state x ds = Some i → ds !! i = Some x.
Proof.
  unfold find_state. intros H. apply fmap_Some in H as ([k y] & H & ->).
  by apply list_find_Some in H as (? & -> & _).
Qed.

Lemma find_state_None x (ds : list (gset Z)) : find_state x ds = None → x ∉ ds.
Proof.
  unfold find_state. intros H. apply fmap_None in H.
  apply list_find_None in H. rewrite Forall_forall in H. intros Hx. by apply (H x).
Qed.

Lemma find_state_elem x (ds : list (gset Z)) : x ∈ ds → is_Some (find_state x ds).
Proof.
  intros Hx. destruct (find_state x ds) eqn:E; [done |].
  by apply find_state_None in E.
Qed.

Section tables.
Variable nss : list NFAState.
Variable ecs : list (gset Z).
Hypothesis Hok : states_ok nss.
Hypothesis Hecs : ∀ i, in_range nss i → closure_of nss ecs i.

Lemma record_ok_prefix ds ds' r :
  ds `prefix_of` ds' → record_ok nss ds r → record_ok nss ds' r.
Proof.
  intros Hpre (i & k & s & t & ? & ? & Hs & Ht & ? & ?).
  exists i, k, s, t. split_and!; [done.. | | | done | done]; by eapply prefix_lookup_Some.
Qed.

Lemma index_closure_step dsi s ds recs c t :
  NoDup ds → Forall (good_set nss) ds → Forall (record_ok nss ds) recs →
  ds !! dsi = Some s → good_set nss t → has_symbol nss (elements s) c →
  (∀ j, j ∈ t ↔ move_to nss s c j) →
  ∃ ds' to,
    index_closure dsi (ds, recs) (c, t) = (ds', recs ++ [mkRec (Z.of_nat dsi) c to]) ∧
    NoDup ds' ∧ Forall (good_set nss) ds' ∧
    Forall (record_ok nss ds') (recs ++ [mkRec (Z.of_nat dsi) c to]) ∧
    ds `prefix_of` ds'.
Proof.
  intros Hnd Hgood Hrecs Hs Ht Hhas Hmove. unfold index_closure. simpl.
  destruct (find_state t ds) as [i|] eqn:Hfind.
  - apply find_state_Some in Hfind. exists ds, (Z.of_nat i).
    split_and!; [done..| |done].
    apply Forall_app. split; [done |]. apply Forall_singleton.
    exists dsi, i, s, t. done.
  - apply find_state_None in Hfind. exists (ds ++ [t]), (vec_size ds).
    assert (ds `prefix_of` ds ++ [t]) as Hpre by by apply prefix_app_r.
    split_and!; [done | | | | done].
    + apply NoDup_app. split_and!; [done | | apply NoDup_singleton].
      intros x Hx ->%list_elem_of_singleton. done.
    + apply Forall_app. split; [done |]. by apply Forall_singleton.
    + apply Forall_app. split.
      * eapply Forall_impl; [done |]. intros r. by apply record_ok_prefix.
      * apply Forall_singleton. exists dsi, (length ds), s, t.
        split_and!; [done | done | | | done | done].
        -- by eapply prefix_lookup_Some.
        -- by rewrite lookup_app_r, Nat.sub_diag.
Qed.

Lemma index_closure_fold dsi s entries : ∀ ds recs,
  NoDup ds → Forall (good_set nss) ds → Forall (record_ok nss ds) recs →
  ds !! dsi = Some s →
  (∀ c t, (c, t) ∈ entries →
          good_set nss t ∧ has_symbol nss (elements s) c ∧
          ∀ j, j ∈ t ↔ move_to nss s c j) →
  ∃ ds' recs',
    foldl (index_closure dsi) (ds, recs) entries = (ds', recs') ∧
    NoDup ds' ∧ Forall (good_set nss) ds' ∧ Forall (record_ok nss ds') recs' ∧
    ds `prefix_of` ds' ∧ recs ⊆ recs' ∧
    ∀ c t, (c, t) ∈ entries → ∃ to, mkRec (Z.of_nat dsi) c to ∈ recs'.
Proof.
  induction entries as [|[c t] entries IH]; intros ds recs Hnd Hgood Hrecs Hs Hent.
  { exists ds, recs. split_and!; [done..|]. intros c t Hin. by apply elem_of_nil in Hin. }
  destruct (Hent c t) as (Ht & Hhas & Hmove); [by left |].
  destruct (index_closure_step dsi s ds recs c t) as (ds1 & to & H1 & Hnd1 & Hgood1 & Hrecs1 & Hpre1);
    [done..|].
  destruct (IH ds1 (recs ++ [mkRec (Z.of_nat dsi) c to])) as
    (ds' & recs' & H' & Hnd' & Hgood' & Hrecs' & Hpre' & Hsub' & Hall'); [done..| | |].
  { by eapply prefix_lookup_Some. }
  { intros c' t' Hin. apply Hent. by right. }
  exists ds', recs'. cbn [foldl]. rewrite H1.
  split_and!; [done..| by etrans | set_solver |].
  intros c' t' [[= -> ->]|Hin]%elem_of_cons; [|by eauto].
  exists to. apply Hsub'. apply elem_of_app. right. by left.
Qed.

Lemma subset_for_frame fuel : ∀ dsi ds recs n o n',
  subset_for fuel ecs dsi ds recs n = (o, n') → n' = n.
Proof.
  induction fuel as [|fuel IH]; intros dsi ds recs n o n'; cbn [subset_for].
  { destruct (ds !! dsi); by intros [= _ <-]. }
  destruct (ds !! dsi) as [s|]; [|by intros [= _ <-]].
  unfold mbind, M_bind.
  destruct (for_each (add_member ecs) (set_iter s) ∅ n) as [o1 n1] eqn:H1.
  apply for_each_frame in H1 as ->.
  destruct o1 as [chc| | |]; [|by intros [= _ <-]..].
  destruct (foldl _ _ _) as [ds1 recs1]. apply IH.
Qed.

Lemma tables_bound dsi ds recs :
  tables_inv nss dsi ds recs → (length ds ≤ 2 ^ length nss)%nat.
Proof.
  intros [Hnd Hgood _ _]. apply subsets_bound; [done |].
  eapply Forall_impl; [done |]. intros s [Hrng _] j Hj. by apply Hrng.
Qed.

Lemma subset_for_spec fuel : ∀ dsi ds recs n,
  vec n = nss → tables_inv nss dsi ds recs →
  (dsi ≤ length ds)%nat → (2 ^ length nss + 1 ≤ fuel + dsi)%nat →
  ∃ ds' recs',
    subset_for fuel ecs dsi ds recs n = (Done (ds', recs'), n) ∧
    tables_inv nss (length ds') ds' recs' ∧ ds `prefix_of` ds'.
Proof.
  induction fuel as [|fuel IH]; intros dsi ds recs n Hvec Hinv Hdsi Hfuel.
  { pose proof (tables_bound _ _ _ Hinv). assert (dsi = length ds) as -> by lia.
    cbn [subset_for]. rewrite lookup_ge_None_2 by done. by exists ds, recs. }
  cbn [subset_for]. destruct (ds !! dsi) as [s|] eqn:Hs; cycle 1.
  { apply lookup_ge_None in Hs. assert (dsi = length ds) as -> by lia.
    by exists ds, recs. }
  pose proof (tables_bound _ _ _ Hinv) as Hbound.
  apply lookup_lt_Some in Hs as Hlt.
  destruct Hinv as [Hnd Hgood Hrecs Hcompl].
  assert (good_set nss s) as Hgs.
  { rewrite Forall_forall in Hgood. apply Hgood. by eapply list_elem_of_lookup_2. }
  destruct (ch_closures_spec nss ecs Hok Hecs s n Hvec Hgs) as (chc & Hchc & Hent).
  unfold mbind, M_bind. rewrite Hchc.
  destruct (index_closure_fold dsi s (map_iter chc) ds recs) as
    (ds1 & recs1 & Hfold & Hnd1 & Hgood1 & Hrecs1 & Hpre1 & Hsub1 & Hall1); [done..| |].
  { intros c t Hin%elem_of_map_iter. by apply Hent. }
  rewrite Hfold.
  destruct (IH (S dsi) ds1 recs1 n) as (ds' & recs' & H' & Hinv' & Hpre'); [done | | | lia |].
  - constructor; [done..|]. intros i s' c Hi Hs' Hhas.
    destruct (decide (i = dsi)) as [->|Hne].
    + assert (s' = s) as ->.
      { eapply prefix_lookup_Some in Hs; [|done]. congruence. }
      destruct (ch_closures_complete nss ecs Hok Hecs s n chc c) as [t Ht]; [done..|].
      apply (Hall1 c t), elem_of_map_iter. done.
    + assert (i < dsi)%nat as Hi' by lia.
      destruct (lookup_lt_is_Some_2 ds i) as [s0 Hs0]; [lia |].
      assert (s0 = s') as ->.
      { eapply prefix_lookup_Some in Hs0; [|done]. congruence. }
      destruct (Hcompl i s' c Hi' Hs0 Hhas) as [to Hto]. exists to. by apply Hsub1.
  - apply prefix_length in Hpre1. lia.
  - exists ds', recs'. split_and!; [done..|]. by etrans.
Qed.
End tables.

(** ** Building the result *)

Lemma length_mark_end e ds d : length (mark_end e ds d) = length d.
Proof. unfold mark_end. by rewrite length_imap. Qed.

Lemma lookup_mark_end e ds d (i : nat) st :
  d !! i = Some st →
  mark_end e ds d !! i =
    Some {| is_end := bool_decide (e ∈ default ∅ (ds !! i)); drefs := drefs st |}.
Proof. intros Hi. unfold mark_end. by rewrite list_lookup_imap, Hi. Qed.

Lemma lookup_DFA_new size (i : nat) :
  (i < size)%nat → DFA_new size !! i = Some {| is_end := false; drefs := ∅ |}.
Proof. intros Hi. unfold DFA_new. by apply lookup_replicate_2. Qed.

Lemma emplace_lookup c to m c' :
  emplace c to m !! c' =
    match m !! c' with
    | Some x => Some x
    | None => if decide (c = c') then Some to else None
    end.
Proof.
  unfold emplace. destruct (m !! c) eqn:Hc.
  - destruct (m !! c') eqn:Hc'; [done |]. case_decide; congruence.
  - rewrite lookup_insert. case_decide; [subst; by rewrite Hc |].
    by destruct (m !! c').
Qed.

Lemma add_records_spec recs : ∀ d,
  Forall (λ r, 0 ≤ rec_from r < vec_size d) recs →
  ∃ d', add_records d recs = Done d' ∧ length d' = length d ∧
        ∀ (i : nat) st, d !! i = Some st → ∃ st', d' !! i = Some st' ∧ refs_from recs i st st'.
Proof.
  induction recs as [|r recs IH]; intros d Hall.
  { exists d. split_and!; [done..|]. intros i st Hi. exists st. split; [done |].
    unfold refs_from. split_and!; [done | by left |]. intros c [?|[to Hto]]; [done |]. by apply elem_of_nil in Hto. }
  apply Forall_cons in Hall as [Hr Hall]. cbn [add_records]. unfold add_record.
  destruct (vec_upd_cases d (rec_from r)
    (λ st, {| is_end := is_end st; drefs := emplace (rec_rule r) (rec_to r) (drefs st) |}))
    as [(x & Hx & ->)|[Hu _]]; cycle 1.
  { destruct (vec_at_is_Done d (rec_from r)) as [? ?]; [done | congruence]. }
  simpl. set (d1 := <[_ := _]> d).
  destruct (IH d1) as (d' & -> & Hlen & Hst).
  { unfold d1. by rewrite vec_size_insert. }
  exists d'. split_and!; [done | by rewrite Hlen; apply length_insert |].
  intros i st Hi. unfold refs_from in *.
  apply vec_at_Done in Hx as [Hx0 Hx].
  destruct (decide (i = Z.to_nat (rec_from r))) as [->|Hne].
  - assert (x = st) as -> by congruence.
    destruct (Hst (Z.to_nat (rec_from r))
      {| is_end := is_end st; drefs := emplace (rec_rule r) (rec_to r) (drefs st) |})
      as (st' & Hst' & Hend & Hsome & Hdom).
    { unfold d1. apply list_lookup_insert_eq. by eapply lookup_lt_Some. }
    exists st'. split; [done |]. simpl in *. split_and!; [done | |].
    + intros c to Hc. destruct (Hsome c to Hc) as [Hc'|Hc']; [|right; by right].
      rewrite emplace_lookup in Hc'. destruct (drefs st !! c); [by left |].
      case_decide; [|done]. injection Hc' as <-. subst c. right.
      apply elem_of_cons. left. destruct r; simpl in *. f_equal. lia.
    + intros c Hc. apply Hdom. rewrite emplace_lookup.
      destruct Hc as [[y Hy]|[to Hto]]; [rewrite Hy; by left |].
      apply elem_of_cons in Hto as [Hto|Hto]; [|right; eauto].
      left. apply (f_equal rec_rule) in Hto. simpl in Hto.
      destruct (drefs st !! c); [done |]. by rewrite decide_True.
  - destruct (Hst i st) as (st' & Hst' & Hend & Hsome & Hdom).
    { unfold d1. by rewrite list_lookup_insert_ne. }
    exists st'. split; [done |]. split_and!; [done | |].
    + intros c to Hc. destruct (Hsome c to Hc) as [Hc'|Hc']; [by left | right; by right].
    + intros c Hc. apply Hdom. destruct Hc as [?|[to Hto]]; [by left |].
      apply elem_of_cons in Hto as [Hto|Hto]; [|right; eauto].
      apply (f_equal rec_from) in Hto. simpl in Hto. lia.
Qed.

(** ** Paths of the automaton *)

Section paths.
Variable nss : list NFAState.

Lemma nfa_path_reach p q w r :
  eps_reach nss p q → nfa_path nss q w r → nfa_path nss p w r.
Proof. intros Hpq Hq. induction Hpq; [done |]. eapply path_eps; eauto. Qed.

Lemma nfa_path_nil p r : nfa_path nss p [] r ↔ eps_reach nss p r.
Proof.
  split.
  - intros H. remember [] as w eqn:Hw.
    induction H as [|p q w r He _ IH|]; [apply rtc_refl | | done].
    eapply rtc_l; [done |]. by apply IH.
  - intros H. eapply nfa_path_reach; [done | constructor].
Qed.

Lemma nfa_path_cons p c w r :
  nfa_path nss p (c :: w) r ↔
  ∃ si q, eps_reach nss p si ∧ sym_edge nss si c q ∧ nfa_path nss q w r.
Proof.
  split.
  - intros H. remember (c :: w) as cw eqn:Hcw. induction H as [|p q w' r He _ IH|].
    + done.
    + destruct (IH Hcw) as (si & q' & ? & ? & ?). exists si, q'.
      split_and!; [|done..]. by eapply rtc_l.
    + injection Hcw as -> ->. eexists _, _. split_and!; [apply rtc_refl | done..].
  - intros (si & q & Hr & He & Hp). eapply nfa_path_reach; [done |].
    by eapply path_sym.
Qed.
End paths.

Lemma build_dfa_spec ds recs e :
  Forall (λ r, 0 ≤ rec_from r < vec_size ds) recs →
  ∃ d, add_records (mark_end e ds (DFA_new (length ds))) recs = Done d ∧
       dfa_of ds recs e d.
Proof.
  intros Hall.
  destruct (add_records_spec recs (mark_end e ds (DFA_new (length ds)))) as (d & Hd & Hlen & Hst).
  { unfold vec_size, DFA_new in *. by rewrite length_mark_end, length_replicate. }
  exists d. split; [done |]. split.
  { unfold DFA_new in Hlen. by rewrite Hlen, length_mark_end, length_replicate. }
  intros i s Hs. apply lookup_lt_Some in Hs as Hi.
  destruct (Hst i {| is_end := bool_decide (e ∈ s); drefs := ∅ |}) as (st & Hi' & Hend & Hsome & Hdom).
  { erewrite lookup_mark_end; [|by apply lookup_DFA_new]. by rewrite Hs. }
  exists st. simpl in *. split_and!; [done..| |].
  - intros c to Hc. by destruct (Hsome c to Hc) as [?|?].
  - intros c to Hc. apply Hdom. right. by exists to.
Qed.

(** ** The language of the result *)

Section language.
Variable nss : list NFAState.
Variables (ds : list (gset Z)) (recs : list DFARefRecord) (e : Z) (d : DFA).
Hypothesis Hinv : tables_inv nss (length ds) ds recs.
Hypothesis Hd : dfa_of ds recs e d.

Lemma record_from (i : nat) c to s :
  mkRec (Z.of_nat i) c to ∈ recs → ds !! i = Some s →
  ∃ (k : nat) t, to = Z.of_nat k ∧ ds !! k = Some t ∧ ∀ j, j ∈ t ↔ move_to nss s c j.
Proof.
  intros Hin Hs. pose proof (ti_recs _ _ _ _ Hinv) as Hrecs.
  rewrite Forall_forall in Hrecs.
  destruct (Hrecs _ Hin) as (i' & k & s' & t & Hi' & Hk & Hs' & Ht & _ & Hmove). simpl in *.
  assert (i' = i) as -> by lia. assert (s' = s) as -> by congruence.
  by exists k, t.
Qed.

Lemma dfa_run_correct w : ∀ (i : nat) s,
  ds !! i = Some s →
  dfa_run d (Z.of_nat i) w = true ↔ ∃ p, p ∈ s ∧ nfa_path nss p w e.
Proof.
  pose proof (ti_good _ _ _ _ Hinv) as Hgood. rewrite Forall_forall in Hgood.
  induction w as [|c w IH]; intros i s Hs;
    destruct (proj2 Hd i s Hs) as (st & Hst & Hend & Hsome & Hdom);
    destruct (Hgood s) as [_ Hclosed]; try (by eapply list_elem_of_lookup_2).
  - cbn [dfa_run]. rewrite vec_at_nat, Hst. simpl. rewrite Hend, bool_decide_eq_true.
    split.
    + intros He. exists e. split; [done | constructor].
    + intros (p & Hp & Hpath%nfa_path_nil). by eapply Hclosed.
  - cbn [dfa_run]. rewrite vec_at_nat, Hst. simpl. split.
    + destruct (drefs st !! c) as [to|] eqn:Hc; [|done]. intros Hrun.
      destruct (record_from i c to s) as (k & t & -> & Ht & Hmove); [by apply Hsome | done |].
      apply (IH k t Ht) in Hrun as (p & Hp & Hpath).
      apply Hmove in Hp as (si & q & Hsi & He & Hr).
      exists si. split; [done |]. apply nfa_path_cons. exists si, q.
      split_and!; [apply rtc_refl | done |]. by eapply nfa_path_reach.
    + intros (p & Hp & (si & q & Hr & He & Hpath)%nfa_path_cons).
      assert (si ∈ s) as Hsi by by eapply Hclosed.
      destruct (ti_complete _ _ _ _ Hinv i s c) as [to0 Hto0]; [by eapply lookup_lt_Some | done | |].
      { exists si, q. split; [by apply elem_of_elements | done]. }
      destruct (Hdom c to0 Hto0) as [to Hc]. rewrite Hc.
      destruct (record_from i c to s) as (k & t & -> & Ht & Hmove); [by apply Hsome | done |].
      apply (IH k t Ht). exists q. split; [|done].
      apply Hmove. exists si, q. split_and!; [done..|apply rtc_refl].
Qed.
End language.

(** ** The conversion as a whole *)

Lemma dfa_tables_frame n o n' : dfa_tables n = (o, n') → n' = n.
Proof.
  unfold dfa_tables, mbind, M_bind, get_size, get_vec, get_nfa, lift.
  destruct (calculate_epsilon_closures _ _) as [[[]| | |] ecs]; try by intros [= _ <-].
  destruct (vec_at ecs _) as [c0| | |]; try by intros [= _ <-].
  apply subset_for_frame.
Qed.

Lemma dfa_tables_spec n :
  states_ok (vec n) → in_range (vec n) (start (nfa n)) →
  (dfa_tables n = (Throw, n) ∧ eps_cycle (vec n)) ∨
  (∃ ds recs c0,
     dfa_tables n = (Done (ds, recs), n) ∧ ¬ eps_cycle (vec n) ∧
     tables_inv (vec n) (length ds) ds recs ∧
     ds !! 0%nat = Some c0 ∧ ∀ j, j ∈ c0 ↔ eps_reach (vec n) (start (nfa n)) j).
Proof.
  intros Hok Hstart.
  unfold dfa_tables, mbind, M_bind, get_size, get_vec, get_nfa, lift.
  unfold vec_size. rewrite Nat2Z.id.
  destruct (closures_total (vec n) Hok) as [[ecs Hecs]|(ecs & Hthrow & Hcyc)]; cycle 1.
  { left. by rewrite Hthrow. }
  right. rewrite Hecs. apply closures_Done in Hecs as (Hlen & Hacyc & Hcl).
  destruct (Hcl _ Hstart) as (c0 & Hc0 & Hc0m). rewrite Hc0.
  destruct (subset_for_spec (vec n) ecs Hok Hcl (subset_fuel (length (vec n))) 0 [c0] [] n)
    as (ds & recs & H & Hinv & Hpre); [done | | simpl; lia | unfold subset_fuel; lia |].
  { constructor.
    - apply NoDup_singleton.
    - apply Forall_singleton. split.
      + intros j Hj%Hc0m. by eapply eps_reach_in_range.
      + intros j k Hj%Hc0m Hjk. apply Hc0m. by etrans.
    - constructor.
    - intros i s c Hi. lia. }
  exists ds, recs, c0. split_and!; [done..| |done].
  by apply (prefix_lookup_Some [c0]).
Qed.

Lemma tables_recs_range nss dsi ds recs :
  tables_inv nss dsi ds recs → Forall (λ r, 0 ≤ rec_from r < vec_size ds) recs.
Proof.
  intros Hinv. eapply Forall_impl; [apply (ti_recs _ _ _ _ Hinv) |].
  intros r (i & k & s & t & -> & _ & Hs%lookup_lt_Some & _). unfold vec_size. lia.
Qed.

Lemma nfa2dfa_frame n o n' : nfa2dfa n = (o, n') → n' = n.
Proof.
  unfold nfa2dfa, mbind, M_bind.
  destruct (dfa_tables n) as [o1 n1] eqn:H1. apply dfa_tables_frame in H1 as ->.
  destruct o1 as [[ds recs]| | |]; by intros [= _ <-].
Qed.

(** The conversion ends: with the exception when the automaton has an
    epsilon cycle, and otherwise with a DFA for the tables it has built. *)
Lemma nfa2dfa_spec n :
  states_ok (vec n) → in_range (vec n) (start (nfa n)) →
  (nfa2dfa n = (Throw, n) ∧ eps_cycle (vec n)) ∨
  (∃ d ds recs c0,
     nfa2dfa n = (Done d, n) ∧ dfa_tables n = (Done (ds, recs), n) ∧
     ¬ eps_cycle (vec n) ∧
     tables_inv (vec n) (length ds) ds recs ∧ dfa_of ds recs (end_ (nfa n)) d ∧
     ds !! 0%nat = Some c0 ∧ ∀ j, j ∈ c0 ↔ eps_reach (vec n) (start (nfa n)) j).
Proof.
  intros Hok Hstart. unfold nfa2dfa, mbind, M_bind.
  destruct (dfa_tables_spec n Hok Hstart) as [[-> ?]|(ds & recs & c0 & Ht & ? & Hinv & ? & ?)];
    [by left | right].
  rewrite Ht. unfold get_nfa, lift.
  destruct (build_dfa_spec ds recs (end_ (nfa n))) as (d & -> & Hd).
  { by eapply tables_recs_range. }
  by exists d, ds, recs, c0.
Qed.

Lemma nfa2dfa_language n d w :
  states_ok (vec n) → in_range (vec n) (start (nfa n)) →
  nfa2dfa n = (Done d, n) →
  dfa_accepts d w = true ↔ nfa_accepts n w.
Proof.
  intros Hok Hstart H.
  destruct (nfa2dfa_spec n Hok Hstart) as [[H' _]|(d' & ds & recs & c0 & H' & _ & _ & Hinv & Hd & H0 & Hc0)];
    [congruence |].
  assert (d' = d) as -> by congruence.
  unfold dfa_accepts, nfa_accepts.
  rewrite (dfa_run_correct (vec n) ds recs (end_ (nfa n)) d Hinv Hd w 0%nat c0 H0).
  split.
  - intros (p & Hp%Hc0 & Hpath). by eapply nfa_path_reach.
  - intros Hpath. exists (start (nfa n)). split; [|done]. apply Hc0, rtc_refl.
Qed.

(** ** The fragment algebra *)

Lemma vec_upd_alter {A} (v : list A) i f :
  0 ≤ i < vec_size v → vec_upd v i f = Done (alter f (Z.to_nat i) v).
Proof.
  intros Hi. destruct (vec_upd_cases v i f) as [(x & Hx & ->)|[Hu _]].
  - apply vec_at_Done in Hx as [_ Hx]. f_equal. apply list_eq. intros k.
    destruct (decide (k = Z.to_nat i)) as [->|Hne].
    + rewrite list_lookup_insert_eq by by eapply lookup_lt_Some.
      by rewrite list_lookup_alter_eq, Hx.
    + by rewrite list_lookup_insert_ne, list_lookup_alter_ne.
  - destruct (vec_at_is_Done v i Hi) as [? ?]. congruence.
Qed.

Lemma vec_upd_Undef {A} (v : list A) i f :
  ¬ (0 ≤ i < vec_size v) → vec_upd v i f = Undef.
Proof.
  intros Hi. destruct (vec_upd_cases v i f) as [(x & Hx & _)|[_ ->]]; [|done].
  by apply vec_at_in_range in Hx.
Qed.

Lemma upd_state_run i f n :
  in_range (vec n) i →
  upd_state i f n = (Done tt, {| nfa := nfa n; vec := alter f (Z.to_nat i) (vec n) |}).
Proof. intros Hi. unfold upd_state. by rewrite vec_upd_alter. Qed.

Lemma upd_state_fail i f n : ¬ in_range (vec n) i → upd_state i f n = (Undef, n).
Proof. intros Hi. unfold upd_state. by rewrite vec_upd_Undef. Qed.

Lemma vec_size_app {A} (v w : list A) : vec_size (v ++ w) = vec_size v + vec_size w.
Proof. unfold vec_size. rewrite length_app. lia. Qed.

Lemma vec_size_alter {A} (f : A → A) k (v : list A) : vec_size (alter f k v) = vec_size v.
Proof. unfold vec_size. by rewrite length_alter. Qed.

Lemma vec_size_nonneg {A} (v : list A) : 0 ≤ vec_size v.
Proof. unfold vec_size. lia. Qed.

Ltac size_solve :=
  unfold frag_ok, in_range in *; cbn [vec nfa start end_] in *;
  rewrite ?vec_size_alter, ?vec_size_app in *;
  change (vec_size [NFAState_new]) with 1 in *;
  lia.

Ltac run_prims :=
  unfold set_rule, set_first, set_second, mbind, M_bind, mret, M_ret,
    get_size, set_nfa, push_back, get_nfa;
  cbn [vec nfa start end_];
  repeat (rewrite upd_state_run by size_solve; cbn [vec nfa start end_]).

Lemma ch_run c n :
  ch c n =
  (Done {| start := vec_size (vec n); end_ := vec_size (vec n) + 1 |},
   {| nfa := {| start := vec_size (vec n); end_ := vec_size (vec n) + 1 |};
      vec := vec n ++ [ {| rule := c; refs := (vec_size (vec n) + 1, REF_UNDEFINED) |};
                        NFAState_new ] |}).
Proof.
  pose proof (vec_size_nonneg (vec n)).
  unfold ch. run_prims. do 2 f_equal.
  unfold vec_size. rewrite Nat2Z.id, <- (assoc_L (++)). simpl.
  rewrite <- (Nat.add_0_r (length (vec n))), !alter_app_r. done.
Qed.

Lemma node_ok_mono size size' st : size ≤ size' → node_ok size st → node_ok size' st.
Proof. unfold node_ok. intros ? (H1 & H2 & H3). split_and!; [lia | lia |]. intros Hs. specialize (H3 Hs). lia. Qed.

Lemma node_ok_new size : node_ok size NFAState_new.
Proof. split_and!; [by left | by left |]. by intros [_ ?]. Qed.

Lemma node_ok_set_rule_eps size st :
  node_ok size st → node_ok size {| rule := RULE_EPSILON; refs := refs st |}.
Proof. intros (H1 & H2 & _). split_and!; [done..|]. by intros [? _]. Qed.

Lemma node_ok_set_first size st r :
  0 ≤ r < size → node_ok size st → node_ok size {| rule := rule st; refs := (r, (refs st).2) |}.
Proof. intros Hr (_ & H2 & _). split_and!; simpl; [by right | done | done]. Qed.

Lemma node_ok_set_second size st r :
  r = REF_UNDEFINED ∨ 0 ≤ r < size →
  node_ok size st → node_ok size {| rule := rule st; refs := ((refs st).1, r) |}.
Proof. intros Hr (H1 & _ & H3). split_and!; simpl; done. Qed.

Lemma arena_ok_app v l :
  arena_ok v → Forall (node_ok (vec_size (v ++ l))) l → arena_ok (v ++ l).
Proof.
  intros Hv Hl. apply Forall_app. split; [|done].
  eapply Forall_impl; [done |]. intros st. apply node_ok_mono.
  rewrite vec_size_app. pose proof (vec_size_nonneg l). lia.
Qed.

Lemma arena_ok_alter f k v :
  arena_ok v → (∀ s, node_ok (vec_size v) s → node_ok (vec_size v) (f s)) →
  arena_ok (alter f k v).
Proof.
  intros Hv Hf. unfold arena_ok. rewrite vec_size_alter.
  apply Forall_alter; [done |]. intros x _. apply Hf.
Qed.

Lemma arena_ok_states_ok nss : arena_ok nss → states_ok nss.
Proof.
  intros H. eapply Forall_impl; [done |]. intros st (H1 & H2 & H3). split; [|done].
  intros _. unfold ref_ok, in_range. done.
Qed.

Ltac arena_solve :=
  repeat (apply arena_ok_alter;
          [|intros ? ?;
            first [ by apply node_ok_set_rule_eps
                  | apply node_ok_set_first; [size_solve | done]
                  | apply node_ok_set_second; [right; size_solve | done] ]]);
  rewrite <- ?(assoc_L (++)); apply arena_ok_app; [done |];
  repeat (apply Forall_cons; split; [apply node_ok_new |]); by apply Forall_nil.

Lemma ch_ok c n :
  arena_ok (vec n) →
  ∃ r n', ch c n = (Done r, n') ∧ nfa n' = r ∧ arena_ok (vec n') ∧ frag_ok n' r ∧
          start r = vec_size (vec n) ∧ vec_size (vec n') = vec_size (vec n) + 2.
Proof.
  intros Hv. pose proof (vec_size_nonneg (vec n)). eexists _, _.
  split; [apply ch_run |]. cbn [vec nfa start end_].
  split; [done |]. split; [|split; [|split; [done |]]].
  - apply arena_ok_app; [done |]. rewrite vec_size_app.
    change (vec_size [_; _]) with 2.
    apply Forall_cons. split; [|apply Forall_singleton, node_ok_new].
    split_and!; simpl; [right; lia | by left | intros _; lia].
  - unfold frag_ok, in_range. cbn [vec nfa start end_]. rewrite vec_size_app.
    change (vec_size [_; _]) with 2. lia.
  - rewrite vec_size_app. done.
Qed.

Lemma link_ok lv rv n :
  arena_ok (vec n) → frag_ok n lv → frag_ok n rv →
  ∃ r n', link lv rv n = (Done r, n') ∧ nfa n' = r ∧ arena_ok (vec n') ∧ frag_ok n' r ∧
          r = {| start := start lv; end_ := end_ rv |} ∧ vec_size (vec n') = vec_size (vec n).
Proof.
  intros Hv Hl Hr. eexists _, _.
  split; [unfold link; run_prims; reflexivity |]. cbn [vec nfa start end_].
  split; [done |]. split; [|split; [size_solve | split; [done | by rewrite ?vec_size_alter]]].
  repeat (apply arena_ok_alter;
          [|intros ? ?;
            first [ by apply node_ok_set_rule_eps
                  | apply node_ok_set_first; [size_solve | done] ]]). done.
Qed.

Lemma select_ok lv rv n :
  arena_ok (vec n) → frag_ok n lv → frag_ok n rv →
  ∃ r n', select lv rv n = (Done r, n') ∧ nfa n' = r ∧ arena_ok (vec n') ∧ frag_ok n' r ∧
          start r = vec_size (vec n) ∧ vec_size (vec n') = vec_size (vec n) + 2.
Proof.
  intros Hv Hl Hr. pose proof (vec_size_nonneg (vec n)). eexists _, _.
  split; [unfold select; run_prims; reflexivity |]. cbn [vec nfa start end_].
  split; [done |]. split; [arena_solve |]. split; [size_solve |]. split; [done |].
  rewrite ?vec_size_alter, ?vec_size_app. change (vec_size [NFAState_new]) with 1. lia.
Qed.

Lemma star_ok v n :
  arena_ok (vec n) → frag_ok n v →
  ∃ r n', star v n = (Done r, n') ∧ nfa n' = r ∧ arena_ok (vec n') ∧ frag_ok n' r ∧
          start r = vec_size (vec n) ∧ vec_size (vec n') = vec_size (vec n) + 2.
Proof.
  intros Hv Hl. pose proof (vec_size_nonneg (vec n)). eexists _, _.
  split; [unfold star; run_prims; reflexivity |]. cbn [vec nfa start end_].
  split; [done |]. split; [arena_solve |]. split; [size_solve |]. split; [done |].
  rewrite ?vec_size_alter, ?vec_size_app. change (vec_size [NFAState_new]) with 1. lia.
Qed.

Lemma question_ok v n :
  arena_ok (vec n) → frag_ok n v →
  ∃ r n', question v n = (Done r, n') ∧ nfa n' = r ∧ arena_ok (vec n') ∧ frag_ok n' r ∧
          start r = vec_size (vec n) ∧ vec_size (vec n') = vec_size (vec n) + 1.
Proof.
  intros Hv Hl. pose proof (vec_size_nonneg (vec n)). eexists _, _.
  split; [unfold question; run_prims; reflexivity |]. cbn [vec nfa start end_].
  split; [done |]. split; [arena_solve |]. split; [size_solve |]. split; [done |].
  rewrite ?vec_size_alter, ?vec_size_app. change (vec_size [NFAState_new]) with 1. lia.
Qed.

Lemma frag_ok_mono n n' r :
  vec_size (vec n) ≤ vec_size (vec n') → frag_ok n r → frag_ok n' r.
Proof. unfold frag_ok, in_range. lia. Qed.

Lemma range_for_ok e fuel : ∀ c ns n r n',
  arena_ok (vec n) → frag_ok n ns → nfa n = ns →
  range_for fuel c e ns n = (Done r, n') →
  arena_ok (vec n') ∧ frag_ok n' r ∧ nfa n' = r.
Proof.
  induction fuel as [|fuel IH]; intros c ns n r n' Hv Hns Hnfa; cbn [range_for];
    (destruct (c <=? e); [|by intros [= <- <-]]); [done |].
  destruct (ch_ok c n Hv) as (r1 & n1 & Hch & Hnfa1 & Hv1 & Hr1 & _ & Hsz1).
  destruct (select_ok ns r1 n1 Hv1) as (r2 & n2 & Hsel & Hnfa2 & Hv2 & Hr2 & _ & Hsz2);
    [eapply frag_ok_mono; [|done]; lia | done |].
  unfold mbind, M_bind. rewrite Hch, Hsel. by apply IH.
Qed.

Lemma one_of_for_ok p : ∀ ns n r n',
  arena_ok (vec n) → frag_ok n ns → nfa n = ns →
  one_of_for p ns n = (Done r, n') →
  arena_ok (vec n') ∧ frag_ok n' r ∧ nfa n' = r.
Proof.
  induction p as [|c p IH]; intros ns n r n' Hv Hns Hnfa; cbn [one_of_for];
    [by intros [= <- <-] |].
  destruct (c =? 0); [by intros [= <- <-] |].
  destruct (ch_ok c n Hv) as (r1 & n1 & Hch & Hnfa1 & Hv1 & Hr1 & _ & Hsz1).
  destruct (select_ok ns r1 n1 Hv1) as (r2 & n2 & Hsel & Hnfa2 & Hv2 & Hr2 & _ & Hsz2);
    [eapply frag_ok_mono; [|done]; lia | done |].
  unfold mbind, M_bind. rewrite Hch, Hsel. by apply IH.
Qed.

Lemma range_ok s e n r n' :
  arena_ok (vec n) → range s e n = (Done r, n') →
  (e < s ∧ r = NFASubsetRef_new ∧ n' = n) ∨
  (s ≤ e ∧ arena_ok (vec n') ∧ frag_ok n' r ∧ nfa n' = r).
Proof.
  intros Hv. unfold range.
  destruct (Z.gtb_spec s e); [intros [= <- <-]; left; by split_and! |].
  right. split; [lia |].
  destruct (ch_ok s n Hv) as (r1 & n1 & Hch & Hnfa1 & Hv1 & Hr1 & _ & Hsz1).
  destruct (s =? e).
  - rewrite Hch in H0. by injection H0 as <- <-.
  - unfold mbind, M_bind in H0. rewrite Hch in H0. by eapply range_for_ok.
Qed.

Lemma one_of_ok l n r n' :
  arena_ok (vec n) → one_of l n = (Done r, n') →
  (r = NFASubsetRef_new ∧ n' = n) ∨
  (arena_ok (vec n') ∧ frag_ok n' r ∧ nfa n' = r).
Proof.
  intros Hv. unfold one_of.
  destruct l as [|c p]; [intros [= <- <-]; by left |].
  destruct (c =? 0); [intros [= <- <-]; by left |].
  right.
  destruct (ch_ok c n Hv) as (r1 & n1 & Hch & Hnfa1 & Hv1 & Hr1 & _ & Hsz1).
  unfold mbind, M_bind in H. rewrite Hch in H. by eapply one_of_for_ok.
Qed.

Lemma nfa_ok_new : nfa_ok NFA_new.
Proof. split; [constructor | by left]. Qed.

Lemma built_nfa_ok n : built n → nfa_ok n.
Proof.
  induction 1 as [|n c r n' _ [Hv _] H|n lv rv r n' _ [Hv _] Hl Hr H
                  |n lv rv r n' _ [Hv _] Hl Hr H|n v r n' _ [Hv _] Hl H
                  |n v r n' _ [Hv _] Hl H|n s e r n' _ [Hv Hn] H|n l r n' _ [Hv Hn] H].
  - apply nfa_ok_new.
  - destruct (ch_ok c n Hv) as (r1 & n1 & Hch & Hnfa1 & Hv1 & Hr1 & _).
    assert (n1 = n') as -> by congruence. split; [done | right; by rewrite Hnfa1].
  - destruct (link_ok lv rv n Hv Hl Hr) as (r1 & n1 & Hch & Hnfa1 & Hv1 & Hr1 & _).
    assert (n1 = n') as -> by congruence. split; [done | right; by rewrite Hnfa1].
  - destruct (select_ok lv rv n Hv Hl Hr) as (r1 & n1 & Hch & Hnfa1 & Hv1 & Hr1 & _).
    assert (n1 = n') as -> by congruence. split; [done | right; by rewrite Hnfa1].
  - destruct (star_ok v n Hv Hl) as (r1 & n1 & Hch & Hnfa1 & Hv1 & Hr1 & _).
    assert (n1 = n') as -> by congruence. split; [done | right; by rewrite Hnfa1].
  - destruct (question_ok v n Hv Hl) as (r1 & n1 & Hch & Hnfa1 & Hv1 & Hr1 & _).
    assert (n1 = n') as -> by congruence. split; [done | right; by rewrite Hnfa1].
  - destruct (range_ok s e n r n' Hv H) as [(_ & _ & ->)|(_ & Hv' & Hr' & Hnfa')]; [done |].
    split; [done | right; by rewrite Hnfa'].
  - destruct (one_of_ok l n r n' Hv H) as [(_ & ->)|(Hv' & Hr' & Hnfa')]; [done |].
    split; [done | right; by rewrite Hnfa'].
Qed.







(** ** Facts about the tables that need no well-formedness *)

Lemma add_records_flags recs : ∀ d d',
  add_records d recs = Done d' →
  length d' = length d ∧
  ∀ (i : nat) st st', d !! i = Some st → d' !! i = Some st' → is_end st' = is_end st.
Proof.
  induction recs as [|r recs IH]; intros d d' H.
  { injection H as <-. split; [done |]. intros i st st' ? ?. congruence. }
  cbn [add_records] in H. apply obind_Done in H as (d1 & H1 & H).
  unfold add_record in H1. apply vec_upd_Done in H1 as (x & Hx & ->).
  apply IH in H as [Hlen Hflags]. rewrite length_insert in Hlen. split; [done |].
  intros i st st' Hi Hi'. apply vec_at_Done in Hx as [_ Hx].
  destruct (decide (i = Z.to_nat (rec_from r))) as [->|Hne].
  - assert (x = st) as -> by congruence.
    erewrite (Hflags _ _ st'); [|by apply list_lookup_insert_eq; eapply lookup_lt_Some|done].
    done.
  - eapply Hflags; [|done]. by rewrite list_lookup_insert_ne.
Qed.

Lemma index_closure_NoDup dsi ds recs cs :
  NoDup ds → NoDup (index_closure dsi (ds, recs) cs).1.
Proof.
  intros Hnd. unfold index_closure. destruct (find_state cs.2 ds) eqn:Hfind; [done |].
  apply find_state_None in Hfind. simpl. apply NoDup_app.
  split_and!; [done | | apply NoDup_singleton].
  intros x Hx ->%list_elem_of_singleton. done.
Qed.

Lemma index_closure_fold_NoDup dsi entries : ∀ acc,
  NoDup acc.1 → NoDup (foldl (index_closure dsi) acc entries).1.
Proof.
  induction entries as [|cs entries IH]; intros [ds recs] Hnd; [done |].
  cbn [foldl]. apply IH. by apply index_closure_NoDup.
Qed.

Lemma subset_for_NoDup ecs fuel : ∀ dsi ds recs n ds' recs' n',
  NoDup ds →
  subset_for fuel ecs dsi ds recs n = (Done (ds', recs'), n') → NoDup ds'.
Proof.
  induction fuel as [|fuel IH]; intros dsi ds recs n ds' recs' n' Hnd; cbn [subset_for].
  { destruct (ds !! dsi); [done | by intros [= <- _ _]]. }
  destruct (ds !! dsi) as [s|]; [|by intros [= <- _ _]].
  intros H. apply mbind_Done in H as (chc & n1 & _ & H).
  destruct (foldl _ _ _) as [ds1 recs1] eqn:Hfold. eapply IH; [|done].
  change ds1 with (ds1, recs1).1. rewrite <- Hfold.
  by apply index_closure_fold_NoDup.
Qed.

Lemma dfa_tables_NoDup n ds recs n' :
  dfa_tables n = (Done (ds, recs), n') → NoDup ds.
Proof.
  unfold dfa_tables. intros H.
  apply mbind_Done in H as (sz & n1 & _ & H).
  apply mbind_Done in H as (v & n2 & _ & H).
  destruct (calculate_epsilon_closures _ _) as [o ecs].
  apply mbind_Done in H as (? & n3 & _ & H).
  apply mbind_Done in H as (r & n4 & _ & H).
  apply mbind_Done in H as (c0 & n5 & _ & H).
  eapply subset_for_NoDup; [|done]. apply NoDup_singleton.
Qed.

(** Members whose rule is a sentinel leave [ch_closures] as it is. *)
Lemma for_each_sentinels ecs l : ∀ chc n,
  Forall (λ si, ∃ st, vec_at (vec n) si = Done st ∧
                      (rule st = RULE_UNDEFINED ∨ rule st = RULE_EPSILON)) l →
  for_each (add_member ecs) l chc n = (Done chc, n).
Proof.
  induction l as [|si l IH]; intros chc n Hall; [done |].
  apply Forall_cons in Hall as [(st & Hst & Hr) Hall].
  cbn [for_each]. unfold mbind, M_bind, add_member at 1, get_state, mbind, M_bind.
  rewrite Hst.
  assert ((rule st =? RULE_EPSILON) || (rule st =? RULE_UNDEFINED) = true) as ->.
  { apply orb_true_iff. rewrite !Z.eqb_eq. tauto. }
  by apply IH.
Qed.

Lemma distinct_members_NoDup (ds : list (gset Z)) : distinct_members ds ↔ NoDup ds.
Proof.
  rewrite NoDup_alt. unfold distinct_members. split.
  - intros H i j s Hi Hj. by eapply H.
  - intros H i j s t Hi Hj Heq. assert (s = t) as -> by by apply set_eq. by eapply H.
Qed.

(** * The claims *)

Lemma built_ex_a : built ex_a.
Proof.
  apply (built_ch NFA_new 97 {| start := 0; end_ := 1 |}); [apply built_new | reflexivity].
Defined.

Lemma built_ex_a_star : built ex_a_star.
Proof.
  apply (built_star ex_a {| start := 0; end_ := 1 |} {| start := 2; end_ := 3 |});
    [apply built_ex_a | split; split; reflexivity || discriminate | reflexivity].
Defined.

(** C1. For every automaton built by calls of the algebra whose stored
    fragment is a fragment of the arena, the conversion ends, either with the
    exception (exactly when the arena has an epsilon cycle) or with a DFA; and
    the DFA returned accepts an input if and only if the NFA accepts it. *)
Theorem nfa2dfa_same_language (n : NFA) :
  built n → nfa n ≠ NFASubsetRef_new →
  (nfa2dfa n = (Throw, n) ∧ eps_cycle (vec n)) ∨
  (∃ d, nfa2dfa n = (Done d, n) ∧ ¬ eps_cycle (vec n) ∧
        ∀ w, dfa_accepts d w = true ↔ nfa_accepts n w).
Proof.
  intros Hb Hne. destruct (built_nfa_ok n Hb) as [Hv [[? _]|[Hstart _]]]; [done |].
  apply arena_ok_states_ok in Hv.
  destruct (nfa2dfa_spec n Hv Hstart) as [?|(d & ds & recs & c0 & Hd & _ & Hacyc & _)];
    [by left | right].
  exists d. split_and!; [done..|]. intros w. by apply nfa2dfa_language.
Qed.

Lemma nfa2dfa_same_language_witness :
  built ex_a_star ∧ nfa ex_a_star ≠ NFASubsetRef_new ∧
  ((nfa2dfa ex_a_star = (Throw, ex_a_star) ∧ eps_cycle (vec ex_a_star)) ∨
   (∃ d, nfa2dfa ex_a_star = (Done d, ex_a_star) ∧ ¬ eps_cycle (vec ex_a_star) ∧
         ∀ w, dfa_accepts d w = true ↔ nfa_accepts ex_a_star w)).
Proof.
  split; [apply built_ex_a_star |]. split; [discriminate |].
  apply (nfa2dfa_same_language ex_a_star); [apply built_ex_a_star | discriminate].
Defined.


Lemma ex_self_loop_ok : states_ok ex_self_loop.
Proof.
  apply Forall_singleton. split.
  - intros _. split; [right | left]; [split; reflexivity || discriminate | reflexivity].
  - intros [H _]. by destruct H.
Defined.




(** C3. When the closure pass completes, the closure it has computed for a
    state [i] of the arena is exactly the set of states that [i] reaches by
    zero or more epsilon transitions, and it contains [i]. *)
Theorem closures_are_reachable_sets (nss : list NFAState) (ecs : list (gset Z)) (i : Z) :
  calculate_epsilon_closures nss (replicate (length nss) ∅) = (Done tt, ecs) →
  in_range nss i →
  ∃ s, vec_at ecs i = Done s ∧ (∀ j, j ∈ s ↔ eps_reach nss i j) ∧ i ∈ s.
Proof.
  intros H Hi. apply closures_Done in H as (_ & _ & Hcl).
  destruct (Hcl i Hi) as (s & Hs & Hmem). exists s. split_and!; [done..|].
  apply Hmem, rtc_refl.
Qed.

Lemma closures_are_reachable_sets_witness :
  calculate_epsilon_closures (vec ex_a_star) (replicate (length (vec ex_a_star)) ∅)
    = (Done tt, ex_a_star_closures) ∧
  in_range (vec ex_a_star) 1 ∧
  ∃ s, vec_at ex_a_star_closures 1 = Done s ∧
       (∀ j, j ∈ s ↔ eps_reach (vec ex_a_star) 1 j) ∧ 1 ∈ s.
Proof.
  assert (calculate_epsilon_closures (vec ex_a_star) (replicate (length (vec ex_a_star)) ∅)
    = (Done tt, ex_a_star_closures)) as H by (vm_compute; reflexivity).
  assert (in_range (vec ex_a_star) 1) as Hi by (split; reflexivity || discriminate).
  split; [exact H |]. split; [exact Hi |].
  exact (closures_are_reachable_sets _ _ 1 H Hi).
Defined.

(** C4, as the code behaves. [range(lo, hi)] with [lo > hi] yields the
    sentinel fragment and leaves the object alone, so converting after such a
    call gives the result of converting before it: the DFA of the fragment
    stored by the previous call, not a DFA of the empty fragment. *)
Theorem range_empty_keeps_automaton (n : NFA) (lo hi : Z) :
  hi < lo →
  range lo hi n = (Done NFASubsetRef_new, n) ∧
  (range lo hi ≫= λ _, nfa2dfa) n = nfa2dfa n.
Proof.
  intros Hlt.
  assert (range lo hi n = (Done NFASubsetRef_new, n)) as H.
  { unfold range. by destruct (Z.gtb_spec lo hi); [|lia]. }
  split; [done |]. unfold mbind, M_bind. by rewrite H.
Qed.

Lemma range_empty_keeps_automaton_witness :
  97 < 99 ∧
  range 99 97 ex_a = (Done NFASubsetRef_new, ex_a) ∧
  (range 99 97 ≫= λ _, nfa2dfa) ex_a = nfa2dfa ex_a.
Proof. split; [lia |]. apply (range_empty_keeps_automaton ex_a 99 97). lia. Defined.

(** C4, as the claim states it, fails: after [ch('a')] the call
    [range('c', 'a')] returns the sentinel, and the conversion that follows
    returns a DFA that accepts the input "a"; on a new object the conversion
    that follows reads the closure table outside its bounds. *)
Lemma range_empty_counterexample :
  built ex_a ∧
  range 99 97 ex_a = (Done NFASubsetRef_new, ex_a) ∧
  (range 99 97 ≫= λ _, nfa2dfa) ex_a = (Done ex_a_dfa, ex_a) ∧
  dfa_accepts ex_a_dfa [97] = true ∧
  (range 99 97 ≫= λ _, nfa2dfa) NFA_new = (Undef, NFA_new).
Proof.
  split; [apply built_ex_a |]. split; [reflexivity |].
  split; [vm_compute; reflexivity |]. split; [vm_compute; reflexivity |].
  vm_compute. reflexivity.
Qed.

(** C5. Distinct member sets are an invariant of the table of DFA states:
    the initial table has it, every lookup-or-append step keeps it, and the
    table that the construction returns has it. When the candidate has the
    members of a state already in the table, the step records the transition
    to the index of that state and appends nothing. *)
Theorem dfa_states_stay_distinct (dsi : nat) (ds : list (gset Z))
    (recs : list DFARefRecord) (c : Z) (t c0 : gset Z)
    (n n' : NFA) (ds' : list (gset Z)) (recs' : list DFARefRecord) :
  distinct_members [c0] ∧
  (distinct_members ds →
   distinct_members (index_closure dsi (ds, recs) (c, t)).1 ∧
   ∀ (i : nat) s, ds !! i = Some s → (∀ x, x ∈ s ↔ x ∈ t) →
     index_closure dsi (ds, recs) (c, t) =
       (ds, recs ++ [mkRec (Z.of_nat dsi) c (Z.of_nat i)])) ∧
  (dfa_tables n = (Done (ds', recs'), n') → distinct_members ds').
Proof.
  split_and!.
  - apply distinct_members_NoDup, NoDup_singleton.
  - intros Hd. split.
    + apply distinct_members_NoDup, index_closure_NoDup. by apply distinct_members_NoDup.
    + intros i s Hi Heq. assert (s = t) as -> by by apply set_eq.
      unfold index_closure. simpl.
      destruct (find_state_elem t ds) as [k Hk]; [by eapply list_elem_of_lookup_2 |].
      rewrite Hk. apply find_state_Some in Hk.
      by rewrite (Hd k i t t Hk Hi).
  - intros H. by eapply distinct_members_NoDup, dfa_tables_NoDup.
Qed.

Lemma dfa_states_stay_distinct_witness :
  distinct_members ex_a_states ∧
  index_closure 0 (ex_a_states, []) (97, {[1]}) = (ex_a_states, ex_a_records) ∧
  (dfa_tables ex_a = (Done (ex_a_states, ex_a_records), ex_a) ∧
   distinct_members ex_a_states).
Proof.
  assert (dfa_tables ex_a = (Done (ex_a_states, ex_a_records), ex_a)) as Ht
    by (vm_compute; reflexivity).
  destruct (dfa_states_stay_distinct 0 ex_a_states [] 97 {[1]} ∅
              ex_a ex_a ex_a_states ex_a_records) as (_ & Hstep & Hfinal).
  pose proof (Hfinal Ht) as Hd. destruct (Hstep Hd) as [_ Hfound].
  split; [exact Hd |]. split; [|split; [exact Ht | exact Hd]].
  apply (Hfound 1%nat {[1]}); [reflexivity | done].
Defined.

(** C6. In the DFA that [nfa2dfa] returns, the accepting flag of a state is
    set if and only if the member set of that state, in the table of DFA
    states that the construction has completed, contains the end state of
    the stored fragment. *)
Theorem accepting_iff_end_member (n n' : NFA) (d : DFA) :
  nfa2dfa n = (Done d, n') →
  ∃ ds recs,
    dfa_tables n = (Done (ds, recs), n) ∧ length d = length ds ∧
    ∀ (i : nat) s, ds !! i = Some s →
      ∃ st, d !! i = Some st ∧ (is_end st = true ↔ end_ (nfa n) ∈ s).
Proof.
  unfold nfa2dfa. intros H.
  apply mbind_Done in H as ([ds recs] & n1 & Ht & H).
  apply dfa_tables_frame in Ht as Hn1. subst n1.
  apply mbind_Done in H as (r & n2 & [= <- <-] & H).
  unfold lift in H. injection H as H _.
  apply add_records_flags in H as [Hlen Hflags].
  unfold DFA_new in Hlen. rewrite length_mark_end, length_replicate in Hlen.
  exists ds, recs. split_and!; [done..|]. intros i s Hs.
  apply lookup_lt_Some in Hs as Hi.
  destruct (lookup_lt_is_Some_2 d i) as [st Hst]; [lia |].
  exists st. split; [done |].
  erewrite (Hflags i _ st); [| |done]; cycle 1.
  { erewrite lookup_mark_end; [done | by apply lookup_DFA_new]. }
  simpl. by rewrite Hs, bool_decide_eq_true.
Qed.

Lemma accepting_iff_end_member_witness :
  ∃ d, nfa2dfa ex_a = (Done d, ex_a) ∧
  ∃ ds recs,
    dfa_tables ex_a = (Done (ds, recs), ex_a) ∧ length d = length ds ∧
    ∀ (i : nat) s, ds !! i = Some s →
      ∃ st, d !! i = Some st ∧ (is_end st = true ↔ end_ (nfa ex_a) ∈ s).
Proof.
  eexists. split; [vm_compute; reflexivity |].
  eapply (accepting_iff_end_member ex_a ex_a). vm_compute. reflexivity.
Defined.

(** C7. [range] with [lo > hi] and [one_of] with an empty list return the
    sentinel fragment and leave the object alone: they do not fail and no
    state is appended. [range] with [lo == hi] is [ch(lo)]. *)
Theorem empty_requests_yield_sentinel (n : NFA) (lo hi c : Z) (l : list Z) :
  (hi < lo → range lo hi n = (Done NFASubsetRef_new, n)) ∧
  one_of [] n = (Done NFASubsetRef_new, n) ∧
  one_of (0 :: l) n = (Done NFASubsetRef_new, n) ∧
  range c c n = ch c n.
Proof.
  split_and!; [|done..|].
  - intros Hlt. unfold range. by destruct (Z.gtb_spec lo hi); [|lia].
  - unfold range. destruct (Z.gtb_spec c c); [lia |]. by rewrite Z.eqb_refl.
Qed.

Lemma empty_requests_yield_sentinel_witness :
  97 < 99 ∧ range 99 97 ex_a = (Done NFASubsetRef_new, ex_a).
Proof.
  split; [lia |].
  apply (proj1 (empty_requests_yield_sentinel ex_a 99 97 0 [])). lia.
Defined.

(** C8. The conversion leaves the object as it found it, whether it returns
    or throws: the arena and the stored fragment after the call are those
    before the call. *)
Theorem nfa2dfa_leaves_nfa (n : NFA) : (nfa2dfa n).2 = n.
Proof. destruct (nfa2dfa n) as [o n'] eqn:H. by apply nfa2dfa_frame in H. Qed.



(** A transition of the result on [c] comes from a member with the symbol [c]. *)
Lemma dfa_transition_symbol n d ds recs (i : nat) s dst c to :
  states_ok (vec n) → in_range (vec n) (start (nfa n)) →
  nfa2dfa n = (Done d, n) → dfa_tables n = (Done (ds, recs), n) →
  ds !! i = Some s → d !! i = Some dst → drefs dst !! c = Some to →
  has_symbol (vec n) (elements s) c.
Proof.
  intros Hok Hstart Hd Ht Hs Hdst Hc.
  destruct (nfa2dfa_spec n Hok Hstart)
    as [[H' _]|(d' & ds' & recs' & c0 & Hd' & Ht' & _ & Hinv & Hdfa & _)]; [congruence |].
  assert (d' = d) as -> by congruence.
  assert (ds' = ds ∧ recs' = recs) as [-> ->] by (split; congruence).
  destruct (proj2 Hdfa i s Hs) as (st & Hst & _ & Hsome & _).
  assert (st = dst) as -> by congruence.
  apply Hsome in Hc. pose proof (ti_recs _ _ _ _ Hinv) as Hrecs.
  rewrite Forall_forall in Hrecs.
  destruct (Hrecs _ Hc) as (i' & k & s' & t & Hi' & _ & Hs' & _ & Hhas & _). simpl in *.
  assert (i' = i) as -> by lia. by assert (s' = s) as -> by congruence.
Qed.

(** C10. A member whose rule is [RULE_UNDEFINED] is skipped like an epsilon
    state when the members are sorted by symbol: visiting it returns the map
    unchanged and is no error. A DFA state whose members all carry a
    sentinel rule therefore has no transition at all: every symbol is
    rejected there. *)
Theorem undefined_members_are_skipped (n : NFA) (ecs : list (gset Z))
    (chc : gmap Z (gset Z)) (si : Z) (st : NFAState) (l : list Z)
    (d : DFA) (ds : list (gset Z)) (recs : list DFARefRecord)
    (i : nat) (s : gset Z) (dst : DFAState) :
  (vec_at (vec n) si = Done st →
   rule st = RULE_UNDEFINED ∨ rule st = RULE_EPSILON →
   add_member ecs chc si n = (Done chc, n)) ∧
  (Forall (λ x, ∃ st', vec_at (vec n) x = Done st' ∧
                       (rule st' = RULE_UNDEFINED ∨ rule st' = RULE_EPSILON)) l →
   for_each (add_member ecs) l ∅ n = (Done ∅, n)) ∧
  (built n → nfa n ≠ NFASubsetRef_new →
   nfa2dfa n = (Done d, n) → dfa_tables n = (Done (ds, recs), n) →
   ds !! i = Some s → d !! i = Some dst →
   (∀ x, x ∈ s → ∃ st', vec_at (vec n) x = Done st' ∧
                        (rule st' = RULE_UNDEFINED ∨ rule st' = RULE_EPSILON)) →
   drefs dst = ∅).
Proof.
  split_and!.
  - intros Hst Hr. unfold add_member, get_state, mbind, M_bind. rewrite Hst.
    assert ((rule st =? RULE_EPSILON) || (rule st =? RULE_UNDEFINED) = true) as ->; [|done].
    apply orb_true_iff. rewrite !Z.eqb_eq. tauto.
  - apply for_each_sentinels.
  - intros Hb Hne Hd Ht Hs Hdst Hall.
    destruct (built_nfa_ok n Hb) as [Hv [[? _]|[Hstart _]]]; [done |].
    apply arena_ok_states_ok in Hv.
    apply map_eq. intros c. rewrite lookup_empty.
    destruct (drefs dst !! c) as [to|] eqn:Hc; [|done].
    destruct (dfa_transition_symbol n d ds recs i s dst c to)
      as (x & q & Hx%elem_of_elements & (st' & Hst' & Hr & [Hs1 Hs2] & _)); [done..|].
    destruct (Hall x Hx) as (st'' & Hst'' & Hsent).
    assert (st'' = st') as -> by congruence. destruct Hsent; congruence.
Qed.

Lemma undefined_members_are_skipped_witness :
  add_member [] ∅ 1 ex_a = (Done ∅, ex_a) ∧
  for_each (add_member []) [1] ∅ ex_a = (Done ∅, ex_a) ∧
  ∃ d dst, nfa2dfa ex_a = (Done d, ex_a) ∧ d !! 1%nat = Some dst ∧ drefs dst = ∅.
Proof.
  assert (nfa2dfa ex_a = (Done ex_a_dfa, ex_a)) as Hd by (vm_compute; reflexivity).
  assert (dfa_tables ex_a = (Done (ex_a_states, ex_a_records), ex_a)) as Ht
    by (vm_compute; reflexivity).
  assert (∀ x : Z, x ∈ ({[1]} : gset Z) → ∃ st', vec_at (vec ex_a) x = Done st' ∧
            (rule st' = RULE_UNDEFINED ∨ rule st' = RULE_EPSILON)) as Hall.
  { intros x ->%elem_of_singleton. exists NFAState_new. split; [reflexivity | by left]. }
  destruct (undefined_members_are_skipped ex_a [] ∅ 1 NFAState_new [1]
              ex_a_dfa ex_a_states ex_a_records 1 {[1]}
              {| is_end := true; drefs := ∅ |}) as (H1 & H2 & H3).
  split; [apply H1; [reflexivity | by left] |].
  split.
  { apply H2, Forall_singleton. exists NFAState_new. split; [reflexivity | by left]. }
  eexists _, _. split; [exact Hd |]. split; [reflexivity |].
  exact (H3 built_ex_a ltac:(discriminate) Hd Ht eq_refl eq_refl Hall).
Defined.

(** * Further properties of the code *)

(** ** The closure pass and epsilon cycles *)

(** On a well-formed arena the closure pass ends, and it throws exactly when
    the arena has an epsilon cycle. *)
Theorem closures_throw_iff_cycle (nss : list NFAState) :
  states_ok nss →
  ((calculate_epsilon_closures nss (replicate (length nss) ∅)).1 = Throw
     ↔ eps_cycle nss) ∧
  ((∃ ecs, calculate_epsilon_closures nss (replicate (length nss) ∅) = (Done tt, ecs))
     ↔ ¬ eps_cycle nss).
Proof.
  intros Hok. destruct (closures_total nss Hok) as [[ecs H]|(ecs & H & Hcyc)].
  - pose proof (closures_Done _ _ H) as (_ & Hacyc & _). rewrite H. split; split.
    + done.
    + intros ?. by destruct Hacyc.
    + done.
    + intros _. by exists ecs.
  - rewrite H. split; split; try done; try by intros [? ?].
Qed.

Lemma closures_throw_iff_cycle_witness :
  states_ok ex_self_loop ∧
  ((calculate_epsilon_closures ex_self_loop (replicate (length ex_self_loop) ∅)).1 = Throw
     ↔ eps_cycle ex_self_loop) ∧
  ((∃ ecs, calculate_epsilon_closures ex_self_loop (replicate (length ex_self_loop) ∅)
             = (Done tt, ecs)) ↔ ¬ eps_cycle ex_self_loop).
Proof.
  split; [apply ex_self_loop_ok |].
  apply (closures_throw_iff_cycle ex_self_loop), ex_self_loop_ok.
Defined.

(** ** Size and shape of the result *)

(** The DFA has at most [2 ^ |vec|] states and at least one; every recorded
    transition leads to a state of the DFA, and a state has a transition on
    [c] exactly when one of its members has the symbol [c]. *)
Theorem dfa_shape (n : NFA) (d : DFA) (ds : list (gset Z)) (recs : list DFARefRecord) :
  built n → nfa n ≠ NFASubsetRef_new →
  nfa2dfa n = (Done d, n) → dfa_tables n = (Done (ds, recs), n) →
  (0 < length d ≤ 2 ^ length (vec n))%nat ∧
  ∀ (i : nat) s st, ds !! i = Some s → d !! i = Some st →
    (∀ c to, drefs st !! c = Some to → 0 ≤ to < vec_size d) ∧
    (∀ c, is_Some (drefs st !! c) ↔ has_symbol (vec n) (elements s) c).
Proof.
  intros Hb Hne Hd Ht.
  destruct (built_nfa_ok n Hb) as [Hv [[? _]|[Hstart _]]]; [done |].
  apply arena_ok_states_ok in Hv.
  destruct (nfa2dfa_spec n Hv Hstart)
    as [[H' _]|(d' & ds' & recs' & c0 & Hd' & Ht' & _ & Hinv & Hdfa & H0 & _)]; [congruence |].
  assert (d' = d) as -> by congruence.
  assert (ds' = ds ∧ recs' = recs) as [-> ->] by (split; congruence).
  destruct Hdfa as [Hlen Hst]. split.
  - rewrite Hlen. split; [by eapply lookup_lt_Some | by eapply tables_bound].
  - intros i s st Hs Hi. destruct (Hst i s Hs) as (st' & Hi' & _ & Hsome & Hdom).
    assert (st' = st) as -> by congruence.
    pose proof (ti_recs _ _ _ _ Hinv) as Hrecs. rewrite Forall_forall in Hrecs. split.
    + intros c to Hc%Hsome.
      destruct (Hrecs _ Hc) as (_ & k & _ & t & _ & Hk & _ & Ht'' & _). simpl in Hk.
      apply lookup_lt_Some in Ht''. unfold vec_size. lia.
    + intros c. split.
      * intros [to Hc]. by eapply dfa_transition_symbol.
      * intros Hhas.
        destruct (ti_complete _ _ _ _ Hinv i s c) as [to Hto];
          [by eapply lookup_lt_Some | done..|]. by eapply Hdom.
Qed.

Lemma dfa_shape_witness :
  (0 < length ex_a_dfa ≤ 2 ^ length (vec ex_a))%nat ∧
  ∀ (i : nat) s st, ex_a_states !! i = Some s → ex_a_dfa !! i = Some st →
    (∀ c to, drefs st !! c = Some to → 0 ≤ to < vec_size ex_a_dfa) ∧
    (∀ c, is_Some (drefs st !! c) ↔ has_symbol (vec ex_a) (elements s) c).
Proof.
  apply (dfa_shape ex_a ex_a_dfa ex_a_states ex_a_records);
    [apply built_ex_a | discriminate | vm_compute; reflexivity | vm_compute; reflexivity].
Defined.

(** ** What each combinator writes *)

Lemma alter_end {A} (f : A → A) (l : list A) x (k : list A) :
  alter f (Z.to_nat (vec_size l)) (l ++ x :: k) = l ++ f x :: k.
Proof.
  unfold vec_size. rewrite Nat2Z.id.
  rewrite <- (Nat.add_0_r (length l)). by rewrite alter_app_r.
Qed.

Lemma alter_twice {A} (f g : A → A) k (l : list A) :
  alter g k (alter f k l) = alter (g ∘ f) k l.
Proof. apply list_alter_alter_eq. Qed.

Lemma link_run lv rv n :
  in_range (vec n) (end_ lv) →
  link lv rv n =
  (Done {| start := start lv; end_ := end_ rv |},
   {| nfa := {| start := start lv; end_ := end_ rv |};
      vec := alter (λ s, {| rule := RULE_EPSILON; refs := (start rv, (refs s).2) |})
               (Z.to_nat (end_ lv)) (vec n) |}).
Proof. intros Hl. unfold link. run_prims. by rewrite alter_twice. Qed.

Lemma select_run lv rv n :
  in_range (vec n) (end_ lv) → in_range (vec n) (end_ rv) →
  select lv rv n =
  (Done {| start := vec_size (vec n); end_ := vec_size (vec n) + 1 |},
   {| nfa := {| start := vec_size (vec n); end_ := vec_size (vec n) + 1 |};
      vec :=
        alter (λ s, {| rule := RULE_EPSILON; refs := (vec_size (vec n) + 1, (refs s).2) |})
          (Z.to_nat (end_ rv))
          (alter (λ s, {| rule := RULE_EPSILON;
                          refs := (vec_size (vec n) + 1, (refs s).2) |})
             (Z.to_nat (end_ lv))
             (vec n ++ [ {| rule := RULE_EPSILON; refs := (start lv, start rv) |};
                         NFAState_new ])) |}).
Proof.
  intros Hl Hr. pose proof (vec_size_nonneg (vec n)).
  unfold select. run_prims. rewrite !alter_twice.
  rewrite <- (assoc_L (++)). cbn [app]. by rewrite alter_end.
Qed.

Lemma star_run v n :
  in_range (vec n) (end_ v) →
  star v n =
  (Done {| start := vec_size (vec n); end_ := vec_size (vec n) + 1 |},
   {| nfa := {| start := vec_size (vec n); end_ := vec_size (vec n) + 1 |};
      vec :=
        alter (λ s, {| rule := RULE_EPSILON; refs := (vec_size (vec n), (refs s).2) |})
          (Z.to_nat (end_ v))
          (vec n ++ [ {| rule := RULE_EPSILON;
                         refs := (start v, vec_size (vec n) + 1) |};
                      NFAState_new ]) |}).
Proof.
  intros Hl. pose proof (vec_size_nonneg (vec n)).
  unfold star. run_prims. rewrite !alter_twice.
  rewrite <- (assoc_L (++)). cbn [app]. by rewrite alter_end.
Qed.

Lemma question_run v n :
  question v n =
  (Done {| start := vec_size (vec n); end_ := end_ v |},
   {| nfa := {| start := vec_size (vec n); end_ := end_ v |};
      vec := vec n ++ [ {| rule := RULE_EPSILON; refs := (start v, end_ v) |} ] |}).
Proof.
  pose proof (vec_size_nonneg (vec n)).
  unfold question. run_prims. rewrite !alter_twice.
  by rewrite alter_end.
Qed.

(** A combinator whose operand's exit is no state of the arena writes
    outside the arena. *)
Lemma link_undef lv rv n : ¬ in_range (vec n) (end_ lv) → (link lv rv n).1 = Undef.
Proof.
  intros Hl. unfold link, set_rule, mbind, M_bind, set_nfa. cbn [vec nfa].
  by rewrite upd_state_fail.
Qed.

(** ** Totality of the combinators, and the sentinel as an operand *)

(** On an automaton built by the algebra, each combinator applied to
    fragments of the arena returns, leaves its result in the stored fragment,
    and yields an automaton built by the algebra; [ch], [select] and [star]
    append two states, [question] one, [link] none. *)
Theorem combinators_return (n : NFA) (c : Z) (lv rv : NFASubsetRef) :
  built n → frag_ok n lv → frag_ok n rv →
  (∃ r n', ch c n = (Done r, n') ∧ nfa n' = r ∧ built n' ∧ frag_ok n' r ∧
           vec_size (vec n') = vec_size (vec n) + 2) ∧
  (∃ r n', link lv rv n = (Done r, n') ∧ nfa n' = r ∧ built n' ∧ frag_ok n' r ∧
           vec_size (vec n') = vec_size (vec n)) ∧
  (∃ r n', select lv rv n = (Done r, n') ∧ nfa n' = r ∧ built n' ∧ frag_ok n' r ∧
           vec_size (vec n') = vec_size (vec n) + 2) ∧
  (∃ r n', star lv n = (Done r, n') ∧ nfa n' = r ∧ built n' ∧ frag_ok n' r ∧
           vec_size (vec n') = vec_size (vec n) + 2) ∧
  (∃ r n', question lv n = (Done r, n') ∧ nfa n' = r ∧ built n' ∧ frag_ok n' r ∧
           vec_size (vec n') = vec_size (vec n) + 1).
Proof.
  intros Hb Hl Hr. destruct (built_nfa_ok n Hb) as [Hv _]. split_and!.
  - destruct (ch_ok c n Hv) as (r & n' & H & ? & ? & ? & ? & ?).
    exists r, n'. split; [done |]. split; [done |]. split; [exact (built_ch n c r n' Hb H) |]. by split.
  - destruct (link_ok lv rv n Hv Hl Hr) as (r & n' & H & ? & ? & ? & ? & ?).
    exists r, n'. split; [done |]. split; [done |]. split; [exact (built_link n lv rv r n' Hb Hl Hr H) |]. by split.
  - destruct (select_ok lv rv n Hv Hl Hr) as (r & n' & H & ? & ? & ? & ? & ?).
    exists r, n'. split; [done |]. split; [done |]. split; [exact (built_select n lv rv r n' Hb Hl Hr H) |]. by split.
  - destruct (star_ok lv n Hv Hl) as (r & n' & H & ? & ? & ? & ? & ?).
    exists r, n'. split; [done |]. split; [done |]. split; [exact (built_star n lv r n' Hb Hl H) |]. by split.
  - destruct (question_ok lv n Hv Hl) as (r & n' & H & ? & ? & ? & ? & ?).
    exists r, n'. split; [done |]. split; [done |]. split; [exact (built_question n lv r n' Hb Hl H) |]. by split.
Qed.

Lemma frag_ok_ex_a : frag_ok ex_a {| start := 0; end_ := 1 |}.
Proof. split; split; reflexivity || discriminate. Defined.

Lemma combinators_return_witness :
  built ex_a ∧ frag_ok ex_a {| start := 0; end_ := 1 |} ∧
  ∃ r n', star {| start := 0; end_ := 1 |} ex_a = (Done r, n') ∧ nfa n' = r ∧
          built n' ∧ frag_ok n' r ∧ vec_size (vec n') = vec_size (vec ex_a) + 2.
Proof.
  split; [apply built_ex_a |]. split; [apply frag_ok_ex_a |].
  apply (combinators_return ex_a 97 {| start := 0; end_ := 1 |} {| start := 0; end_ := 1 |});
    [apply built_ex_a | apply frag_ok_ex_a | apply frag_ok_ex_a].
Defined.

(** [link], [select] and [star] write into the exit state of an operand: an
    operand whose exit is [REF_UNDEFINED], as the sentinel fragment has it,
    makes them write outside the arena. [question] only stores the exit, so
    it returns on such an operand as on every other. *)
Theorem sentinel_operand_writes_outside (n : NFA) (lv rv : NFASubsetRef) :
  end_ lv = REF_UNDEFINED →
  (link lv rv n).1 = Undef ∧
  (select lv rv n).1 = Undef ∧
  (in_range (vec n) (end_ rv) → (select rv lv n).1 = Undef) ∧
  (star lv n).1 = Undef ∧
  (question lv n).1 = Done {| start := vec_size (vec n); end_ := REF_UNDEFINED |} ∧
  ∀ v, (question v n).1 = Done {| start := vec_size (vec n); end_ := end_ v |}.
Proof.
  intros He. pose proof (vec_size_nonneg (vec n)). unfold REF_UNDEFINED in He.
  split_and!; [| | | | |intros v; by rewrite question_run].
  - unfold link, set_rule, mbind, M_bind, set_nfa. cbn [vec nfa].
    rewrite upd_state_fail; [done |]. unfold in_range. lia.
  - unfold select. run_prims. rewrite upd_state_fail; [done |]. unfold in_range. lia.
  - intros Hr. unfold select. run_prims. rewrite upd_state_fail; [done |].
    unfold in_range. lia.
  - unfold star. run_prims. rewrite upd_state_fail; [done |]. unfold in_range. lia.
  - rewrite question_run. simpl. by rewrite He.
Qed.

Lemma sentinel_operand_writes_outside_witness :
  end_ NFASubsetRef_new = REF_UNDEFINED ∧
  (link NFASubsetRef_new {| start := 0; end_ := 1 |} ex_a).1 = Undef.
Proof.
  split; [reflexivity |].
  apply (sentinel_operand_writes_outside ex_a NFASubsetRef_new {| start := 0; end_ := 1 |}).
  reflexivity.
Defined.

(** ** The loop of [range] *)

Lemma to_char_id z : -128 ≤ z ≤ 127 → to_char z = z.
Proof. intros Hz. unfold to_char. rewrite Z.mod_small; lia. Qed.

Lemma to_char_range z : -128 ≤ to_char z ≤ 127.
Proof. unfold to_char. pose proof (Z.mod_pos_bound (z + 128) 256). lia. Qed.

Lemma range_for_returns e fuel : ∀ c ns n,
  arena_ok (vec n) → frag_ok n ns → nfa n = ns →
  -128 ≤ c → e ≤ 126 → c ≤ e + 1 → (Z.to_nat (e + 1 - c) ≤ fuel)%nat →
  ∃ r n', range_for fuel c e ns n = (Done r, n') ∧
          arena_ok (vec n') ∧ frag_ok n' r ∧ nfa n' = r ∧
          vec_size (vec n') = vec_size (vec n) + 4 * (e + 1 - c).
Proof.
  induction fuel as [|fuel IH]; intros c ns n Hv Hns Hnfa Hc He Hce Hfuel; cbn [range_for].
  { destruct (Z.leb_spec c e); [lia |]. exists ns, n. split_and!; [done..|lia]. }
  destruct (Z.leb_spec c e); [|exists ns, n; split_and!; [done..|lia]].
  destruct (ch_ok c n Hv) as (r1 & n1 & Hch & Hnfa1 & Hv1 & Hr1 & _ & Hsz1).
  destruct (select_ok ns r1 n1 Hv1) as (r2 & n2 & Hsel & Hnfa2 & Hv2 & Hr2 & _ & Hsz2);
    [eapply frag_ok_mono; [|done]; lia | done |].
  unfold mbind, M_bind. rewrite Hch, Hsel. rewrite to_char_id by lia.
  destruct (IH (c + 1) r2 n2) as (r & n' & H' & ? & ? & ? & Hsz); [done..|lia|lia|lia|lia|].
  exists r, n'. split_and!; [done..|]. lia.
Qed.

Lemma range_for_runs_on fuel : ∀ c ns n,
  arena_ok (vec n) → frag_ok n ns → -128 ≤ c ≤ 127 →
  (range_for fuel c 127 ns n).1 = OutOfFuel.
Proof.
  induction fuel as [|fuel IH]; intros c ns n Hv Hns Hc; cbn [range_for];
    (destruct (Z.leb_spec c 127); [|lia]); [done |].
  destruct (ch_ok c n Hv) as (r1 & n1 & Hch & Hnfa1 & Hv1 & Hr1 & _ & Hsz1).
  destruct (select_ok ns r1 n1 Hv1) as (r2 & n2 & Hsel & Hnfa2 & Hv2 & Hr2 & _ & Hsz2);
    [eapply frag_ok_mono; [|done]; lia | done |].
  unfold mbind, M_bind. rewrite Hch, Hsel. apply IH; [done..|apply to_char_range].
Qed.

(** For characters [lo <= hi <= 126], [range(lo, hi)] returns a fragment of
    the arena and appends [2 + 4 * (hi - lo)] states. For [hi = 127] and
    [lo < hi] the loop counter, a signed [char], wraps from 127 to -128 and
    the test [c <= e] never fails: the loop is still running after any
    number of rounds. *)
Theorem range_loop_behaviour (n : NFA) (lo hi : Z) (fuel : nat) (c : Z)
    (ns : NFASubsetRef) :
  built n → -128 ≤ lo →
  (lo ≤ hi ≤ 126 →
   ∃ r n', range lo hi n = (Done r, n') ∧ nfa n' = r ∧ frag_ok n' r ∧
           vec_size (vec n') = vec_size (vec n) + 2 + 4 * (hi - lo)) ∧
  (lo < 127 → (range lo 127 n).1 = OutOfFuel) ∧
  (frag_ok n ns → -128 ≤ c ≤ 127 → (range_for fuel c 127 ns n).1 = OutOfFuel).
Proof.
  intros Hb Hlo. destruct (built_nfa_ok n Hb) as [Hv _].
  destruct (ch_ok lo n Hv) as (r1 & n1 & Hch & Hnfa1 & Hv1 & Hr1 & _ & Hsz1).
  split_and!.
  - intros Hhi. unfold range. destruct (Z.gtb_spec lo hi); [lia |].
    destruct (Z.eqb_spec lo hi) as [->|Hne].
    + exists r1, n1. split; [done |]. split; [done |]. split; [done | lia].
    + unfold mbind, M_bind. rewrite Hch. rewrite to_char_id by lia.
      destruct (range_for_returns hi 256 (lo + 1) r1 n1) as (r & n' & H' & ? & ? & ? & Hsz);
        [done..|lia|lia|lia|lia|].
      exists r, n'. split; [done |]. split; [done |]. split; [done | lia].
  - intros Hlt. unfold range. destruct (Z.gtb_spec lo 127); [lia |].
    destruct (Z.eqb_spec lo 127); [lia |].
    unfold mbind, M_bind. rewrite Hch. apply range_for_runs_on; [done..|apply to_char_range].
  - intros Hns Hc. by apply range_for_runs_on.
Qed.

Lemma range_loop_behaviour_witness :
  built ex_a ∧ -128 ≤ 97 ∧ 97 ≤ 99 ≤ 126 ∧ 97 < 127 ∧
  (∃ r n', range 97 99 ex_a = (Done r, n') ∧ nfa n' = r ∧ frag_ok n' r ∧
           vec_size (vec n') = vec_size (vec ex_a) + 2 + 4 * (99 - 97)) ∧
  (range 97 127 ex_a).1 = OutOfFuel.
Proof.
  destruct (range_loop_behaviour ex_a 97 99 0 0 NFASubsetRef_new built_ex_a ltac:(lia))
    as (H1 & _ & _).
  destruct (range_loop_behaviour ex_a 97 127 0 0 NFASubsetRef_new built_ex_a ltac:(lia))
    as (_ & H2 & _).
  split; [apply built_ex_a |]. split; [lia |]. split; [lia |]. split; [lia |].
  split; [apply H1; lia | apply H2; lia].
Defined.

(** ** Paths under a change of the arena *)

Lemma vec_at_alter_ne {A} (f : A → A) (v : list A) e i :
  0 ≤ e → i ≠ e → vec_at (alter f (Z.to_nat e) v) i = vec_at v i.
Proof.
  intros He Hi. unfold vec_at. destruct (Z.ltb_spec i 0); [done |].
  rewrite list_lookup_alter_ne; [done | lia].
Qed.

Lemma vec_at_alter_eq {A} (f : A → A) (v : list A) e x :
  vec_at v e = Done x → vec_at (alter f (Z.to_nat e) v) e = Done (f x).
Proof.
  rewrite !vec_at_Done. intros [? Hx]. split; [done |].
  by rewrite list_lookup_alter_eq, Hx.
Qed.

Lemma vec_at_app_l {A} (v l : list A) i : 0 ≤ i < vec_size v → vec_at (v ++ l) i = vec_at v i.
Proof.
  intros Hi. unfold vec_at. destruct (Z.ltb_spec i 0); [done |].
  rewrite lookup_app_l; [done |]. unfold vec_size in Hi. lia.
Qed.

Lemma vec_at_app_r {A} (v l : list A) k :
  0 ≤ k → vec_at (v ++ l) (vec_size v + k) = vec_at l k.
Proof.
  intros Hk. unfold vec_at, vec_size.
  destruct (Z.ltb_spec (Z.of_nat (length v) + k) 0); [lia |].
  destruct (Z.ltb_spec k 0); [lia |].
  rewrite lookup_app_r by lia.
  replace (Z.to_nat (Z.of_nat (length v) + k) - length v)%nat with (Z.to_nat k) by lia.
  done.
Qed.

Lemma vec_at_app_here {A} (v l : list A) x : vec_at (v ++ x :: l) (vec_size v) = Done x.
Proof.
  pose proof (vec_at_app_r v (x :: l) 0 ltac:(lia)) as H.
  by rewrite Z.add_0_r in H.
Qed.

Section paths_change.
Variables nss nss' : list NFAState.

Lemma eps_edge_same p q :
  vec_at nss' p = vec_at nss p → eps_edge nss' p q ↔ eps_edge nss p q.
Proof. intros H. unfold eps_edge. by rewrite H. Qed.

Lemma sym_edge_same p c q :
  vec_at nss' p = vec_at nss p → sym_edge nss' p c q ↔ sym_edge nss p c q.
Proof. intros H. unfold sym_edge. by rewrite H. Qed.

Lemma edge_same p q : vec_at nss' p = vec_at nss p → edge nss' p q ↔ edge nss p q.
Proof.
  intros H. unfold edge. rewrite (eps_edge_same _ _ H).
  by setoid_rewrite (sym_edge_same _ _ _ H).
Qed.

Lemma nfa_path_extends p w q :
  extends nss nss' → nfa_path nss p w q → nfa_path nss' p w q.
Proof.
  intros Hext Hp. induction Hp as [|p q w r (st & Hst & Hr & ?) _ IH
                                   |p c q w r (st & Hst & Hr & [? ?] & ?) _ IH].
  - constructor.
  - eapply path_eps; [|done]. exists st. split; [|done].
    apply Hext; [done |]. rewrite Hr. done.
  - eapply path_sym; [|done]. exists st. split; [|done].
    apply Hext; [done |]. by rewrite Hr.
Qed.

Lemma nfa_path_keeps F p w q :
  keeps nss nss' F → (∀ p q, p ∈ F → edge nss p q → q ∈ F) → p ∈ F →
  nfa_path nss' p w q ↔ nfa_path nss p w q.
Proof.
  intros Hk Hcl Hp. split; intros H.
  - induction H as [|p q w r He _ IH|p c q w r He _ IH]; [constructor | |].
    + apply (eps_edge_same _ _ (Hk _ Hp)) in He.
      eapply path_eps; [done |]. apply IH. eapply Hcl; [done | by left].
    + apply (sym_edge_same _ _ _ (Hk _ Hp)) in He.
      eapply path_sym; [done |]. apply IH. eapply Hcl; [done | right; by exists c].
  - induction H as [|p q w r He _ IH|p c q w r He _ IH]; [constructor | |].
    + eapply path_eps; [by apply (eps_edge_same _ _ (Hk _ Hp)) |].
      apply IH. eapply Hcl; [done | by left].
    + eapply path_sym; [by apply (sym_edge_same _ _ _ (Hk _ Hp)) |].
      apply IH. eapply Hcl; [done | right; by exists c].
Qed.
End paths_change.

Lemma nfa_path_inside nss (F : gset Z) p w q :
  (∀ p q, p ∈ F → edge nss p q → q ∈ F) → p ∈ F → nfa_path nss p w q → q ∈ F.
Proof.
  intros Hcl Hp H. induction H as [|p q w r He _ IH|p c q w r He _ IH]; [done | |].
  - apply IH. eapply Hcl; [done | by left].
  - apply IH. eapply Hcl; [done | right; by exists c].
Qed.

(** A state without a rule is a dead end. *)
Lemma no_edge_from_dead nss p q st :
  vec_at nss p = Done st → rule st = RULE_UNDEFINED → ¬ edge nss p q.
Proof.
  intros Hst Hr [(st' & Hst' & Hr' & _)|(c & st' & Hst' & Hr' & [_ Hc] & _)];
    assert (st' = st) as -> by congruence;
    unfold RULE_EPSILON, RULE_UNDEFINED in *; congruence.
Qed.

Lemma nfa_path_dead nss p w q st :
  vec_at nss p = Done st → rule st = RULE_UNDEFINED → nfa_path nss p w q → w = [] ∧ q = p.
Proof.
  intros Hst Hr H. destruct H as [|p q w r He _|p c q w r He _]; [done | |].
  - destruct (no_edge_from_dead nss p q st); [done..|by left].
  - destruct (no_edge_from_dead nss p q st); [done..|right; by exists c].
Qed.

(** The edges of an epsilon state with one target. *)
Lemma edge_from_eps nss p q st :
  vec_at nss p = Done st → rule st = RULE_EPSILON →
  edge nss p q ↔ eps_edge nss p q.
Proof.
  intros Hst Hr. split; [|by left].
  intros [?|(c & st' & Hst' & Hr' & [Hc _] & _)]; [done |].
  assert (st' = st) as -> by congruence. unfold RULE_EPSILON in *. congruence.
Qed.

Lemma eps_edge_targets nss p q st :
  vec_at nss p = Done st → eps_edge nss p q →
  rule st = RULE_EPSILON ∧ q ≠ REF_UNDEFINED ∧ (q = (refs st).1 ∨ q = (refs st).2).
Proof. intros Hst (st' & Hst' & ?). by assert (st' = st) as -> by congruence. Qed.

(** A fragment survives a change of the arena that keeps its footprint. *)
Lemma proper_frag_keeps nss nss' r F :
  proper_frag nss r F → keeps nss nss' F →
  proper_frag nss' r F ∧ ∀ w, frag_lang nss' r w ↔ frag_lang nss r w.
Proof.
  intros [Hs He Hrng Hexit Hcl] Hk. split.
  - constructor; [done | done | | by rewrite (Hk _ He) |].
    + intros i Hi. destruct (vec_at_is_Done nss i (Hrng i Hi)) as [st Hst].
      rewrite <- (Hk _ Hi) in Hst. by eapply vec_at_in_range.
    + intros p q Hp Hpq. eapply Hcl; [done |]. by apply (edge_same nss nss' p q (Hk _ Hp)).
  - intros w. unfold frag_lang. by apply (nfa_path_keeps nss nss' F).
Qed.

(** ** The language of each combinator *)

Lemma ch_lookups c n :
  vec_at (vec (ch c n).2) (vec_size (vec n))
    = Done {| rule := c; refs := (vec_size (vec n) + 1, REF_UNDEFINED) |} ∧
  vec_at (vec (ch c n).2) (vec_size (vec n) + 1) = Done NFAState_new ∧
  (∀ i, in_range (vec n) i → vec_at (vec (ch c n).2) i = vec_at (vec n) i) ∧
  vec_size (vec (ch c n).2) = vec_size (vec n) + 2.
Proof.
  rewrite ch_run. cbn [snd vec]. split_and!.
  - apply vec_at_app_here.
  - rewrite vec_at_app_r by lia. reflexivity.
  - intros i Hi. by apply vec_at_app_l.
  - by rewrite vec_size_app.
Qed.

Lemma literal_frag (v : list NFAState) (sz c : Z) :
  0 ≤ sz →
  vec_at v sz = Done {| rule := c; refs := (sz + 1, REF_UNDEFINED) |} →
  vec_at v (sz + 1) = Done NFAState_new →
  vec_size v = sz + 2 →
  proper_frag v {| start := sz; end_ := sz + 1 |} {[sz; sz + 1]} ∧
  ∀ w, frag_lang v {| start := sz; end_ := sz + 1 |} w ↔
       (is_symbol c ∧ w = [c]) ∨ (c = RULE_EPSILON ∧ w = []).
Proof.
  intros Hnn HS HE Hsz.
  assert (∀ w q, nfa_path v (sz + 1) w q → w = [] ∧ q = sz + 1) as Hdead.
  { intros w q. by apply (nfa_path_dead _ _ _ _ NFAState_new). }
  split.
  - constructor; cbn [start end_].
    + set_solver.
    + set_solver.
    + intros i Hi. unfold in_range. rewrite Hsz.
      apply elem_of_union in Hi as [->%elem_of_singleton| ->%elem_of_singleton]; lia.
    + done.
    + intros p q Hp Hpq.
      apply elem_of_union in Hp as [->%elem_of_singleton| ->%elem_of_singleton].
      * destruct Hpq as [He|(c' & st & Hst & _ & _ & ->)].
        -- apply (eps_edge_targets _ _ _ _ HS) in He as (_ & Hq & [->| ->]); simpl in *;
             [set_solver | done].
        -- assert (st = {| rule := c; refs := (sz + 1, REF_UNDEFINED) |}) as -> by congruence.
           simpl. set_solver.
      * by destruct (no_edge_from_dead _ _ _ _ HE eq_refl Hpq).
  - intros w. unfold frag_lang. cbn [start end_]. split.
    + intros H. inversion H as [|p q w' r' He Hrest|p c' q w' r' He Hrest]; subst.
      * lia.
      * apply (eps_edge_targets _ _ _ _ HS) in He as (Hr & Hq & [->| ->]); simpl in *;
          [|done]. apply Hdead in Hrest as [-> _]. by right.
      * destruct He as (st & Hst & <- & Hsym & ->).
        assert (st = {| rule := c; refs := (sz + 1, REF_UNDEFINED) |}) as -> by congruence.
        simpl in *. apply Hdead in Hrest as [-> _]. by left.
    + intros [[Hsym ->]|[-> ->]].
      * eapply path_sym; [|apply path_nil]. eexists. split; [exact HS |]. done.
      * eapply path_eps; [|apply path_nil]. eexists. split; [exact HS |].
        split_and!; [done | | by left]. simpl. unfold REF_UNDEFINED. lia.
Qed.

(** [ch(c)] appends a fragment of two states that reads exactly the input
    [c] when [c] is a symbol; the character [-2] gives an epsilon state, so
    the fragment reads the empty input; the character [-1] gives a state
    without a rule, so the fragment reads nothing. States already in the
    arena are not touched. *)
Theorem ch_language (n : NFA) (c : Z) :
  ch c n = (Done {| start := vec_size (vec n); end_ := vec_size (vec n) + 1 |}, (ch c n).2) ∧
  proper_frag (vec (ch c n).2)
    {| start := vec_size (vec n); end_ := vec_size (vec n) + 1 |}
    {[vec_size (vec n); vec_size (vec n) + 1]} ∧
  (∀ i, in_range (vec n) i → vec_at (vec (ch c n).2) i = vec_at (vec n) i) ∧
  ∀ w, frag_lang (vec (ch c n).2)
         {| start := vec_size (vec n); end_ := vec_size (vec n) + 1 |} w ↔
       (is_symbol c ∧ w = [c]) ∨ (c = RULE_EPSILON ∧ w = []).
Proof.
  destruct (ch_lookups c n) as (HS & HE & Hold & Hsz).
  destruct (literal_frag _ _ c (vec_size_nonneg (vec n)) HS HE Hsz) as [Hp Hl].
  split_and!; [by rewrite ch_run | done..].
Qed.

Lemma nfa_path_app nss p w1 q w2 r :
  nfa_path nss p w1 q → nfa_path nss q w2 r → nfa_path nss p (w1 ++ w2) r.
Proof.
  intros H1 H2. induction H1 as [|p q w r' He _ IH|p c q w r' He _ IH]; [done | |].
  - eapply path_eps; [done |]. by apply IH.
  - simpl. eapply path_sym; [done |]. by apply IH.
Qed.

Lemma proper_frag_exit_dead nss r F w q :
  proper_frag nss r F → nfa_path nss (end_ r) w q → w = [] ∧ q = end_ r.
Proof.
  intros Hp. apply (nfa_path_dead _ _ _ _ NFAState_new); [|done].
  apply (pf_exit _ _ _ Hp).
Qed.

(** The arena after the exit of [A] has become an epsilon state to [t]. *)
Lemma exit_linked_extends v v' (A : NFASubsetRef) F :
  proper_frag v A F →
  (∀ i, in_range v i → i ≠ end_ A → vec_at v' i = vec_at v i) →
  extends v v'.
Proof.
  intros HA Hother p st Hst Hr. rewrite <- Hst. apply Hother; [by eapply vec_at_in_range |].
  intros ->. rewrite (pf_exit _ _ _ HA) in Hst. injection Hst as <-. done.
Qed.

Lemma link_frag v v' (A B : NFASubsetRef) (FA FB : gset Z) :
  proper_frag v A FA → proper_frag v B FB → FA ## FB →
  vec_at v' (end_ A) = Done {| rule := RULE_EPSILON; refs := (start B, REF_UNDEFINED) |} →
  (∀ i, in_range v i → i ≠ end_ A → vec_at v' i = vec_at v i) →
  proper_frag v' {| start := start A; end_ := end_ B |} (FA ∪ FB) ∧
  ∀ w, frag_lang v' {| start := start A; end_ := end_ B |} w ↔
       lang_cat (frag_lang v A) (frag_lang v B) w.
Proof.
  intros HA HB Hdisj HeA Hother.
  pose proof (pf_end _ _ _ HA) as HeAin. pose proof (pf_end _ _ _ HB) as HeBin.
  pose proof (pf_start _ _ _ HB) as HsBin.
  assert (keeps v v' FB) as HkB.
  { intros i Hi. apply Hother; [by apply (pf_range _ _ _ HB) | set_solver]. }
  assert (∀ p, p ∈ FA → p ≠ end_ A → vec_at v' p = vec_at v p) as HkA.
  { intros p Hp Hne. apply Hother; [by apply (pf_range _ _ _ HA) | done]. }
  assert (extends v v') as Hext by exact (exit_linked_extends v v' A FA HA Hother).
  assert (∀ q, edge v' (end_ A) q → q = start B) as Hexit.
  { intros q Hq. apply (edge_from_eps _ _ _ _ HeA eq_refl) in Hq.
    apply (eps_edge_targets _ _ _ _ HeA) in Hq as (_ & Hq & [->| ->]); simpl in *; done. }
  split.
  - constructor; cbn [start end_].
    + apply elem_of_union_l, (pf_start _ _ _ HA).
    + by apply elem_of_union_r.
    + intros i Hi.
      assert (in_range v i) as Hi'.
      { apply elem_of_union in Hi as [Hi|Hi];
          [by apply (pf_range _ _ _ HA) | by apply (pf_range _ _ _ HB)]. }
      destruct (decide (i = end_ A)) as [->|Hne]; [by eapply vec_at_in_range |].
      destruct (vec_at_is_Done v i Hi') as [st Hst]. rewrite <- (Hother i Hi' Hne) in Hst.
      by eapply vec_at_in_range.
    + rewrite (HkB _ HeBin). apply (pf_exit _ _ _ HB).
    + intros p q Hp Hpq. destruct (decide (p = end_ A)) as [->|Hne].
      { apply Hexit in Hpq as ->. by apply elem_of_union_r. }
      apply elem_of_union in Hp as [Hp|Hp].
      * apply elem_of_union_l. eapply (pf_closed _ _ _ HA); [done |].
        by apply (edge_same v v' p q (HkA p Hp Hne)).
      * apply elem_of_union_r. eapply (pf_closed _ _ _ HB); [done |].
        by apply (edge_same v v' p q (HkB p Hp)).
  - intros w. unfold frag_lang, lang_cat. cbn [start end_]. split.
    + assert (∀ p w q, nfa_path v' p w q → p ∈ FA → q = end_ B →
        ∃ w1 w2, w = w1 ++ w2 ∧ nfa_path v p w1 (end_ A) ∧
                 nfa_path v (start B) w2 (end_ B)) as Hsplit; cycle 1.
      { intros H. eapply Hsplit; [done | apply (pf_start _ _ _ HA) | done]. }
      intros p w0 q H. induction H as [|p q w' r He Hrest IH|p c q w' r He Hrest IH];
        intros Hp Hq.
      * subst. set_solver.
      * destruct (decide (p = end_ A)) as [->|Hne].
        { assert (q = start B) as -> by (apply Hexit; by left). subst r.
          exists [], w'. split_and!; [done | constructor |].
          by apply (nfa_path_keeps v v' FB _ _ _ HkB (pf_closed _ _ _ HB) HsBin). }
        apply (eps_edge_same v v' p q (HkA p Hp Hne)) in He.
        destruct IH as (w1 & w2 & -> & H1 & H2);
          [eapply (pf_closed _ _ _ HA); [done | by left] | done |].
        exists w1, w2. split_and!; [done | by eapply path_eps | done].
      * destruct (decide (p = end_ A)) as [->|Hne].
        { assert (q = start B) as -> by (apply Hexit; right; by exists c).
          destruct He as (st & Hst & Hr & [Hc _] & _).
          assert (st = {| rule := RULE_EPSILON; refs := (start B, REF_UNDEFINED) |})
            as -> by congruence. simpl in Hr. congruence. }
        apply (sym_edge_same v v' p c q (HkA p Hp Hne)) in He.
        destruct IH as (w1 & w2 & -> & H1 & H2);
          [eapply (pf_closed _ _ _ HA); [done | right; by exists c] | done |].
        exists (c :: w1), w2. split_and!; [done | by eapply path_sym | done].
    + intros (w1 & w2 & -> & H1 & H2). eapply nfa_path_app.
      { by apply (nfa_path_extends v v'). }
      eapply path_eps; [|by apply (nfa_path_extends v v')].
      eexists. split; [exact HeA |]. split_and!; [done | | by left].
      simpl. intros Hs. pose proof (pf_range _ _ _ HB _ HsBin) as [? _].
      rewrite Hs in *. unfold REF_UNDEFINED in *. lia.
Qed.

(** [link(A, B)] on two fragments with disjoint footprints rewrites the exit
    of [A] and nothing else, and the fragment it returns reads the inputs of
    [A] followed by the inputs of [B]. *)
Theorem link_language (n : NFA) (A B : NFASubsetRef) (FA FB : gset Z) :
  proper_frag (vec n) A FA → proper_frag (vec n) B FB → FA ## FB →
  ∃ n',
    link A B n = (Done {| start := start A; end_ := end_ B |}, n') ∧
    nfa n' = {| start := start A; end_ := end_ B |} ∧
    proper_frag (vec n') {| start := start A; end_ := end_ B |} (FA ∪ FB) ∧
    (∀ i, in_range (vec n) i → i ≠ end_ A → vec_at (vec n') i = vec_at (vec n) i) ∧
    ∀ w, frag_lang (vec n') {| start := start A; end_ := end_ B |} w ↔
         lang_cat (frag_lang (vec n) A) (frag_lang (vec n) B) w.
Proof.
  intros HA HB Hdisj.
  pose proof (pf_range _ _ _ HA _ (pf_end _ _ _ HA)) as HeA.
  eexists. split; [by apply link_run |]. cbn [vec nfa].
  assert (∀ i, in_range (vec n) i → i ≠ end_ A →
    vec_at (alter (λ s, {| rule := RULE_EPSILON; refs := (start B, (refs s).2) |})
              (Z.to_nat (end_ A)) (vec n)) i = vec_at (vec n) i) as Hother.
  { intros i _ Hne. apply vec_at_alter_ne; [apply HeA | done]. }
  split; [done |].
  edestruct (link_frag (vec n)) as [Hp Hl]; [exact HA | exact HB | exact Hdisj | | exact Hother |].
  { by rewrite (vec_at_alter_eq _ _ _ _ (pf_exit _ _ _ HA)). }
  done.
Qed.

(** A path that ends in a new dead exit [e'], from inside a fragment whose
    old exit now leads to [e'] and nowhere else. *)
Lemma path_to_new_exit v v' (X : NFASubsetRef) (FX : gset Z) e' :
  proper_frag v X FX → ¬ in_range v e' →
  vec_at v' (end_ X) = Done {| rule := RULE_EPSILON; refs := (e', REF_UNDEFINED) |} →
  vec_at v' e' = Done NFAState_new →
  (∀ p, p ∈ FX → p ≠ end_ X → vec_at v' p = vec_at v p) →
  ∀ p w q, nfa_path v' p w q → p ∈ FX → q = e' → nfa_path v p w (end_ X).
Proof.
  intros HX He' HeX Hnew HkX p w q H.
  assert (∀ q, edge v' (end_ X) q → q = e') as Hexit.
  { intros q' Hq. apply (edge_from_eps _ _ _ _ HeX eq_refl) in Hq.
    apply (eps_edge_targets _ _ _ _ HeX) in Hq as (_ & Hq & [->| ->]); simpl in *; done. }
  induction H as [|p q w' r He Hrest IH|p c q w' r He Hrest IH]; intros Hp Hq.
  - subst. destruct He'. by apply (pf_range _ _ _ HX).
  - destruct (decide (p = end_ X)) as [->|Hne].
    { assert (q = e') as -> by (apply Hexit; by left).
      apply (nfa_path_dead _ _ _ _ _ Hnew eq_refl) in Hrest as [-> _]. constructor. }
    apply (eps_edge_same v v' p q (HkX p Hp Hne)) in He.
    eapply path_eps; [done |]. apply IH; [|done].
    eapply (pf_closed _ _ _ HX); [done | by left].
  - destruct (decide (p = end_ X)) as [->|Hne].
    { destruct He as (st & Hst & Hr & [Hc _] & _).
      assert (st = {| rule := RULE_EPSILON; refs := (e', REF_UNDEFINED) |}) as -> by congruence.
      simpl in Hr. congruence. }
    apply (sym_edge_same v v' p c q (HkX p Hp Hne)) in He.
    eapply path_sym; [done |]. apply IH; [|done].
    eapply (pf_closed _ _ _ HX); [done | right; by exists c].
Qed.

Lemma select_frag v v' (A B : NFASubsetRef) (FA FB : gset Z) sz :
  proper_frag v A FA → proper_frag v B FB → FA ## FB → vec_size v = sz →
  vec_at v' sz = Done {| rule := RULE_EPSILON; refs := (start A, start B) |} →
  vec_at v' (sz + 1) = Done NFAState_new →
  vec_at v' (end_ A) = Done {| rule := RULE_EPSILON; refs := (sz + 1, REF_UNDEFINED) |} →
  vec_at v' (end_ B) = Done {| rule := RULE_EPSILON; refs := (sz + 1, REF_UNDEFINED) |} →
  (∀ i, in_range v i → i ≠ end_ A → i ≠ end_ B → vec_at v' i = vec_at v i) →
  vec_size v' = sz + 2 →
  proper_frag v' {| start := sz; end_ := sz + 1 |} (FA ∪ FB ∪ {[sz; sz + 1]}) ∧
  ∀ w, frag_lang v' {| start := sz; end_ := sz + 1 |} w ↔
       frag_lang v A w ∨ frag_lang v B w.
Proof.
  intros HA HB Hdisj Hsz HS HE HeA HeB Hother Hsz'.
  pose proof (pf_end _ _ _ HA) as HeAin. pose proof (pf_end _ _ _ HB) as HeBin.
  pose proof (pf_start _ _ _ HA) as HsAin. pose proof (pf_start _ _ _ HB) as HsBin.
  pose proof (vec_size_nonneg v) as Hnn.
  assert (¬ in_range v (sz + 1)) as Hnew by (unfold in_range; lia).
  assert (∀ p, p ∈ FA → p ≠ end_ A → vec_at v' p = vec_at v p) as HkA.
  { intros p Hp Hne. apply Hother; [by apply (pf_range _ _ _ HA) | done | set_solver]. }
  assert (∀ p, p ∈ FB → p ≠ end_ B → vec_at v' p = vec_at v p) as HkB.
  { intros p Hp Hne. apply Hother; [by apply (pf_range _ _ _ HB) | set_solver | done]. }
  assert (extends v v') as Hext.
  { intros p st Hst Hr. rewrite <- Hst. apply Hother; [by eapply vec_at_in_range | |];
      intros ->; [rewrite (pf_exit _ _ _ HA) in Hst | rewrite (pf_exit _ _ _ HB) in Hst];
      by injection Hst as <-. }
  assert (∀ (X : NFASubsetRef), in_range v (start X) →
            eps_edge v' (end_ X) (sz + 1) →
            ∀ w, nfa_path v (start X) w (end_ X) → nfa_path v' (start X) w (sz + 1)) as Hback.
  { intros X HsX HeX w Hw. rewrite <- (app_nil_r w). eapply nfa_path_app.
    - by apply (nfa_path_extends v v').
    - eapply path_eps; [done | constructor]. }
  assert (∀ e, vec_at v' e = Done {| rule := RULE_EPSILON; refs := (sz + 1, REF_UNDEFINED) |} →
               eps_edge v' e (sz + 1)) as Hedge.
  { intros e He. eexists. split; [exact He |]. split_and!; [done | | by left].
    simpl. unfold REF_UNDEFINED. lia. }
  assert (∀ e q, vec_at v' e = Done {| rule := RULE_EPSILON; refs := (sz + 1, REF_UNDEFINED) |} →
                 edge v' e q → q = sz + 1) as Hexit.
  { intros e q He Hq. apply (edge_from_eps _ _ _ _ He eq_refl) in Hq.
    apply (eps_edge_targets _ _ _ _ He) in Hq as (_ & Hq & [->| ->]); simpl in *; done. }
  split.
  - constructor; cbn [start end_].
    + set_solver.
    + set_solver.
    + intros i Hi. unfold in_range. rewrite Hsz'.
      assert (i ∈ FA ∨ i ∈ FB ∨ i = sz ∨ i = sz + 1) as [Hi'|[Hi'|[->| ->]]] by set_solver;
        [apply (pf_range _ _ _ HA) in Hi' | apply (pf_range _ _ _ HB) in Hi' | |];
        unfold in_range in *; lia.
    + done.
    + intros p q Hp Hpq.
      assert (p ∈ FA ∨ p ∈ FB ∨ p = sz ∨ p = sz + 1) as [Hp'|[Hp'|[->| ->]]] by set_solver.
      * destruct (decide (p = end_ A)) as [->|Hne].
        { rewrite (Hexit _ _ HeA Hpq). set_solver. }
        apply (edge_same v v' p q (HkA p Hp' Hne)) in Hpq.
        pose proof (pf_closed _ _ _ HA p q Hp' Hpq). set_solver.
      * destruct (decide (p = end_ B)) as [->|Hne].
        { rewrite (Hexit _ _ HeB Hpq). set_solver. }
        apply (edge_same v v' p q (HkB p Hp' Hne)) in Hpq.
        pose proof (pf_closed _ _ _ HB p q Hp' Hpq). set_solver.
      * apply (edge_from_eps _ _ _ _ HS eq_refl) in Hpq.
        apply (eps_edge_targets _ _ _ _ HS) in Hpq as (_ & _ & [->| ->]); simpl; set_solver.
      * by destruct (no_edge_from_dead _ _ _ _ HE eq_refl Hpq).
  - intros w. unfold frag_lang. cbn [start end_]. split.
    + intros H. inversion H as [|p q w' r' He Hrest|p c' q w' r' He Hrest]; subst.
      * lia.
      * apply (eps_edge_targets _ _ _ _ HS) in He as (_ & _ & [->| ->]); simpl in *.
        -- left. by eapply (path_to_new_exit v v' A FA (vec_size v + 1)).
        -- right. by eapply (path_to_new_exit v v' B FB (vec_size v + 1)).
      * destruct He as (st & Hst & Hr & [Hc _] & _).
        assert (st = {| rule := RULE_EPSILON; refs := (start A, start B) |}) as -> by congruence.
        simpl in Hr. congruence.
    + assert (∀ s, in_range v s → s = start A ∨ s = start B → eps_edge v' sz s) as Hin.
      { intros s Hs Hor. eexists. split; [exact HS |]. split_and!; [done | | done].
        unfold in_range, REF_UNDEFINED in *. lia. }
      intros [Hw|Hw].
      * eapply path_eps; [apply (Hin (start A)); [by apply (pf_range _ _ _ HA) | by left] |].
        apply Hback; [by apply (pf_range _ _ _ HA) | by apply Hedge | done].
      * eapply path_eps; [apply (Hin (start B)); [by apply (pf_range _ _ _ HB) | by right] |].
        apply Hback; [by apply (pf_range _ _ _ HB) | by apply Hedge | done].
Qed.

(** [select(A, B)] on two fragments with disjoint footprints appends an
    entry and an exit, rewrites the exits of [A] and [B] and nothing else,
    and the fragment it returns reads the inputs of [A] and the inputs of
    [B]. *)
Theorem select_language (n : NFA) (A B : NFASubsetRef) (FA FB : gset Z) :
  proper_frag (vec n) A FA → proper_frag (vec n) B FB → FA ## FB →
  ∃ n',
    select A B n =
      (Done {| start := vec_size (vec n); end_ := vec_size (vec n) + 1 |}, n') ∧
    nfa n' = {| start := vec_size (vec n); end_ := vec_size (vec n) + 1 |} ∧
    proper_frag (vec n') {| start := vec_size (vec n); end_ := vec_size (vec n) + 1 |}
      (FA ∪ FB ∪ {[vec_size (vec n); vec_size (vec n) + 1]}) ∧
    (∀ i, in_range (vec n) i → i ≠ end_ A → i ≠ end_ B →
          vec_at (vec n') i = vec_at (vec n) i) ∧
    ∀ w, frag_lang (vec n') {| start := vec_size (vec n); end_ := vec_size (vec n) + 1 |} w ↔
         frag_lang (vec n) A w ∨ frag_lang (vec n) B w.
Proof.
  intros HA HB Hdisj.
  pose proof (pf_range _ _ _ HA _ (pf_end _ _ _ HA)) as HeA.
  pose proof (pf_range _ _ _ HB _ (pf_end _ _ _ HB)) as HeB.
  pose proof (pf_end _ _ _ HA) as HeAin. pose proof (pf_end _ _ _ HB) as HeBin.
  assert (end_ A ≠ end_ B) as Hne.
  { intros Heq. apply (Hdisj (end_ B)); [by rewrite <- Heq | done]. }
  eexists. split; [by apply select_run |]. cbn [vec nfa]. split; [done |].
  set (fe := λ s : NFAState,
    {| rule := RULE_EPSILON; refs := (vec_size (vec n) + 1, (refs s).2) |}).
  set (v0 := vec n ++ [ {| rule := RULE_EPSILON; refs := (start A, start B) |}; NFAState_new ]).
  assert (∀ i, i ≠ end_ A → i ≠ end_ B →
    vec_at (alter fe (Z.to_nat (end_ B)) (alter fe (Z.to_nat (end_ A)) v0)) i = vec_at v0 i)
    as Hne2.
  { intros i H1 H2. rewrite vec_at_alter_ne; [|apply HeB | done].
    apply vec_at_alter_ne; [apply HeA | done]. }
  assert (∀ i, in_range (vec n) i → vec_at v0 i = vec_at (vec n) i) as Hold.
  { intros i Hi. by apply vec_at_app_l. }
  assert (∀ i, in_range (vec n) i → i ≠ end_ A → i ≠ end_ B →
    vec_at (alter fe (Z.to_nat (end_ B)) (alter fe (Z.to_nat (end_ A)) v0)) i
      = vec_at (vec n) i) as Hother.
  { intros i Hi H1 H2. by rewrite Hne2, Hold. }
  edestruct (select_frag (vec n)) as [Hp Hl];
    [exact HA | exact HB | exact Hdisj | reflexivity | | | | | exact Hother | |].
  - rewrite Hne2; [apply vec_at_app_here | unfold in_range in *; lia..].
  - rewrite Hne2; [|unfold in_range in *; lia..].
    unfold v0. rewrite vec_at_app_r by lia. reflexivity.
  - rewrite vec_at_alter_ne; [|apply HeB | done].
    rewrite (vec_at_alter_eq fe _ _ NFAState_new); [reflexivity |].
    rewrite Hold by done. apply (pf_exit _ _ _ HA).
  - rewrite (vec_at_alter_eq fe _ _ NFAState_new); [reflexivity |].
    rewrite vec_at_alter_ne; [|apply HeA | done]. rewrite Hold by done. apply (pf_exit _ _ _ HB).
  - rewrite !vec_size_alter. unfold v0. rewrite vec_size_app. reflexivity.
  - done.
Qed.

Lemma star_frag v v' (A : NFASubsetRef) (FA : gset Z) sz :
  proper_frag v A FA → vec_size v = sz →
  vec_at v' sz = Done {| rule := RULE_EPSILON; refs := (start A, sz + 1) |} →
  vec_at v' (sz + 1) = Done NFAState_new →
  vec_at v' (end_ A) = Done {| rule := RULE_EPSILON; refs := (sz, REF_UNDEFINED) |} →
  (∀ i, in_range v i → i ≠ end_ A → vec_at v' i = vec_at v i) →
  vec_size v' = sz + 2 →
  proper_frag v' {| start := sz; end_ := sz + 1 |} (FA ∪ {[sz; sz + 1]}) ∧
  ∀ w, frag_lang v' {| start := sz; end_ := sz + 1 |} w ↔ lang_star (frag_lang v A) w.
Proof.
  intros HA Hsz HS HE HeA Hother Hsz'.
  pose proof (pf_end _ _ _ HA) as HeAin. pose proof (pf_start _ _ _ HA) as HsAin.
  pose proof (vec_size_nonneg v) as Hnn.
  pose proof (pf_range _ _ _ HA _ HsAin) as HsArng.
  assert (∀ p, p ∈ FA → p ≠ end_ A → vec_at v' p = vec_at v p) as HkA.
  { intros p Hp Hne. apply Hother; [by apply (pf_range _ _ _ HA) | done]. }
  assert (extends v v') as Hext by exact (exit_linked_extends v v' A FA HA Hother).
  assert (∀ q, edge v' (end_ A) q → q = sz) as Hexit.
  { intros q Hq. apply (edge_from_eps _ _ _ _ HeA eq_refl) in Hq.
    apply (eps_edge_targets _ _ _ _ HeA) in Hq as (_ & Hq & [->| ->]); simpl in *; done. }
  assert (∀ q, edge v' sz q → q = start A ∨ q = sz + 1) as Hentry.
  { intros q Hq. apply (edge_from_eps _ _ _ _ HS eq_refl) in Hq.
    apply (eps_edge_targets _ _ _ _ HS) in Hq as (_ & Hq & [->| ->]); simpl in *; auto. }
  assert ((sz ∉ FA) ∧ ((sz + 1) ∉ FA)) as [Hsz1 Hsz2].
  { split; intros Hin; apply (pf_range _ _ _ HA) in Hin; unfold in_range in Hin; lia. }
  assert (eps_edge v' sz (start A)) as HinA.
  { eexists. split; [exact HS |]. split_and!; [done | | by left].
    unfold in_range, REF_UNDEFINED in *. simpl. lia. }
  assert (eps_edge v' sz (sz + 1)) as Hskip.
  { eexists. split; [exact HS |]. split_and!; [done | | by right].
    unfold REF_UNDEFINED. lia. }
  assert (eps_edge v' (end_ A) sz) as Hloop.
  { eexists. split; [exact HeA |]. split_and!; [done | | by left].
    unfold REF_UNDEFINED. simpl. lia. }
  split.
  - constructor; cbn [start end_].
    + set_solver.
    + set_solver.
    + intros i Hi. unfold in_range. rewrite Hsz'.
      assert (i ∈ FA ∨ i = sz ∨ i = sz + 1) as [Hi'|[->| ->]] by set_solver;
        [apply (pf_range _ _ _ HA) in Hi' | |]; unfold in_range in *; lia.
    + done.
    + intros p q Hp Hpq.
      assert (p ∈ FA ∨ p = sz ∨ p = sz + 1) as [Hp'|[->| ->]] by set_solver.
      * destruct (decide (p = end_ A)) as [->|Hne].
        { rewrite (Hexit _ Hpq). set_solver. }
        apply (edge_same v v' p q (HkA p Hp' Hne)) in Hpq.
        pose proof (pf_closed _ _ _ HA p q Hp' Hpq). set_solver.
      * destruct (Hentry _ Hpq) as [->| ->]; set_solver.
      * by destruct (no_edge_from_dead _ _ _ _ HE eq_refl Hpq).
  - intros w. unfold frag_lang. cbn [start end_]. split.
    + assert (∀ p w q, nfa_path v' p w q → q = sz + 1 →
        (p = sz → lang_star (λ w, nfa_path v (start A) w (end_ A)) w) ∧
        (p ∈ FA → ∃ w1 w2, w = w1 ++ w2 ∧ nfa_path v p w1 (end_ A) ∧
                    lang_star (λ w, nfa_path v (start A) w (end_ A)) w2)) as Hsplit;
        cycle 1.
      { intros H. by apply (Hsplit _ _ _ H). }
      intros p w0 q H. induction H as [|p q w' r He Hrest IH|p c q w' r He Hrest IH];
        intros Hq.
      * subst. split; [lia | done].
      * specialize (IH Hq) as [IH1 IH2]. split.
        -- intros ->. destruct (Hentry q) as [->| ->]; [by left | |].
           ++ destruct (IH2 HsAin) as (w1 & w2 & -> & H1 & H2). by constructor.
           ++ apply (nfa_path_dead _ _ _ _ _ HE eq_refl) in Hrest as [-> _]. constructor.
        -- intros Hp. destruct (decide (p = end_ A)) as [->|Hne].
           { assert (q = sz) as -> by (apply Hexit; by left).
             exists [], w'. split_and!; [done | constructor | by apply IH1]. }
           apply (eps_edge_same v v' p q (HkA p Hp Hne)) in He.
           destruct IH2 as (w1 & w2 & -> & H1 & H2);
             [eapply (pf_closed _ _ _ HA); [done | by left] |].
           exists w1, w2. split_and!; [done | by eapply path_eps | done].
      * assert (∀ st, vec_at v' p = Done st → rule st ≠ RULE_EPSILON) as Hnot.
        { intros st Hst. destruct He as (st' & Hst' & Hr & [Hc _] & _).
          assert (st' = st) as -> by congruence. congruence. }
        specialize (IH Hq) as [IH1 IH2]. split.
        -- intros ->. by destruct (Hnot _ HS).
        -- intros Hp. destruct (decide (p = end_ A)) as [->|Hne];
             [by destruct (Hnot _ HeA) |].
           apply (sym_edge_same v v' p c q (HkA p Hp Hne)) in He.
           destruct IH2 as (w1 & w2 & -> & H1 & H2);
             [eapply (pf_closed _ _ _ HA); [done | right; by exists c] |].
           exists (c :: w1), w2. split_and!; [done | by eapply path_sym | done].
    + intros H. induction H as [|w1 w2 H1 _ IH].
      * eapply path_eps; [exact Hskip | constructor].
      * eapply path_eps; [exact HinA |]. eapply nfa_path_app.
        { apply (nfa_path_extends v v'); [done | exact H1]. }
        eapply path_eps; [exact Hloop | exact IH].
Qed.

(** [star(A)] appends an entry and an exit, rewrites the exit of [A] and
    nothing else, and the fragment it returns reads every sequence of inputs
    of [A], the empty one included. *)
Theorem star_language (n : NFA) (A : NFASubsetRef) (FA : gset Z) :
  proper_frag (vec n) A FA →
  ∃ n',
    star A n = (Done {| start := vec_size (vec n); end_ := vec_size (vec n) + 1 |}, n') ∧
    nfa n' = {| start := vec_size (vec n); end_ := vec_size (vec n) + 1 |} ∧
    proper_frag (vec n') {| start := vec_size (vec n); end_ := vec_size (vec n) + 1 |}
      (FA ∪ {[vec_size (vec n); vec_size (vec n) + 1]}) ∧
    (∀ i, in_range (vec n) i → i ≠ end_ A → vec_at (vec n') i = vec_at (vec n) i) ∧
    ∀ w, frag_lang (vec n') {| start := vec_size (vec n); end_ := vec_size (vec n) + 1 |} w ↔
         lang_star (frag_lang (vec n) A) w.
Proof.
  intros HA.
  pose proof (pf_range _ _ _ HA _ (pf_end _ _ _ HA)) as HeA.
  eexists. split; [by apply star_run |]. cbn [vec nfa]. split; [done |].
  set (fe := λ s : NFAState,
    {| rule := RULE_EPSILON; refs := (vec_size (vec n), (refs s).2) |}).
  set (v0 := vec n ++ [ {| rule := RULE_EPSILON; refs := (start A, vec_size (vec n) + 1) |};
                        NFAState_new ]).
  assert (∀ i, in_range (vec n) i → vec_at v0 i = vec_at (vec n) i) as Hold.
  { intros i Hi. by apply vec_at_app_l. }
  assert (∀ i, in_range (vec n) i → i ≠ end_ A →
    vec_at (alter fe (Z.to_nat (end_ A)) v0) i = vec_at (vec n) i) as Hother.
  { intros i Hi H1. rewrite vec_at_alter_ne; [by apply Hold | apply HeA | done]. }
  edestruct (star_frag (vec n)) as [Hp Hl];
    [exact HA | reflexivity | | | | exact Hother | |].
  - rewrite vec_at_alter_ne; [apply vec_at_app_here | apply HeA | unfold in_range in *; lia].
  - rewrite vec_at_alter_ne; [|apply HeA | unfold in_range in *; lia].
    unfold v0. rewrite vec_at_app_r by lia. reflexivity.
  - rewrite (vec_at_alter_eq fe _ _ NFAState_new); [reflexivity |].
    rewrite Hold by done. apply (pf_exit _ _ _ HA).
  - rewrite !vec_size_alter. unfold v0. rewrite vec_size_app. reflexivity.
  - done.
Qed.

Lemma question_frag v v' (A : NFASubsetRef) (FA : gset Z) sz :
  proper_frag v A FA → vec_size v = sz →
  vec_at v' sz = Done {| rule := RULE_EPSILON; refs := (start A, end_ A) |} →
  (∀ i, in_range v i → vec_at v' i = vec_at v i) →
  vec_size v' = sz + 1 →
  proper_frag v' {| start := sz; end_ := end_ A |} (FA ∪ {[sz]}) ∧
  ∀ w, frag_lang v' {| start := sz; end_ := end_ A |} w ↔ frag_lang v A w ∨ w = [].
Proof.
  intros HA Hsz HS Hold Hsz'.
  pose proof (pf_end _ _ _ HA) as HeAin. pose proof (pf_start _ _ _ HA) as HsAin.
  pose proof (vec_size_nonneg v) as Hnn.
  pose proof (pf_range _ _ _ HA _ HsAin) as HsArng.
  pose proof (pf_range _ _ _ HA _ HeAin) as HeArng.
  assert (keeps v v' FA) as HkA.
  { intros p Hp. apply Hold. by apply (pf_range _ _ _ HA). }
  assert (vec_at v' (end_ A) = Done NFAState_new) as HE.
  { rewrite (HkA _ HeAin). apply (pf_exit _ _ _ HA). }
  assert (∀ q, edge v' sz q → q = start A ∨ q = end_ A) as Hentry.
  { intros q Hq. apply (edge_from_eps _ _ _ _ HS eq_refl) in Hq.
    apply (eps_edge_targets _ _ _ _ HS) in Hq as (_ & Hq & [->| ->]); simpl in *; auto. }
  assert (∀ s, in_range v s → s = start A ∨ s = end_ A → eps_edge v' sz s) as Hin.
  { intros s Hs Hor. eexists. split; [exact HS |]. split_and!; [done | | done].
    unfold in_range, REF_UNDEFINED in *. lia. }
  split.
  - constructor; cbn [start end_].
    + set_solver.
    + set_solver.
    + intros i Hi. unfold in_range. rewrite Hsz'.
      assert (i ∈ FA ∨ i = sz) as [Hi'| ->] by set_solver;
        [apply (pf_range _ _ _ HA) in Hi' |]; unfold in_range in *; lia.
    + done.
    + intros p q Hp Hpq.
      assert (p ∈ FA ∨ p = sz) as [Hp'| ->] by set_solver.
      * apply (edge_same v v' p q (HkA p Hp')) in Hpq.
        pose proof (pf_closed _ _ _ HA p q Hp' Hpq). set_solver.
      * destruct (Hentry _ Hpq) as [->| ->]; set_solver.
  - intros w. unfold frag_lang. cbn [start end_]. split.
    + intros H. inversion H as [|p q w' r' He Hrest|p c' q w' r' He Hrest]; subst.
      * unfold in_range in *. lia.
      * destruct (Hentry q) as [->| ->]; [by left | |].
        -- left. by apply (nfa_path_keeps v v' FA _ _ _ HkA (pf_closed _ _ _ HA) HsAin).
        -- right. by apply (nfa_path_dead _ _ _ _ _ HE eq_refl) in Hrest as [-> _].
      * destruct He as (st & Hst & Hr & [Hc _] & _).
        assert (st = {| rule := RULE_EPSILON; refs := (start A, end_ A) |}) as -> by congruence.
        simpl in Hr. congruence.
    + intros [Hw| ->].
      * eapply path_eps; [apply (Hin (start A)); [done | by left] |].
        by apply (nfa_path_keeps v v' FA _ _ _ HkA (pf_closed _ _ _ HA) HsAin).
      * eapply path_eps; [apply (Hin (end_ A)); [done | by right] | constructor].
Qed.

(** [question(A)] appends an entry, rewrites no state, keeps the exit of [A]
    as its exit, and the fragment it returns reads the inputs of [A] and the
    empty input. *)
Theorem question_language (n : NFA) (A : NFASubsetRef) (FA : gset Z) :
  proper_frag (vec n) A FA →
  ∃ n',
    question A n = (Done {| start := vec_size (vec n); end_ := end_ A |}, n') ∧
    nfa n' = {| start := vec_size (vec n); end_ := end_ A |} ∧
    proper_frag (vec n') {| start := vec_size (vec n); end_ := end_ A |}
      (FA ∪ {[vec_size (vec n)]}) ∧
    (∀ i, in_range (vec n) i → vec_at (vec n') i = vec_at (vec n) i) ∧
    ∀ w, frag_lang (vec n') {| start := vec_size (vec n); end_ := end_ A |} w ↔
         frag_lang (vec n) A w ∨ w = [].
Proof.
  intros HA. eexists. split; [by apply question_run |]. cbn [vec nfa]. split; [done |].
  assert (∀ i, in_range (vec n) i →
    vec_at (vec n ++ [ {| rule := RULE_EPSILON; refs := (start A, end_ A) |} ]) i
      = vec_at (vec n) i) as Hold.
  { intros i Hi. by apply vec_at_app_l. }
  edestruct (question_frag (vec n)) as [Hp Hl];
    [exact HA | reflexivity | apply vec_at_app_here | exact Hold | |].
  - rewrite vec_size_app. reflexivity.
  - done.
Qed.

(** ** Epsilon cycles under the combinators *)

Lemma tc_split {A} (R R' N : relation A) p q :
  (∀ x y, R' x y → R x y ∨ N x y) →
  tc R' p q →
  tc R p q ∨ ∃ x y, N x y ∧ rtc R' p x ∧ rtc R' y q.
Proof.
  intros Hsub H. induction H as [p q Hpq|p y q Hpy Hyq IH].
  - destruct (Hsub _ _ Hpq) as [?|?]; [left; by apply tc_once |].
    right. exists p, q. split_and!; [done | apply rtc_refl..].
  - destruct (Hsub _ _ Hpy) as [Hold|Hnew].
    + destruct IH as [IH|(x & z & HN & Hpx & Hzq)]; [left; by eapply tc_l |].
      right. exists x, z. split_and!; [done | | done]. by eapply rtc_l.
    + right. exists p, y. split_and!; [done | apply rtc_refl | by apply tc_rtc].
Qed.

Lemma cycle_split (v v' : list NFAState) (N : relation Z) :
  (∀ x y, eps_edge v' x y → eps_edge v x y ∨ N x y) →
  eps_cycle v' →
  eps_cycle v ∨ ∃ x y, N x y ∧ eps_reach v' y x.
Proof.
  intros Hsub [p Hp].
  destruct (tc_split (eps_edge v) (eps_edge v') N p p Hsub Hp) as [?|(x & y & HN & Hpx & Hyp)].
  - left. by exists p.
  - right. exists x, y. split; [done |]. unfold eps_reach. by etrans.
Qed.

Lemma eps_reach_inside nss (F : gset Z) p q :
  (∀ p q, p ∈ F → edge nss p q → q ∈ F) → p ∈ F → eps_reach nss p q → q ∈ F.
Proof. intros Hcl Hp Hr. apply nfa_path_nil in Hr. by eapply nfa_path_inside. Qed.

Lemma eps_reach_dead nss p q st :
  vec_at nss p = Done st → rule st = RULE_UNDEFINED → eps_reach nss p q → q = p.
Proof.
  intros Hst Hr Hreach. apply nfa_path_nil in Hreach.
  by apply (nfa_path_dead _ _ _ _ _ Hst Hr) in Hreach as [_ ?].
Qed.

Lemma eps_cycle_extends v v' : extends v v' → eps_cycle v → eps_cycle v'.
Proof.
  intros Hext [p Hp]. exists p. eapply tc_congruence with (f := id); [|done].
  intros x y (st & Hst & Hr & ?). exists st. split; [|done].
  apply Hext; [done |]. rewrite Hr. done.
Qed.

(** From inside a fragment whose states other than the exit are kept, a path
    to the exit, or to a state outside, first reaches the exit by a path of
    the old arena. *)
Lemma exit_first v v' (X : NFASubsetRef) (FX : gset Z) :
  proper_frag v X FX →
  (∀ p, p ∈ FX → p ≠ end_ X → vec_at v' p = vec_at v p) →
  ∀ p w q, nfa_path v' p w q → p ∈ FX → (q = end_ X ∨ q ∉ FX) →
  ∃ w1 w2, w = w1 ++ w2 ∧ nfa_path v p w1 (end_ X) ∧ nfa_path v' (end_ X) w2 q.
Proof.
  intros HX HkX p w q H.
  induction H as [p|p q w' r He Hrest IH|p c q w' r He Hrest IH]; intros Hp Hq.
  - assert (p = end_ X) as -> by (by destruct Hq).
    exists [], []. split_and!; [done | constructor..].
  - destruct (decide (p = end_ X)) as [->|Hne].
    { exists [], w'. split_and!; [done | constructor | by eapply path_eps]. }
    apply (eps_edge_same v v' p q (HkX p Hp Hne)) in He.
    destruct IH as (w1 & w2 & -> & H1 & H2);
      [eapply (pf_closed _ _ _ HX); [done | by left] | done |].
    exists w1, w2. split_and!; [done | by eapply path_eps | done].
  - destruct (decide (p = end_ X)) as [->|Hne].
    { exists [], (c :: w'). split_and!; [done | constructor | by eapply path_sym]. }
    apply (sym_edge_same v v' p c q (HkX p Hp Hne)) in He.
    destruct IH as (w1 & w2 & -> & H1 & H2);
      [eapply (pf_closed _ _ _ HX); [done | right; by exists c] | done |].
    exists (c :: w1), w2. split_and!; [done | by eapply path_sym | done].
Qed.

Lemma literal_acyclic v v' sz c :
  vec_size v = sz →
  vec_at v' sz = Done {| rule := c; refs := (sz + 1, REF_UNDEFINED) |} →
  vec_at v' (sz + 1) = Done NFAState_new →
  (∀ i, in_range v i → vec_at v' i = vec_at v i) →
  vec_size v' = sz + 2 →
  eps_cycle v' → eps_cycle v.
Proof.
  intros Hsz HS HE Hold Hsz' Hcyc.
  destruct (cycle_split v v' (λ x y, eps_edge v' x y ∧ ¬ in_range v x))
    as [?|(x & y & [He Hx] & Hr)]; [|done..|].
  { intros x y He. destruct (decide (0 ≤ x < vec_size v)) as [Hx|Hx]; [|by right].
    left. by apply (eps_edge_same v v' x y (Hold x Hx)). }
  exfalso.
  pose proof (eps_edge_source _ _ _ He) as Hx'. unfold in_range in *.
  assert (x = sz ∨ x = sz + 1) as [->| ->] by lia.
  - apply (eps_edge_targets _ _ _ _ HS) in He as (_ & Hy & [->| ->]); simpl in *; [|done].
    apply (eps_reach_dead _ _ _ _ HE eq_refl) in Hr. lia.
  - destruct (no_edge_from_dead _ _ y _ HE eq_refl). by left.
Qed.

Lemma link_acyclic v v' (A B : NFASubsetRef) (FA FB : gset Z) :
  proper_frag v A FA → proper_frag v B FB → FA ## FB →
  vec_at v' (end_ A) = Done {| rule := RULE_EPSILON; refs := (start B, REF_UNDEFINED) |} →
  (∀ i, in_range v i → i ≠ end_ A → vec_at v' i = vec_at v i) →
  vec_size v' = vec_size v →
  eps_cycle v' → eps_cycle v.
Proof.
  intros HA HB Hdisj HeA Hother Hsz' Hcyc.
  pose proof (pf_end _ _ _ HA) as HeAin.
  assert (keeps v v' FB) as HkB.
  { intros i Hi. apply Hother; [by apply (pf_range _ _ _ HB) |].
    intros ->. by apply (Hdisj (end_ A)). }
  destruct (cycle_split v v' (λ x y, eps_edge v' x y ∧ x = end_ A))
    as [?|(x & y & [He ->] & Hr)]; [|done..|].
  { intros x y He. destruct (decide (x = end_ A)) as [->|Hne]; [by right |].
    left. apply (eps_edge_same v v' x y); [|done]. apply Hother; [|done].
    apply eps_edge_source in He. unfold in_range in *. lia. }
  exfalso.
  apply (eps_edge_targets _ _ _ _ HeA) in He as (_ & Hy & [->| ->]); simpl in *; [|done].
  apply (Hdisj (end_ A)); [done |].
  eapply (eps_reach_inside v' FB (start B)); [|apply (pf_start _ _ _ HB) | done].
  intros p q Hp Hpq. eapply (pf_closed _ _ _ HB); [done |].
  by apply (edge_same v v' p q (HkB p Hp)).
Qed.

Lemma select_acyclic v v' (A B : NFASubsetRef) (FA FB : gset Z) sz :
  proper_frag v A FA → proper_frag v B FB → FA ## FB → vec_size v = sz →
  vec_at v' sz = Done {| rule := RULE_EPSILON; refs := (start A, start B) |} →
  vec_at v' (sz + 1) = Done NFAState_new →
  vec_at v' (end_ A) = Done {| rule := RULE_EPSILON; refs := (sz + 1, REF_UNDEFINED) |} →
  vec_at v' (end_ B) = Done {| rule := RULE_EPSILON; refs := (sz + 1, REF_UNDEFINED) |} →
  (∀ i, in_range v i → i ≠ end_ A → i ≠ end_ B → vec_at v' i = vec_at v i) →
  vec_size v' = sz + 2 →
  eps_cycle v' → eps_cycle v.
Proof.
  intros HA HB Hdisj Hsz HS HE HeA HeB Hother Hsz' Hcyc.
  pose proof (pf_end _ _ _ HA) as HeAin. pose proof (pf_end _ _ _ HB) as HeBin.
  pose proof (pf_range _ _ _ HA _ HeAin) as HeArng.
  pose proof (pf_range _ _ _ HB _ HeBin) as HeBrng.
  destruct (select_frag v v' A B FA FB sz) as [Hp _]; [done..|].
  destruct (cycle_split v v'
              (λ x y, eps_edge v' x y ∧ (x = sz ∨ x = end_ A ∨ x = end_ B)))
    as [?|(x & y & [He Hx] & Hr)]; [|done..|].
  { intros x y He.
    destruct (decide (x = sz ∨ x = end_ A ∨ x = end_ B)) as [?|Hne]; [by right |].
    left. apply (eps_edge_same v v' x y); [|done].
    assert (x ≠ sz + 1).
    { intros ->. destruct (no_edge_from_dead _ _ y _ HE eq_refl). by left. }
    apply Hother; [|tauto..]. apply eps_edge_source in He. unfold in_range in *. lia. }
  exfalso.
  assert (∀ e, in_range v e →
    vec_at v' e = Done {| rule := RULE_EPSILON; refs := (sz + 1, REF_UNDEFINED) |} →
    eps_edge v' e y → eps_reach v' y e → False) as Hexit.
  { intros e Herng Hst He' Hr'.
    apply (eps_edge_targets _ _ _ _ Hst) in He' as (_ & Hy & [->| ->]); simpl in *; [|done].
    apply (eps_reach_dead _ _ _ _ HE eq_refl) in Hr'. unfold in_range in *. lia. }
  destruct Hx as [->|[->| ->]];
    [|exact (Hexit _ HeArng HeA He Hr) | exact (Hexit _ HeBrng HeB He Hr)].
  (* the entry: nothing leads back to it *)
  assert (∀ p q, p ∈ FA ∪ FB ∪ {[sz + 1]} → edge v' p q → q ∈ FA ∪ FB ∪ {[sz + 1]}) as Hcl.
  { intros p q Hp0 Hpq.
    assert (q ∈ FA ∪ FB ∪ {[sz; sz + 1]}) as Hq.
    { eapply (pf_closed _ _ _ Hp); [|done]. set_solver. }
    assert (q ≠ sz); [|set_solver].
    intros ->. assert (p ∈ FA ∨ p ∈ FB ∨ p = sz + 1) as [Hp'|[Hp'| ->]] by set_solver.
    - destruct (decide (p = end_ A)) as [->|Hne].
      + apply (edge_from_eps _ _ _ _ HeA eq_refl) in Hpq.
        apply (eps_edge_targets _ _ _ _ HeA) in Hpq as (_ & Hy & [Heq|Heq]); simpl in *;
          [lia | done].
      + assert (vec_at v' p = vec_at v p) as Hsame.
        { apply Hother; [by apply (pf_range _ _ _ HA) | done |].
          intros ->. by apply (Hdisj (end_ B)). }
        apply (edge_same v v' p sz Hsame) in Hpq.
        apply (pf_closed _ _ _ HA p _ Hp') in Hpq.
        apply (pf_range _ _ _ HA) in Hpq. unfold in_range in Hpq. lia.
    - destruct (decide (p = end_ B)) as [->|Hne].
      + apply (edge_from_eps _ _ _ _ HeB eq_refl) in Hpq.
        apply (eps_edge_targets _ _ _ _ HeB) in Hpq as (_ & Hy & [Heq|Heq]); simpl in *;
          [lia | done].
      + assert (vec_at v' p = vec_at v p) as Hsame.
        { apply Hother; [by apply (pf_range _ _ _ HB) | | done].
          intros ->. by apply (Hdisj (end_ A)). }
        apply (edge_same v v' p sz Hsame) in Hpq.
        apply (pf_closed _ _ _ HB p _ Hp') in Hpq.
        apply (pf_range _ _ _ HB) in Hpq. unfold in_range in Hpq. lia.
    - by destruct (no_edge_from_dead _ _ _ _ HE eq_refl Hpq). }
  assert (y ∈ FA ∪ FB ∪ {[sz + 1]}) as Hy.
  { apply (eps_edge_targets _ _ _ _ HS) in He as (_ & _ & [->| ->]); simpl.
    - pose proof (pf_start _ _ _ HA). set_solver.
    - pose proof (pf_start _ _ _ HB). set_solver. }
  pose proof (eps_reach_inside v' _ y sz Hcl Hy Hr) as Hin.
  assert (sz ∈ FA ∨ sz ∈ FB ∨ sz = sz + 1) as [Hin'|[Hin'|?]] by set_solver; [| |lia].
  - apply (pf_range _ _ _ HA) in Hin'. unfold in_range in Hin'. lia.
  - apply (pf_range _ _ _ HB) in Hin'. unfold in_range in Hin'. lia.
Qed.

Lemma question_acyclic v v' (A : NFASubsetRef) (FA : gset Z) sz :
  proper_frag v A FA → vec_size v = sz →
  vec_at v' sz = Done {| rule := RULE_EPSILON; refs := (start A, end_ A) |} →
  (∀ i, in_range v i → vec_at v' i = vec_at v i) →
  vec_size v' = sz + 1 →
  eps_cycle v' → eps_cycle v.
Proof.
  intros HA Hsz HS Hold Hsz' Hcyc.
  assert (keeps v v' FA) as HkA.
  { intros p Hp. apply Hold. by apply (pf_range _ _ _ HA). }
  destruct (cycle_split v v' (λ x y, eps_edge v' x y ∧ x = sz))
    as [?|(x & y & [He ->] & Hr)]; [|done..|].
  { intros x y He. destruct (decide (x = sz)) as [->|Hne]; [by right |].
    left. apply (eps_edge_same v v' x y); [|done]. apply Hold.
    apply eps_edge_source in He. unfold in_range in *. lia. }
  exfalso.
  assert (y ∈ FA) as Hy.
  { apply (eps_edge_targets _ _ _ _ HS) in He as (_ & _ & [->| ->]); simpl;
      [apply (pf_start _ _ _ HA) | apply (pf_end _ _ _ HA)]. }
  assert (sz ∈ FA) as Hin.
  { eapply (eps_reach_inside v' FA y); [|done..].
    intros p q Hp Hpq. eapply (pf_closed _ _ _ HA); [done |].
    by apply (edge_same v v' p q (HkA p Hp)). }
  apply (pf_range _ _ _ HA) in Hin. unfold in_range in Hin. lia.
Qed.

(** After [star(A)] the arena has an epsilon cycle exactly when it had one
    before or [A] reads the empty input. *)
Lemma star_cycle v v' (A : NFASubsetRef) (FA : gset Z) sz :
  proper_frag v A FA → vec_size v = sz →
  vec_at v' sz = Done {| rule := RULE_EPSILON; refs := (start A, sz + 1) |} →
  vec_at v' (sz + 1) = Done NFAState_new →
  vec_at v' (end_ A) = Done {| rule := RULE_EPSILON; refs := (sz, REF_UNDEFINED) |} →
  (∀ i, in_range v i → i ≠ end_ A → vec_at v' i = vec_at v i) →
  vec_size v' = sz + 2 →
  eps_cycle v' ↔ eps_cycle v ∨ frag_lang v A [].
Proof.
  intros HA Hsz HS HE HeA Hother Hsz'.
  pose proof (pf_end _ _ _ HA) as HeAin. pose proof (pf_start _ _ _ HA) as HsAin.
  pose proof (pf_range _ _ _ HA _ HeAin) as HeArng.
  pose proof (pf_range _ _ _ HA _ HsAin) as HsArng.
  pose proof (vec_size_nonneg v) as Hnn.
  assert (∀ p, p ∈ FA → p ≠ end_ A → vec_at v' p = vec_at v p) as HkA.
  { intros p Hp Hne. apply Hother; [by apply (pf_range _ _ _ HA) | done]. }
  assert (extends v v') as Hext by exact (exit_linked_extends v v' A FA HA Hother).
  assert (eps_edge v' sz (start A)) as HinA.
  { eexists. split; [exact HS |]. split_and!; [done | | by left].
    unfold in_range, REF_UNDEFINED in *. simpl. lia. }
  assert (eps_edge v' (end_ A) sz) as Hloop.
  { eexists. split; [exact HeA |]. split_and!; [done | | by left].
    unfold REF_UNDEFINED. simpl. lia. }
  assert (sz ∉ FA) as HszF.
  { intros Hin. apply (pf_range _ _ _ HA) in Hin. unfold in_range in Hin. lia. }
  split.
  - intros Hcyc.
    destruct (cycle_split v v' (λ x y, eps_edge v' x y ∧ (x = sz ∨ x = end_ A)))
      as [?|(x & y & [He Hx] & Hr)]; [|done|by left|].
    { intros x y He. destruct (decide (x = sz ∨ x = end_ A)) as [?|Hne]; [by right |].
      left. apply (eps_edge_same v v' x y); [|done].
      assert (x ≠ sz + 1).
      { intros ->. destruct (no_edge_from_dead _ _ y _ HE eq_refl). by left. }
      apply Hother; [|tauto]. apply eps_edge_source in He. unfold in_range in *. lia. }
    right. unfold frag_lang. apply nfa_path_nil in Hr.
    destruct Hx as [->| ->].
    + apply (eps_edge_targets _ _ _ _ HS) in He as (_ & _ & [->| ->]); simpl in *.
      * destruct (exit_first v v' A FA HA HkA _ _ _ Hr HsAin) as (w1 & w2 & Hw & H1 & _);
          [by right |].
        symmetry in Hw. apply app_eq_nil in Hw as [-> _]. done.
      * apply (nfa_path_dead _ _ _ _ _ HE eq_refl) in Hr as [_ ?]. lia.
    + apply (eps_edge_targets _ _ _ _ HeA) in He as (_ & Hy & [->| ->]); simpl in *; [|done].
      inversion Hr as [|p q w' r' He' Hrest|]; subst; [unfold in_range in *; lia |].
      apply (eps_edge_targets _ _ _ _ HS) in He' as (_ & _ & [->| ->]); simpl in *.
      * destruct (exit_first v v' A FA HA HkA _ _ _ Hrest HsAin) as (w1 & w2 & Hw & H1 & _);
          [by left |].
        symmetry in Hw. apply app_eq_nil in Hw as [-> _]. done.
      * apply (nfa_path_dead _ _ _ _ _ HE eq_refl) in Hrest as [_ ?].
        unfold in_range in *. lia.
  - intros [Hcyc|Hnull]; [by eapply eps_cycle_extends |].
    exists sz. eapply tc_l; [exact HinA |]. eapply tc_rtc_l; [|by apply tc_once].
    apply nfa_path_nil. by apply (nfa_path_extends v v').
Qed.

Lemma link_lookups n (A B : NFASubsetRef) (FA : gset Z) :
  proper_frag (vec n) A FA →
  vec_at (vec (link A B n).2) (end_ A)
    = Done {| rule := RULE_EPSILON; refs := (start B, REF_UNDEFINED) |} ∧
  (∀ i, in_range (vec n) i → i ≠ end_ A →
        vec_at (vec (link A B n).2) i = vec_at (vec n) i) ∧
  vec_size (vec (link A B n).2) = vec_size (vec n).
Proof.
  intros HA. pose proof (pf_range _ _ _ HA _ (pf_end _ _ _ HA)) as HeA.
  rewrite link_run by done. cbn [snd vec]. split_and!.
  - by rewrite (vec_at_alter_eq _ _ _ _ (pf_exit _ _ _ HA)).
  - intros i _ Hne. apply vec_at_alter_ne; [apply HeA | done].
  - by rewrite vec_size_alter.
Qed.

Lemma select_lookups n (A B : NFASubsetRef) (FA FB : gset Z) :
  proper_frag (vec n) A FA → proper_frag (vec n) B FB → FA ## FB →
  vec_at (vec (select A B n).2) (vec_size (vec n))
    = Done {| rule := RULE_EPSILON; refs := (start A, start B) |} ∧
  vec_at (vec (select A B n).2) (vec_size (vec n) + 1) = Done NFAState_new ∧
  vec_at (vec (select A B n).2) (end_ A)
    = Done {| rule := RULE_EPSILON; refs := (vec_size (vec n) + 1, REF_UNDEFINED) |} ∧
  vec_at (vec (select A B n).2) (end_ B)
    = Done {| rule := RULE_EPSILON; refs := (vec_size (vec n) + 1, REF_UNDEFINED) |} ∧
  (∀ i, in_range (vec n) i → i ≠ end_ A → i ≠ end_ B →
        vec_at (vec (select A B n).2) i = vec_at (vec n) i) ∧
  vec_size (vec (select A B n).2) = vec_size (vec n) + 2.
Proof.
  intros HA HB Hdisj.
  pose proof (pf_range _ _ _ HA _ (pf_end _ _ _ HA)) as HeA.
  pose proof (pf_range _ _ _ HB _ (pf_end _ _ _ HB)) as HeB.
  pose proof (pf_end _ _ _ HA) as HeAin. pose proof (pf_end _ _ _ HB) as HeBin.
  assert (end_ A ≠ end_ B) as Hne.
  { intros Heq. apply (Hdisj (end_ B)); [by rewrite <- Heq | done]. }
  rewrite select_run by done. cbn [snd vec].
  set (fe := λ s : NFAState,
    {| rule := RULE_EPSILON; refs := (vec_size (vec n) + 1, (refs s).2) |}).
  set (v0 := vec n ++ [ {| rule := RULE_EPSILON; refs := (start A, start B) |}; NFAState_new ]).
  assert (∀ i, i ≠ end_ A → i ≠ end_ B →
    vec_at (alter fe (Z.to_nat (end_ B)) (alter fe (Z.to_nat (end_ A)) v0)) i = vec_at v0 i)
    as Hne2.
  { intros i H1 H2. rewrite vec_at_alter_ne; [|apply HeB | done].
    apply vec_at_alter_ne; [apply HeA | done]. }
  assert (∀ i, in_range (vec n) i → vec_at v0 i = vec_at (vec n) i) as Hold.
  { intros i Hi. by apply vec_at_app_l. }
  split_and!.
  - rewrite Hne2; [apply vec_at_app_here | unfold in_range in *; lia..].
  - rewrite Hne2; [|unfold in_range in *; lia..].
    unfold v0. rewrite vec_at_app_r by lia. reflexivity.
  - rewrite vec_at_alter_ne; [|apply HeB | done].
    rewrite (vec_at_alter_eq fe _ _ NFAState_new); [reflexivity |].
    rewrite Hold by done. apply (pf_exit _ _ _ HA).
  - rewrite (vec_at_alter_eq fe _ _ NFAState_new); [reflexivity |].
    rewrite vec_at_alter_ne; [|apply HeA | done]. rewrite Hold by done. apply (pf_exit _ _ _ HB).
  - intros i Hi H1 H2. by rewrite Hne2, Hold.
  - rewrite !vec_size_alter. unfold v0. rewrite vec_size_app. reflexivity.
Qed.

Lemma star_lookups n (A : NFASubsetRef) (FA : gset Z) :
  proper_frag (vec n) A FA →
  vec_at (vec (star A n).2) (vec_size (vec n))
    = Done {| rule := RULE_EPSILON; refs := (start A, vec_size (vec n) + 1) |} ∧
  vec_at (vec (star A n).2) (vec_size (vec n) + 1) = Done NFAState_new ∧
  vec_at (vec (star A n).2) (end_ A)
    = Done {| rule := RULE_EPSILON; refs := (vec_size (vec n), REF_UNDEFINED) |} ∧
  (∀ i, in_range (vec n) i → i ≠ end_ A →
        vec_at (vec (star A n).2) i = vec_at (vec n) i) ∧
  vec_size (vec (star A n).2) = vec_size (vec n) + 2.
Proof.
  intros HA. pose proof (pf_range _ _ _ HA _ (pf_end _ _ _ HA)) as HeA.
  rewrite star_run by done. cbn [snd vec].
  set (fe := λ s : NFAState,
    {| rule := RULE_EPSILON; refs := (vec_size (vec n), (refs s).2) |}).
  set (v0 := vec n ++ [ {| rule := RULE_EPSILON; refs := (start A, vec_size (vec n) + 1) |};
                        NFAState_new ]).
  assert (∀ i, in_range (vec n) i → vec_at v0 i = vec_at (vec n) i) as Hold.
  { intros i Hi. by apply vec_at_app_l. }
  split_and!.
  - rewrite vec_at_alter_ne; [apply vec_at_app_here | apply HeA | unfold in_range in *; lia].
  - rewrite vec_at_alter_ne; [|apply HeA | unfold in_range in *; lia].
    unfold v0. rewrite vec_at_app_r by lia. reflexivity.
  - rewrite (vec_at_alter_eq fe _ _ NFAState_new); [reflexivity |].
    rewrite Hold by done. apply (pf_exit _ _ _ HA).
  - intros i Hi H1. rewrite vec_at_alter_ne; [by apply Hold | apply HeA | done].
  - rewrite !vec_size_alter. unfold v0. rewrite vec_size_app. reflexivity.
Qed.

Lemma question_lookups n (A : NFASubsetRef) :
  vec_at (vec (question A n).2) (vec_size (vec n))
    = Done {| rule := RULE_EPSILON; refs := (start A, end_ A) |} ∧
  (∀ i, in_range (vec n) i → vec_at (vec (question A n).2) i = vec_at (vec n) i) ∧
  vec_size (vec (question A n).2) = vec_size (vec n) + 1.
Proof.
  rewrite question_run. cbn [snd vec]. split_and!.
  - apply vec_at_app_here.
  - intros i Hi. by apply vec_at_app_l.
  - rewrite vec_size_app. reflexivity.
Qed.

(** On an arena with two proper fragments [A] and [B] whose footprints are
    disjoint: [ch(c)], [link(A, B)], [select(A, B)] and [question(A)] add no
    epsilon cycle to the arena, and after [star(A)] the arena has an epsilon
    cycle exactly when it had one before or [A] reads the empty input. Of
    fragments that share states this does not hold: [link(A, A)] closes a
    cycle when [A] reads the empty input. *)
Theorem combinators_and_cycles (n : NFA) (c : Z) (A B : NFASubsetRef) (FA FB : gset Z) :
  proper_frag (vec n) A FA → proper_frag (vec n) B FB → FA ## FB →
  (eps_cycle (vec (ch c n).2) → eps_cycle (vec n)) ∧
  (eps_cycle (vec (link A B n).2) → eps_cycle (vec n)) ∧
  (eps_cycle (vec (select A B n).2) → eps_cycle (vec n)) ∧
  (eps_cycle (vec (question A n).2) → eps_cycle (vec n)) ∧
  (eps_cycle (vec (star A n).2) ↔ eps_cycle (vec n) ∨ frag_lang (vec n) A []).
Proof.
  intros HA HB Hdisj. split_and!.
  - destruct (ch_lookups c n) as (HS & HE & Hold & Hsz).
    exact (literal_acyclic (vec n) _ _ c eq_refl HS HE Hold Hsz).
  - destruct (link_lookups n A B FA HA) as (HeA & Hother & Hsz).
    exact (link_acyclic (vec n) _ A B FA FB HA HB Hdisj HeA Hother Hsz).
  - destruct (select_lookups n A B FA FB HA HB Hdisj) as (HS & HE & HeA & HeB & Hother & Hsz).
    exact (select_acyclic (vec n) _ A B FA FB _ HA HB Hdisj eq_refl HS HE HeA HeB Hother Hsz).
  - destruct (question_lookups n A) as (HS & Hold & Hsz).
    exact (question_acyclic (vec n) _ A FA _ HA eq_refl HS Hold Hsz).
  - destruct (star_lookups n A FA HA) as (HS & HE & HeA & Hother & Hsz).
    exact (star_cycle (vec n) _ A FA _ HA eq_refl HS HE HeA Hother Hsz).
Qed.

(** ** Constructions compose *)

Lemma extends_of_old v v' :
  (∀ i, in_range v i → vec_at v' i = vec_at v i) → extends v v'.
Proof. intros Hold p st Hst _. rewrite <- Hst. apply Hold. by eapply vec_at_in_range. Qed.

Lemma frag_after v1 v2 r F :
  proper_frag v1 r F →
  (∀ i, in_range v1 i → vec_at v2 i = vec_at v1 i) →
  proper_frag v2 r F ∧ ∀ w, frag_lang v2 r w ↔ frag_lang v1 r w.
Proof.
  intros Hp Hold. apply proper_frag_keeps; [done |].
  intros i Hi. apply Hold. by apply (pf_range _ _ _ Hp).
Qed.

Lemma proper_frag_ok n r F : proper_frag (vec n) r F → frag_ok n r.
Proof.
  intros Hp. split; apply (pf_range _ _ _ Hp);
    [apply (pf_start _ _ _ Hp) | apply (pf_end _ _ _ Hp)].
Qed.

Lemma mbind_run {A B} (m : M A) (k : A → M B) n a n' :
  m n = (Done a, n') → (m ≫= k) n = k a n'.
Proof. intros H. unfold mbind, M_bind. by rewrite H. Qed.

Lemma builds_ext m m' (L L' : list Z → Prop) (C C' : Prop) :
  (∀ n, m n = m' n) → (∀ w, L w ↔ L' w) → (C ↔ C') →
  builds m L C → builds m' L' C'.
Proof.
  intros Hm HL HC H n Hv.
  destruct (H n Hv) as (r & n' & F & Hrun & Hnfa & Hv' & Hp & HF & Hold & Hsz & Hc & Hl).
  exists r, n', F. rewrite <- Hm. split_and!; try done.
  - by rewrite Hc, HC.
  - intros w. by rewrite Hl, HL.
Qed.

Lemma builds_ch c : builds (ch c) (char_lang c) False.
Proof.
  intros n Hv. destruct (ch_ok c n Hv) as (r & n' & Hrun & Hnfa & Hv' & _ & _ & Hsz).
  destruct (ch_lookups c n) as (HS & HE & Hold & _).
  assert (r = {| start := vec_size (vec n); end_ := vec_size (vec n) + 1 |}) as ->.
  { pose proof (ch_run c n) as E. rewrite Hrun in E. congruence. }
  rewrite Hrun in HS, HE, Hold. cbn [snd] in HS, HE, Hold.
  pose proof (vec_size_nonneg (vec n)) as Hnn.
  destruct (literal_frag (vec n') (vec_size (vec n)) c Hnn HS HE Hsz) as [Hp HL].
  eexists _, n', _. split_and!; try done.
  - intros i Hi. set_unfold in Hi. lia.
  - lia.
  - split.
    + intros Hc. left. exact (literal_acyclic (vec n) _ _ c eq_refl HS HE Hold Hsz Hc).
    + intros [Hc|[]]. exact (eps_cycle_extends _ _ (extends_of_old _ _ Hold) Hc).
Qed.

(** Two constructions run one after the other: the fragments of both are
    fragments of the last arena, and share no state. *)
Lemma builds_two a b (La Lb : list Z → Prop) (Ca Cb : Prop) :
  builds a La Ca → builds b Lb Cb →
  ∀ n, arena_ok (vec n) →
  ∃ A n1 B n2 FA FB,
    a n = (Done A, n1) ∧ b n1 = (Done B, n2) ∧ arena_ok (vec n2) ∧
    proper_frag (vec n2) A FA ∧ proper_frag (vec n2) B FB ∧ FA ## FB ∧
    (∀ i, i ∈ FA ∪ FB → vec_size (vec n) ≤ i) ∧
    (∀ i, in_range (vec n) i → vec_at (vec n2) i = vec_at (vec n) i) ∧
    vec_size (vec n) ≤ vec_size (vec n2) ∧
    (eps_cycle (vec n2) ↔ eps_cycle (vec n) ∨ (Ca ∨ Cb)) ∧
    (∀ w, frag_lang (vec n2) A w ↔ La w) ∧ (∀ w, frag_lang (vec n2) B w ↔ Lb w).
Proof.
  intros Ha Hb n Hv.
  destruct (Ha n Hv) as (A & n1 & FA & H1 & _ & Hv1 & HpA & HFA & Hold1 & Hsz1 & Hc1 & HLA).
  destruct (Hb n1 Hv1) as (B & n2 & FB & H2 & _ & Hv2 & HpB & HFB & Hold2 & Hsz2 & Hc2 & HLB).
  destruct (frag_after _ _ _ _ HpA Hold2) as [HpA' HLA'].
  exists A, n1, B, n2, FA, FB. split_and!; try done.
  - intros i Hi1 Hi2. apply (pf_range _ _ _ HpA) in Hi1. apply HFB in Hi2.
    unfold in_range in Hi1. lia.
  - intros i [Hi|Hi]%elem_of_union; [by apply HFA |]. apply HFB in Hi. lia.
  - intros i Hi. rewrite Hold2; [by apply Hold1 |]. unfold in_range in *. lia.
  - lia.
  - rewrite Hc2, Hc1. tauto.
  - intros w. by rewrite HLA'.
Qed.

Lemma builds_link a b (La Lb : list Z → Prop) (Ca Cb : Prop) :
  builds a La Ca → builds b Lb Cb →
  builds (x ← a; y ← b; link x y) (lang_cat La Lb) (Ca ∨ Cb).
Proof.
  intros Ha Hb n Hv.
  destruct (builds_two a b La Lb Ca Cb Ha Hb n Hv)
    as (A & n1 & B & n2 & FA & FB & H1 & H2 & Hv2 & HpA & HpB & Hdisj & HF & Hold & Hsz
        & Hc & HLA & HLB).
  destruct (link_ok A B n2 Hv2 (proper_frag_ok _ _ _ HpA) (proper_frag_ok _ _ _ HpB))
    as (r & n3 & H3 & Hnfa & Hv3 & _ & -> & Hsz3).
  destruct (link_lookups n2 A B FA HpA) as (HE & Hold3 & _).
  rewrite H3 in HE, Hold3. cbn [snd] in HE, Hold3.
  destruct (link_frag _ _ A B FA FB HpA HpB Hdisj HE Hold3) as [Hp HL].
  eexists _, n3, (FA ∪ FB). split_and!; try done.
  - by rewrite (mbind_run _ _ _ _ _ H1), (mbind_run _ _ _ _ _ H2).
  - intros i Hi. rewrite Hold3; [by apply Hold | unfold in_range in *; lia |].
    intros ->. unfold in_range in Hi.
    pose proof (HF (end_ A) (elem_of_union_l _ _ _ (pf_end _ _ _ HpA))). lia.
  - lia.
  - rewrite <- Hc. split.
    + exact (link_acyclic _ _ A B FA FB HpA HpB Hdisj HE Hold3 Hsz3).
    + exact (eps_cycle_extends _ _ (exit_linked_extends _ _ A FA HpA Hold3)).
  - intros w. rewrite HL. unfold lang_cat. by setoid_rewrite HLA; setoid_rewrite HLB.
Qed.

Lemma exits_linked_extends v v' (A B : NFASubsetRef) FA FB :
  proper_frag v A FA → proper_frag v B FB →
  (∀ i, in_range v i → i ≠ end_ A → i ≠ end_ B → vec_at v' i = vec_at v i) →
  extends v v'.
Proof.
  intros HA HB Hold p st Hst Hrule. rewrite <- Hst.
  apply Hold; [by eapply vec_at_in_range | |]; intros ->.
  - rewrite (pf_exit _ _ _ HA) in Hst. by injection Hst as <-.
  - rewrite (pf_exit _ _ _ HB) in Hst. by injection Hst as <-.
Qed.

Lemma builds_select_of (La Lb : list Z → Prop) (Ca Cb : Prop) n A B n2 FA FB :
  arena_ok (vec n2) →
  proper_frag (vec n2) A FA → proper_frag (vec n2) B FB → FA ## FB →
  (∀ i, i ∈ FA ∪ FB → vec_size (vec n) ≤ i) →
  (∀ i, in_range (vec n) i → vec_at (vec n2) i = vec_at (vec n) i) →
  vec_size (vec n) ≤ vec_size (vec n2) →
  (eps_cycle (vec n2) ↔ eps_cycle (vec n) ∨ (Ca ∨ Cb)) →
  (∀ w, frag_lang (vec n2) A w ↔ La w) → (∀ w, frag_lang (vec n2) B w ↔ Lb w) →
  ∃ r n' F,
    select A B n2 = (Done r, n') ∧ nfa n' = r ∧ arena_ok (vec n') ∧
    proper_frag (vec n') r F ∧
    (∀ i, i ∈ F → vec_size (vec n) ≤ i) ∧
    (∀ i, in_range (vec n) i → vec_at (vec n') i = vec_at (vec n) i) ∧
    vec_size (vec n) ≤ vec_size (vec n') ∧
    (eps_cycle (vec n') ↔ eps_cycle (vec n) ∨ (Ca ∨ Cb)) ∧
    ∀ w, frag_lang (vec n') r w ↔ La w ∨ Lb w.
Proof.
  intros Hv2 HpA HpB Hdisj HF Hold Hsz Hc HLA HLB.
  destruct (select_ok A B n2 Hv2 (proper_frag_ok _ _ _ HpA) (proper_frag_ok _ _ _ HpB))
    as (r & n3 & H3 & Hnfa & Hv3 & _ & _ & Hsz3).
  destruct (select_lookups n2 A B FA FB HpA HpB Hdisj) as (HS & HX & HEA & HEB & Hold3 & _).
  assert (r = {| start := vec_size (vec n2); end_ := vec_size (vec n2) + 1 |}) as ->.
  { pose proof (select_run A B n2 (proj2 (proper_frag_ok _ _ _ HpA))
                  (proj2 (proper_frag_ok _ _ _ HpB))) as E.
    rewrite H3 in E. congruence. }
  rewrite H3 in HS, HX, HEA, HEB, Hold3. cbn [snd] in HS, HX, HEA, HEB, Hold3.
  destruct (select_frag _ _ A B FA FB _ HpA HpB Hdisj eq_refl HS HX HEA HEB Hold3 Hsz3)
    as [Hp HL].
  eexists _, n3, _. split_and!; try done.
  - intros i [Hi|Hi]%elem_of_union; [by apply HF |]. set_unfold in Hi. lia.
  - intros i Hi. rewrite Hold3; [by apply Hold | unfold in_range in *; lia | |];
      intros ->; unfold in_range in Hi.
    + pose proof (HF (end_ A) (elem_of_union_l _ _ _ (pf_end _ _ _ HpA))). lia.
    + pose proof (HF (end_ B) (elem_of_union_r _ _ _ (pf_end _ _ _ HpB))). lia.
  - lia.
  - rewrite <- Hc. split.
    + exact (select_acyclic _ _ A B FA FB _ HpA HpB Hdisj eq_refl HS HX HEA HEB Hold3 Hsz3).
    + exact (eps_cycle_extends _ _ (exits_linked_extends _ _ A B FA FB HpA HpB Hold3)).
  - intros w. by rewrite HL, HLA, HLB.
Qed.

(** [select(a(), b())] constructs the union of the two languages, whichever
    argument is evaluated first. *)
Lemma builds_select ord a b (La Lb : list Z → Prop) (Ca Cb : Prop) :
  builds a La Ca → builds b Lb Cb →
  builds (select_args ord a b) (λ w, La w ∨ Lb w) (Ca ∨ Cb).
Proof.
  intros Ha Hb n Hv. destruct ord; unfold select_args.
  - destruct (builds_two a b La Lb Ca Cb Ha Hb n Hv)
      as (A & n1 & B & n2 & FA & FB & H1 & H2 & Hv2 & HpA & HpB & Hdisj & HF & Hold & Hsz
          & Hc & HLA & HLB).
    rewrite (mbind_run _ _ _ _ _ H1), (mbind_run _ _ _ _ _ H2).
    exact (builds_select_of La Lb Ca Cb n A B n2 FA FB Hv2 HpA HpB Hdisj HF Hold Hsz
             Hc HLA HLB).
  - destruct (builds_two b a Lb La Cb Ca Hb Ha n Hv)
      as (B & n1 & A & n2 & FB & FA & H1 & H2 & Hv2 & HpB & HpA & Hdisj & HF & Hold & Hsz
          & Hc & HLB & HLA).
    rewrite (mbind_run _ _ _ _ _ H1), (mbind_run _ _ _ _ _ H2).
    apply (builds_select_of La Lb Ca Cb n A B n2 FA FB); try done.
    + intros i Hi. apply HF. set_solver.
    + rewrite Hc. tauto.
Qed.

Lemma builds_star a (La : list Z → Prop) (Ca : Prop) :
  builds a La Ca → builds (x ← a; star x) (lang_star La) (Ca ∨ La []).
Proof.
  intros Ha n Hv.
  destruct (Ha n Hv) as (A & n1 & FA & H1 & _ & Hv1 & HpA & HFA & Hold1 & Hsz1 & Hc1 & HLA).
  destruct (star_ok A n1 Hv1 (proper_frag_ok _ _ _ HpA))
    as (r & n2 & H2 & Hnfa & Hv2 & _ & _ & Hsz2).
  destruct (star_lookups n1 A FA HpA) as (HS & HX & HE & Hold2 & _).
  assert (r = {| start := vec_size (vec n1); end_ := vec_size (vec n1) + 1 |}) as ->.
  { pose proof (star_run A n1 (proj2 (proper_frag_ok _ _ _ HpA))) as E.
    rewrite H2 in E. congruence. }
  rewrite H2 in HS, HX, HE, Hold2. cbn [snd] in HS, HX, HE, Hold2.
  destruct (star_frag _ _ A FA _ HpA eq_refl HS HX HE Hold2 Hsz2) as [Hp HL].
  eexists _, n2, _. split_and!; try done.
  - by rewrite (mbind_run _ _ _ _ _ H1).
  - intros i [Hi|Hi]%elem_of_union; [by apply HFA |]. set_unfold in Hi. lia.
  - intros i Hi. rewrite Hold2; [by apply Hold1 | unfold in_range in *; lia |].
    intros ->. unfold in_range in Hi. pose proof (HFA (end_ A) (pf_end _ _ _ HpA)). lia.
  - lia.
  - rewrite (star_cycle _ _ A FA _ HpA eq_refl HS HX HE Hold2 Hsz2), Hc1, HLA. tauto.
  - intros w. rewrite HL. split; (induction 1; [constructor |]); constructor; try done;
      by apply HLA.
Qed.

Lemma builds_question a (La : list Z → Prop) (Ca : Prop) :
  builds a La Ca → builds (x ← a; question x) (λ w, La w ∨ w = []) Ca.
Proof.
  intros Ha n Hv.
  destruct (Ha n Hv) as (A & n1 & FA & H1 & _ & Hv1 & HpA & HFA & Hold1 & Hsz1 & Hc1 & HLA).
  destruct (question_ok A n1 Hv1 (proper_frag_ok _ _ _ HpA))
    as (r & n2 & H2 & Hnfa & Hv2 & _ & _ & Hsz2).
  destruct (question_lookups n1 A) as (HS & Hold2 & _).
  assert (r = {| start := vec_size (vec n1); end_ := end_ A |}) as ->.
  { pose proof (question_run A n1) as E. rewrite H2 in E. congruence. }
  rewrite H2 in HS, Hold2. cbn [snd] in HS, Hold2.
  destruct (question_frag _ _ A FA _ HpA eq_refl HS Hold2 Hsz2) as [Hp HL].
  eexists _, n2, _. split_and!; try done.
  - by rewrite (mbind_run _ _ _ _ _ H1).
  - intros i [Hi|Hi]%elem_of_union; [by apply HFA |]. set_unfold in Hi. lia.
  - intros i Hi. rewrite Hold2; [by apply Hold1 | unfold in_range in *; lia].
  - lia.
  - rewrite <- Hc1. split.
    + exact (question_acyclic _ _ A FA _ HpA eq_refl HS Hold2 Hsz2).
    + exact (eps_cycle_extends _ _ (extends_of_old _ _ Hold2)).
  - intros w. by rewrite HL, HLA.
Qed.

(** ** [one_of] and [range] *)

Lemma mbind_assoc_run {A B C} (m : M A) (f : A → M B) (g : B → M C) n :
  ((m ≫= f) ≫= g) n = (m ≫= λ a, f a ≫= g) n.
Proof.
  unfold mbind, M_bind. destruct (m n) as [[a| | |] n1]; [|done..].
  by destruct (f a n1) as [[b| | |] n2].
Qed.

Lemma mbind_ext_run {A B} (m : M A) (f g : A → M B) n :
  (∀ a n', f a n' = g a n') → (m ≫= f) n = (m ≫= g) n.
Proof. intros H. unfold mbind, M_bind. by destruct (m n) as [[a| | |] n1]. Qed.

Lemma mbind_mret_run {A} (m : M A) n : (m ≫= mret) n = m n.
Proof. unfold mbind, M_bind, mret, M_ret. by destruct (m n) as [[a| | |] n1]. Qed.

Lemma chars_lang_nil w : chars_lang [] w ↔ False.
Proof. split; [|done]. intros (c & Hc & _). by apply elem_of_nil in Hc. Qed.

Lemma chars_lang_cons c cs w : chars_lang (c :: cs) w ↔ char_lang c w ∨ chars_lang cs w.
Proof.
  split.
  - intros (c' & [->|Hc]%elem_of_cons & Hw); [by left | right; by exists c'].
  - intros [Hw|(c' & Hc & Hw)]; [exists c | exists c']; (split; [|done]);
      apply elem_of_cons; auto.
Qed.

Lemma chars_lang_app cs1 cs2 w :
  chars_lang (cs1 ++ cs2) w ↔ chars_lang cs1 w ∨ chars_lang cs2 w.
Proof.
  induction cs1 as [|c cs1 IH]; simpl.
  - rewrite chars_lang_nil. tauto.
  - rewrite !chars_lang_cons, IH. tauto.
Qed.

(** The loop of [one_of] adds the characters up to the first NUL. *)
Lemma builds_one_of_for p : ∀ m (L : list Z → Prop) (C : Prop),
  builds m L C →
  builds (ns ← m; one_of_for p ns) (λ w, L w ∨ chars_lang (c_str p) w) C.
Proof.
  induction p as [|c p IH]; intros m L C Hm; simpl.
  - eapply builds_ext; [| |reflexivity|exact Hm].
    + intros n. symmetry. apply mbind_mret_run.
    + intros w. rewrite chars_lang_nil. tauto.
  - destruct (c =? 0) eqn:Hc.
    + eapply builds_ext; [| |reflexivity|exact Hm].
      * intros n. symmetry. apply mbind_mret_run.
      * intros w. rewrite chars_lang_nil. tauto.
    + eapply builds_ext;
        [| | |exact (IH _ _ _ (builds_select true m (ch c) L (char_lang c) C False Hm
                                 (builds_ch c)))].
      * intros n. unfold select_args. rewrite mbind_assoc_run.
        apply mbind_ext_run. intros a n'. apply mbind_assoc_run.
      * intros w. cbn beta. rewrite chars_lang_cons. tauto.
      * tauto.
Qed.

Lemma builds_one_of l :
  c_str l ≠ [] → builds (one_of l) (chars_lang (c_str l)) False.
Proof.
  destruct l as [|c p]; [done |]. simpl. destruct (c =? 0); [done |]. intros _.
  eapply builds_ext; [| | |exact (builds_one_of_for p _ _ _ (builds_ch c))].
  - done.
  - intros w. cbn beta. by rewrite chars_lang_cons.
  - done.
Qed.

(** The loop of [range] adds the characters from [c] to [e]. *)
Lemma builds_range_for e : ∀ (k : nat) c m (L : list Z → Prop) (C : Prop),
  -128 ≤ c → e ≤ 126 → e + 1 - c ≤ Z.of_nat k →
  builds m L C →
  builds (ns ← m; range_for k c e ns)
    (λ w, L w ∨ chars_lang (seqZ c (e + 1 - c)) w) C.
Proof.
  induction k as [|k IH]; intros c m L C Hc He Hk Hm; simpl.
  - destruct (Z.leb_spec c e); [lia |].
    eapply builds_ext; [| |reflexivity|exact Hm].
    + intros n. symmetry. apply mbind_mret_run.
    + intros w. rewrite seqZ_nil by lia. rewrite chars_lang_nil. tauto.
  - destruct (Z.leb_spec c e).
    + rewrite to_char_id by lia.
      eapply builds_ext;
        [| | |exact (IH (c + 1) _ _ _ ltac:(lia) He ltac:(lia)
                       (builds_select true m (ch c) L (char_lang c) C False Hm
                          (builds_ch c)))].
      * intros n. unfold select_args. rewrite mbind_assoc_run.
        apply mbind_ext_run. intros a n'. apply mbind_assoc_run.
      * intros w. cbn beta. rewrite (seqZ_cons c (e + 1 - c)) by lia.
        rewrite chars_lang_cons.
        replace (Z.succ c) with (c + 1) by lia.
        replace (Z.pred (e + 1 - c)) with (e + 1 - (c + 1)) by lia. tauto.
      * tauto.
    + eapply builds_ext; [| |reflexivity|exact Hm].
      * intros n. symmetry. apply mbind_mret_run.
      * intros w. rewrite seqZ_nil by lia. rewrite chars_lang_nil. tauto.
Qed.

Lemma builds_range s e :
  -128 ≤ s → s ≤ e → e ≤ 126 →
  builds (range s e) (chars_lang (seqZ s (e + 1 - s))) False.
Proof.
  intros Hs Hse He. unfold range. destruct (Z.gtb_spec s e); [lia |].
  destruct (Z.eqb_spec s e) as [->|Hne].
  - eapply builds_ext; [done | |reflexivity|exact (builds_ch e)].
    intros w. replace (e + 1 - e) with 1 by lia. change (seqZ e 1) with [e].
    rewrite chars_lang_cons, chars_lang_nil. tauto.
  - rewrite to_char_id by lia.
    eapply builds_ext;
      [| | |exact (builds_range_for e 256 (s + 1) _ _ _ ltac:(lia) He ltac:(lia)
                     (builds_ch s))].
    + done.
    + intros w. cbn beta. rewrite (seqZ_cons s (e + 1 - s)) by lia.
      rewrite chars_lang_cons.
      replace (Z.succ s) with (s + 1) by lia.
      replace (Z.pred (e + 1 - s)) with (e + 1 - (s + 1)) by lia. tauto.
    + done.
Qed.

(** ** The named classes *)

Lemma chars_lang_single cs (P : Z → Prop) :
  Forall is_symbol cs → (∀ c, c ∈ cs ↔ P c) →
  ∀ w, chars_lang cs w ↔ single_of P w.
Proof.
  intros Hsym HP w. rewrite Forall_forall in Hsym. split.
  - intros (c & Hc & [[_ ->]|[-> _]]); [exists c; split; [done | by apply HP] |].
    by destruct (Hsym _ Hc) as [? _].
  - intros (c & -> & Hc%HP). exists c. split; [done |]. left. split; [by apply Hsym | done].
Qed.

Lemma forallb_is_symbol cs : forallb (λ c, 0 <=? c) cs = true → Forall is_symbol cs.
Proof.
  intros H. apply Forall_forall. intros c Hc.
  rewrite forallb_forall in H. apply list_elem_of_In, H in Hc.
  unfold is_symbol, RULE_EPSILON, RULE_UNDEFINED. lia.
Qed.

Lemma builds_class l (P : Z → Prop) :
  c_str l ≠ [] → forallb (λ c, 0 <=? c) (c_str l) = true → (∀ c, c ∈ c_str l ↔ P c) →
  builds (one_of l) (single_of P) False.
Proof.
  intros Hne Hsym HP.
  eapply builds_ext; [done | |reflexivity|exact (builds_one_of l Hne)].
  apply chars_lang_single; [by apply forallb_is_symbol | done].
Qed.

Lemma builds_union ord a b (Pa Pb P : Z → Prop) :
  builds a (single_of Pa) False → builds b (single_of Pb) False →
  (∀ c, P c ↔ Pa c ∨ Pb c) →
  builds (select_args ord a b) (single_of P) False.
Proof.
  intros Ha Hb HP.
  eapply builds_ext; [done | | |exact (builds_select ord a b _ _ _ _ Ha Hb)]; [|tauto].
  intros w. cbn beta. split.
  - intros [(c & -> & Hc)|(c & -> & Hc)]; exists c; (split; [done |]); apply HP; auto.
  - intros (c & -> & [Hc|Hc]%HP); [left | right]; by exists c.
Qed.

Ltac class_solve :=
  apply builds_class;
  [ by vm_compute
  | by vm_compute
  | intros c;
    match goal with
    | |- _ ∈ c_str ?l ↔ _ =>
        let cs := eval vm_compute in (c_str l) in
        change (c_str l) with cs
    end;
    rewrite list_elem_of_In; simpl; lia ].

Lemma builds_blank : builds blank (single_of (λ c, c = 32 ∨ c = 9)) False.
Proof. class_solve. Qed.

Lemma builds_digit : builds digit (single_of (λ c, 48 ≤ c ≤ 57)) False.
Proof. class_solve. Qed.

Lemma builds_lower : builds lower (single_of (λ c, 97 ≤ c ≤ 122)) False.
Proof. class_solve. Qed.

Lemma builds_upper : builds upper (single_of (λ c, 65 ≤ c ≤ 90)) False.
Proof. class_solve. Qed.

Lemma builds_punct :
  builds punct
    (single_of (λ c, 33 ≤ c ≤ 47 ∨ 58 ≤ c ≤ 64 ∨ 91 ≤ c ≤ 96 ∨ 123 ≤ c ≤ 125)) False.
Proof. class_solve. Qed.

Lemma builds_hex_letters :
  builds (one_of (literal "ABCDEFabcdef")) (single_of (λ c, 65 ≤ c ≤ 70 ∨ 97 ≤ c ≤ 102)) False.
Proof. class_solve. Qed.

Lemma builds_space : builds (ch 32) (single_of (λ c, c = 32)) False.
Proof.
  eapply builds_ext; [done | |reflexivity|exact (builds_ch 32)].
  intros w. unfold char_lang, single_of, is_symbol, RULE_EPSILON, RULE_UNDEFINED. split.
  - intros [[_ ->]|[? _]]; [by exists 32 | done].
  - intros (c & -> & ->). left. done.
Qed.

Lemma builds_alpha ord :
  builds (alpha ord) (single_of (λ c, 65 ≤ c ≤ 90 ∨ 97 ≤ c ≤ 122)) False.
Proof.
  apply (builds_union _ _ _ _ _ _ builds_lower builds_upper). intros c. cbn beta. lia.
Qed.

Lemma builds_alnum ord :
  builds (alnum ord) (single_of (λ c, 48 ≤ c ≤ 57 ∨ 65 ≤ c ≤ 90 ∨ 97 ≤ c ≤ 122)) False.
Proof.
  apply (builds_union _ _ _ _ _ _ (builds_alpha ord) builds_digit). intros c. cbn beta. lia.
Qed.

Lemma builds_graph ord : builds (graph ord) (single_of (λ c, 33 ≤ c ≤ 125)) False.
Proof.
  apply (builds_union _ _ _ _ _ _ (builds_alnum ord) builds_punct). intros c. cbn beta. lia.
Qed.

Lemma builds_print ord : builds (print ord) (single_of (λ c, 32 ≤ c ≤ 125)) False.
Proof.
  apply (builds_union _ _ _ _ _ _ (builds_graph ord) builds_space). intros c. cbn beta. lia.
Qed.

Lemma builds_xdigit ord :
  builds (xdigit ord)
    (single_of (λ c, 48 ≤ c ≤ 57 ∨ 65 ≤ c ≤ 70 ∨ 97 ≤ c ≤ 102)) False.
Proof.
  apply (builds_union _ _ _ _ _ _ builds_digit builds_hex_letters). intros c. cbn beta. lia.
Qed.

(** ** From a construction to its DFA *)

Lemma no_cycle_empty : ¬ eps_cycle [].
Proof.
  intros [p Hp].
  assert (∃ q, eps_edge [] p q) as (q & st & Hst & _) by (inversion Hp; by eexists).
  apply vec_at_in_range in Hst. unfold vec_size in Hst. simpl in Hst. lia.
Qed.

Lemma arena_ok_empty : arena_ok (vec NFA_new).
Proof. constructor. Qed.

(** ** The example arena *)

Lemma proper_ex_fa : proper_frag (vec ex_ab) ex_fa ex_Fa.
Proof.
  destruct (literal_frag (vec ex_a) 0 97) as [Hp _]; [done..|].
  apply (frag_after (vec ex_a) (vec ex_ab) _ _ Hp).
  by destruct (ch_lookups 98 ex_a) as (_ & _ & Hold & _).
Qed.

Lemma proper_ex_fb : proper_frag (vec ex_ab) ex_fb ex_Fb.
Proof. by destruct (literal_frag (vec ex_ab) 2 98) as [Hp _]. Qed.

Lemma ex_disjoint : ex_Fa ## ex_Fb.
Proof. unfold ex_Fa, ex_Fb. set_solver. Qed.

(** ** The fragment theorems on the example arena *)

Lemma link_language_witness :
  proper_frag (vec ex_ab) ex_fa ex_Fa ∧ proper_frag (vec ex_ab) ex_fb ex_Fb ∧
  ex_Fa ## ex_Fb ∧
  ∃ n',
    link ex_fa ex_fb ex_ab = (Done {| start := start ex_fa; end_ := end_ ex_fb |}, n') ∧
    nfa n' = {| start := start ex_fa; end_ := end_ ex_fb |} ∧
    proper_frag (vec n') {| start := start ex_fa; end_ := end_ ex_fb |} (ex_Fa ∪ ex_Fb) ∧
    (∀ i, in_range (vec ex_ab) i → i ≠ end_ ex_fa →
          vec_at (vec n') i = vec_at (vec ex_ab) i) ∧
    ∀ w, frag_lang (vec n') {| start := start ex_fa; end_ := end_ ex_fb |} w ↔
         lang_cat (frag_lang (vec ex_ab) ex_fa) (frag_lang (vec ex_ab) ex_fb) w.
Proof.
  split; [exact proper_ex_fa |]. split; [exact proper_ex_fb |]. split; [exact ex_disjoint |].
  exact (link_language ex_ab ex_fa ex_fb ex_Fa ex_Fb proper_ex_fa proper_ex_fb ex_disjoint).
Defined.

Lemma select_language_witness :
  proper_frag (vec ex_ab) ex_fa ex_Fa ∧ proper_frag (vec ex_ab) ex_fb ex_Fb ∧
  ex_Fa ## ex_Fb ∧
  ∃ n',
    select ex_fa ex_fb ex_ab =
      (Done {| start := vec_size (vec ex_ab); end_ := vec_size (vec ex_ab) + 1 |}, n') ∧
    nfa n' = {| start := vec_size (vec ex_ab); end_ := vec_size (vec ex_ab) + 1 |} ∧
    proper_frag (vec n')
      {| start := vec_size (vec ex_ab); end_ := vec_size (vec ex_ab) + 1 |}
      (ex_Fa ∪ ex_Fb ∪ {[vec_size (vec ex_ab); vec_size (vec ex_ab) + 1]}) ∧
    (∀ i, in_range (vec ex_ab) i → i ≠ end_ ex_fa → i ≠ end_ ex_fb →
          vec_at (vec n') i = vec_at (vec ex_ab) i) ∧
    ∀ w, frag_lang (vec n')
           {| start := vec_size (vec ex_ab); end_ := vec_size (vec ex_ab) + 1 |} w ↔
         frag_lang (vec ex_ab) ex_fa w ∨ frag_lang (vec ex_ab) ex_fb w.
Proof.
  split; [exact proper_ex_fa |]. split; [exact proper_ex_fb |]. split; [exact ex_disjoint |].
  exact (select_language ex_ab ex_fa ex_fb ex_Fa ex_Fb proper_ex_fa proper_ex_fb
           ex_disjoint).
Defined.

Lemma star_language_witness :
  proper_frag (vec ex_ab) ex_fa ex_Fa ∧
  ∃ n',
    star ex_fa ex_ab =
      (Done {| start := vec_size (vec ex_ab); end_ := vec_size (vec ex_ab) + 1 |}, n') ∧
    nfa n' = {| start := vec_size (vec ex_ab); end_ := vec_size (vec ex_ab) + 1 |} ∧
    proper_frag (vec n')
      {| start := vec_size (vec ex_ab); end_ := vec_size (vec ex_ab) + 1 |}
      (ex_Fa ∪ {[vec_size (vec ex_ab); vec_size (vec ex_ab) + 1]}) ∧
    (∀ i, in_range (vec ex_ab) i → i ≠ end_ ex_fa →
          vec_at (vec n') i = vec_at (vec ex_ab) i) ∧
    ∀ w, frag_lang (vec n')
           {| start := vec_size (vec ex_ab); end_ := vec_size (vec ex_ab) + 1 |} w ↔
         lang_star (frag_lang (vec ex_ab) ex_fa) w.
Proof.
  split; [exact proper_ex_fa |].
  exact (star_language ex_ab ex_fa ex_Fa proper_ex_fa).
Defined.

Lemma question_language_witness :
  proper_frag (vec ex_ab) ex_fa ex_Fa ∧
  ∃ n',
    question ex_fa ex_ab =
      (Done {| start := vec_size (vec ex_ab); end_ := end_ ex_fa |}, n') ∧
    nfa n' = {| start := vec_size (vec ex_ab); end_ := end_ ex_fa |} ∧
    proper_frag (vec n') {| start := vec_size (vec ex_ab); end_ := end_ ex_fa |}
      (ex_Fa ∪ {[vec_size (vec ex_ab)]}) ∧
    (∀ i, in_range (vec ex_ab) i → vec_at (vec n') i = vec_at (vec ex_ab) i) ∧
    ∀ w, frag_lang (vec n') {| start := vec_size (vec ex_ab); end_ := end_ ex_fa |} w ↔
         frag_lang (vec ex_ab) ex_fa w ∨ w = [].
Proof.
  split; [exact proper_ex_fa |].
  exact (question_language ex_ab ex_fa ex_Fa proper_ex_fa).
Defined.

Lemma combinators_and_cycles_witness :
  proper_frag (vec ex_ab) ex_fa ex_Fa ∧ proper_frag (vec ex_ab) ex_fb ex_Fb ∧
  ex_Fa ## ex_Fb ∧
  (eps_cycle (vec (ch 99 ex_ab).2) → eps_cycle (vec ex_ab)) ∧
  (eps_cycle (vec (link ex_fa ex_fb ex_ab).2) → eps_cycle (vec ex_ab)) ∧
  (eps_cycle (vec (select ex_fa ex_fb ex_ab).2) → eps_cycle (vec ex_ab)) ∧
  (eps_cycle (vec (question ex_fa ex_ab).2) → eps_cycle (vec ex_ab)) ∧
  (eps_cycle (vec (star ex_fa ex_ab).2)
     ↔ eps_cycle (vec ex_ab) ∨ frag_lang (vec ex_ab) ex_fa []).
Proof.
  split; [exact proper_ex_fa |]. split; [exact proper_ex_fb |]. split; [exact ex_disjoint |].
  exact (combinators_and_cycles ex_ab 99 ex_fa ex_fb ex_Fa ex_Fb proper_ex_fa proper_ex_fb
           ex_disjoint).
Defined.

(** ** What the combinators write *)

(** On an arena with two proper fragments [A] and [B] whose footprints are
    disjoint, read through [operator[]] after each combinator: [ch] appends a
    state with the character as its rule and an exit without one; [link] turns the
    exit of its left operand into an epsilon state to the entry of the right
    one; [select] appends an epsilon entry to both entries and an exit, and
    turns both exits into epsilon states to it; [star] appends an epsilon
    entry to the entry of its operand and to the new exit, and turns the exit
    of the operand into an epsilon state back to the new entry; [question]
    appends an epsilon entry to the entry and to the exit of its operand. An
    index that is no state of the arena is read outside the vector. *)
Theorem index_after_combinators (n : NFA) (c : Z) (A B : NFASubsetRef) (FA FB : gset Z) :
  proper_frag (vec n) A FA → proper_frag (vec n) B FB → FA ## FB →
  (NFA_index (ch c n).2 (vec_size (vec n))
     = Done {| rule := c; refs := (vec_size (vec n) + 1, REF_UNDEFINED) |} ∧
   NFA_index (ch c n).2 (vec_size (vec n) + 1) = Done NFAState_new) ∧
  NFA_index (link A B n).2 (end_ A)
    = Done {| rule := RULE_EPSILON; refs := (start B, REF_UNDEFINED) |} ∧
  (NFA_index (select A B n).2 (vec_size (vec n))
     = Done {| rule := RULE_EPSILON; refs := (start A, start B) |} ∧
   NFA_index (select A B n).2 (vec_size (vec n) + 1) = Done NFAState_new ∧
   NFA_index (select A B n).2 (end_ A)
     = Done {| rule := RULE_EPSILON; refs := (vec_size (vec n) + 1, REF_UNDEFINED) |} ∧
   NFA_index (select A B n).2 (end_ B)
     = Done {| rule := RULE_EPSILON; refs := (vec_size (vec n) + 1, REF_UNDEFINED) |}) ∧
  (NFA_index (star A n).2 (vec_size (vec n))
     = Done {| rule := RULE_EPSILON; refs := (start A, vec_size (vec n) + 1) |} ∧
   NFA_index (star A n).2 (vec_size (vec n) + 1) = Done NFAState_new ∧
   NFA_index (star A n).2 (end_ A)
     = Done {| rule := RULE_EPSILON; refs := (vec_size (vec n), REF_UNDEFINED) |}) ∧
  NFA_index (question A n).2 (vec_size (vec n))
    = Done {| rule := RULE_EPSILON; refs := (start A, end_ A) |} ∧
  ∀ i, NFA_index n i = Undef ↔ ¬ in_range (vec n) i.
Proof.
  intros HA HB Hdisj. unfold NFA_index.
  destruct (ch_lookups c n) as (? & ? & _).
  destruct (link_lookups n A B FA HA) as (? & _).
  destruct (select_lookups n A B FA FB HA HB Hdisj) as (? & ? & ? & ? & _).
  destruct (star_lookups n A FA HA) as (? & ? & ? & _).
  destruct (question_lookups n A) as (? & _).
  split_and!; try done.
  intros i. split.
  - intros Hu Hi. apply vec_at_is_Done in Hi as [x Hx]. congruence.
  - intros Hi. destruct (vec_at_cases (vec n) i) as [[x Hx]|]; [|done].
    by apply vec_at_in_range in Hx.
Qed.

Lemma index_after_combinators_witness :
  proper_frag (vec ex_ab) ex_fa ex_Fa ∧ proper_frag (vec ex_ab) ex_fb ex_Fb ∧
  ex_Fa ## ex_Fb ∧
  ((NFA_index (ch 99 ex_ab).2 (vec_size (vec ex_ab))
     = Done {| rule := 99; refs := (vec_size (vec ex_ab) + 1, REF_UNDEFINED) |} ∧
   NFA_index (ch 99 ex_ab).2 (vec_size (vec ex_ab) + 1) = Done NFAState_new) ∧
  NFA_index (link ex_fa ex_fb ex_ab).2 (end_ ex_fa)
    = Done {| rule := RULE_EPSILON; refs := (start ex_fb, REF_UNDEFINED) |} ∧
  (NFA_index (select ex_fa ex_fb ex_ab).2 (vec_size (vec ex_ab))
     = Done {| rule := RULE_EPSILON; refs := (start ex_fa, start ex_fb) |} ∧
   NFA_index (select ex_fa ex_fb ex_ab).2 (vec_size (vec ex_ab) + 1) = Done NFAState_new ∧
   NFA_index (select ex_fa ex_fb ex_ab).2 (end_ ex_fa)
     = Done {| rule := RULE_EPSILON; refs := (vec_size (vec ex_ab) + 1, REF_UNDEFINED) |} ∧
   NFA_index (select ex_fa ex_fb ex_ab).2 (end_ ex_fb)
     = Done {| rule := RULE_EPSILON; refs := (vec_size (vec ex_ab) + 1, REF_UNDEFINED) |}) ∧
  (NFA_index (star ex_fa ex_ab).2 (vec_size (vec ex_ab))
     = Done {| rule := RULE_EPSILON; refs := (start ex_fa, vec_size (vec ex_ab) + 1) |} ∧
   NFA_index (star ex_fa ex_ab).2 (vec_size (vec ex_ab) + 1) = Done NFAState_new ∧
   NFA_index (star ex_fa ex_ab).2 (end_ ex_fa)
     = Done {| rule := RULE_EPSILON; refs := (vec_size (vec ex_ab), REF_UNDEFINED) |}) ∧
  NFA_index (question ex_fa ex_ab).2 (vec_size (vec ex_ab))
    = Done {| rule := RULE_EPSILON; refs := (start ex_fa, end_ ex_fa) |} ∧
  ∀ i, NFA_index ex_ab i = Undef ↔ ¬ in_range (vec ex_ab) i).
Proof.
  split; [exact proper_ex_fa |]. split; [exact proper_ex_fb |]. split; [exact ex_disjoint |].
  exact (index_after_combinators ex_ab 99 ex_fa ex_fb ex_Fa ex_Fb proper_ex_fa
           proper_ex_fb ex_disjoint).
Defined.

(** ** Constructions and their languages *)

(** Constructions compose as the regular operations: [ch(c)] constructs the
    language of the character; of two constructions run one after the other,
    [link] constructs the concatenation and [select], whichever of its
    arguments is evaluated first, the union; [star] constructs the iteration
    and [question] adds the empty input. Only [star] can add an epsilon
    cycle, and it does so exactly when its operand reads the empty input. *)
Theorem constructions_compose (a b : M NFASubsetRef) (La Lb : list Z → Prop)
    (Ca Cb : Prop) (c : Z) (left_first : bool) :
  builds a La Ca → builds b Lb Cb →
  builds (ch c) (char_lang c) False ∧
  builds (x ← a; y ← b; link x y) (lang_cat La Lb) (Ca ∨ Cb) ∧
  builds (select_args left_first a b) (λ w, La w ∨ Lb w) (Ca ∨ Cb) ∧
  builds (x ← a; star x) (lang_star La) (Ca ∨ La []) ∧
  builds (x ← a; question x) (λ w, La w ∨ w = []) Ca.
Proof.
  intros Ha Hb. split_and!.
  - apply builds_ch.
  - by apply builds_link.
  - by apply builds_select.
  - by apply builds_star.
  - by apply builds_question.
Qed.

Lemma constructions_compose_witness :
  builds (ch 97) (char_lang 97) False ∧ builds (ch 98) (char_lang 98) False ∧
  (builds (ch 99) (char_lang 99) False ∧
   builds (x ← ch 97; y ← ch 98; link x y) (lang_cat (char_lang 97) (char_lang 98))
     (False ∨ False) ∧
   builds (select_args true (ch 97) (ch 98)) (λ w, char_lang 97 w ∨ char_lang 98 w)
     (False ∨ False) ∧
   builds (x ← ch 97; star x) (lang_star (char_lang 97)) (False ∨ char_lang 97 []) ∧
   builds (x ← ch 97; question x) (λ w, char_lang 97 w ∨ w = []) False).
Proof.
  split; [exact (builds_ch 97) |]. split; [exact (builds_ch 98) |].
  exact (constructions_compose (ch 97) (ch 98) (char_lang 97) (char_lang 98) False False 99
           true (builds_ch 97) (builds_ch 98)).
Defined.

(** [one_of] of a string that starts with NUL, or of no character at all,
    returns the sentinel fragment and leaves the object alone. Otherwise it
    constructs the choice between the characters before the first NUL: a
    character [-2] among them adds the empty input, a character [-1] adds
    nothing. *)
Theorem one_of_language (l : list Z) :
  (c_str l = [] → ∀ n, one_of l n = (Done NFASubsetRef_new, n)) ∧
  (c_str l ≠ [] → builds (one_of l) (chars_lang (c_str l)) False).
Proof.
  split; [|apply builds_one_of].
  destruct l as [|c p]; [done |]. simpl. by destruct (c =? 0).
Qed.

Lemma one_of_language_witness :
  c_str [97; 98; 0; 99] ≠ [] ∧
  builds (one_of [97; 98; 0; 99]) (chars_lang (c_str [97; 98; 0; 99])) False.
Proof.
  split; [discriminate |]. apply (proj2 (one_of_language [97; 98; 0; 99])). discriminate.
Defined.

(** [range(s, e)] up to [e <= 126]: with [e < s] it returns the sentinel
    fragment and leaves the object alone, and with [s <= e] it constructs the
    choice between the characters from [s] to [e]. *)
Theorem range_language (s e : Z) :
  -128 ≤ s → e ≤ 126 →
  (e < s → ∀ n, range s e n = (Done NFASubsetRef_new, n)) ∧
  (s ≤ e → builds (range s e) (chars_lang (seqZ s (e + 1 - s))) False).
Proof.
  intros Hs He. split.
  - intros Hlt n. unfold range. by destruct (Z.gtb_spec s e); [|lia].
  - intros Hse. by apply builds_range.
Qed.

Lemma range_language_witness :
  -128 ≤ 97 ∧ 99 ≤ 126 ∧
  (99 < 97 → ∀ n, range 97 99 n = (Done NFASubsetRef_new, n)) ∧
  (97 ≤ 99 → builds (range 97 99) (chars_lang (seqZ 97 (99 + 1 - 97))) False).
Proof.
  split; [lia |]. split; [lia |]. apply (range_language 97 99); lia.
Defined.

(** The named classes, whichever argument their calls of [select] evaluate
    first: each constructs the inputs of one character of its class and adds
    no epsilon cycle. [punct] has the characters 33-47, 58-64, 91-96 and
    123-125, so that [punct], [graph] and [print] leave out the tilde, 126. *)
Theorem named_classes (left_first : call_site → bool) :
  builds blank (single_of (λ c, c = 32 ∨ c = 9)) False ∧
  builds digit (single_of (λ c, 48 ≤ c ≤ 57)) False ∧
  builds lower (single_of (λ c, 97 ≤ c ≤ 122)) False ∧
  builds upper (single_of (λ c, 65 ≤ c ≤ 90)) False ∧
  builds punct
    (single_of (λ c, 33 ≤ c ≤ 47 ∨ 58 ≤ c ≤ 64 ∨ 91 ≤ c ≤ 96 ∨ 123 ≤ c ≤ 125)) False ∧
  builds (alpha left_first) (single_of (λ c, 65 ≤ c ≤ 90 ∨ 97 ≤ c ≤ 122)) False ∧
  builds (alnum left_first)
    (single_of (λ c, 48 ≤ c ≤ 57 ∨ 65 ≤ c ≤ 90 ∨ 97 ≤ c ≤ 122)) False ∧
  builds (graph left_first) (single_of (λ c, 33 ≤ c ≤ 125)) False ∧
  builds (print left_first) (single_of (λ c, 32 ≤ c ≤ 125)) False ∧
  builds (xdigit left_first)
    (single_of (λ c, 48 ≤ c ≤ 57 ∨ 65 ≤ c ≤ 70 ∨ 97 ≤ c ≤ 102)) False.
Proof.
  split_and!.
  - apply builds_blank.
  - apply builds_digit.
  - apply builds_lower.
  - apply builds_upper.
  - apply builds_punct.
  - apply builds_alpha.
  - apply builds_alnum.
  - apply builds_graph.
  - apply builds_print.
  - apply builds_xdigit.
Qed.

(** A construction run on a sound arena without epsilon cycle, then the
    conversion: when the construction adds an epsilon cycle the conversion
    throws, otherwise it returns a DFA that accepts exactly the language of
    the construction. *)
Theorem construction_then_conversion (m : M NFASubsetRef) (L : list Z → Prop) (C : Prop)
    (n : NFA) :
  builds m L C → arena_ok (vec n) → ¬ eps_cycle (vec n) →
  ∃ r n', m n = (Done r, n') ∧
    ((C ∧ nfa2dfa n' = (Throw, n')) ∨
     (¬ C ∧ ∃ d, nfa2dfa n' = (Done d, n') ∧ ∀ w, dfa_accepts d w = true ↔ L w)).
Proof.
  intros Hm Hv Hacyc.
  destruct (Hm n Hv) as (r & n' & F & Hrun & Hnfa & Hv' & Hp & _ & _ & _ & Hc & HL).
  exists r, n'. split; [done |].
  assert (in_range (vec n') (start (nfa n'))) as Hstart.
  { rewrite Hnfa. apply (proper_frag_ok _ _ _ Hp). }
  pose proof (arena_ok_states_ok _ Hv') as Hok.
  destruct (nfa2dfa_spec n' Hok Hstart) as [[HT Hcyc]|(d & ds & recs & c0 & Hd & _ & Hnc & _)].
  - left. split; [|done]. by apply Hc in Hcyc as [?|?].
  - right. split; [intros HC; apply Hnc, Hc; by right |].
    exists d. split; [done |]. intros w.
    rewrite (nfa2dfa_language n' d w Hok Hstart Hd). unfold nfa_accepts. rewrite Hnfa.
    apply HL.
Qed.

Lemma construction_then_conversion_witness :
  builds (ch 97) (char_lang 97) False ∧ arena_ok (vec NFA_new) ∧ ¬ eps_cycle (vec NFA_new) ∧
  ∃ r n', ch 97 NFA_new = (Done r, n') ∧
    ((False ∧ nfa2dfa n' = (Throw, n')) ∨
     (¬ False ∧ ∃ d, nfa2dfa n' = (Done d, n') ∧
                     ∀ w, dfa_accepts d w = true ↔ char_lang 97 w)).
Proof.
  split; [exact (builds_ch 97) |]. split; [exact arena_ok_empty |].
  split; [exact no_cycle_empty |].
  exact (construction_then_conversion (ch 97) (char_lang 97) False NFA_new (builds_ch 97)
           arena_ok_empty no_cycle_empty).
Defined.

Lemma builds_throws (m : M NFASubsetRef) (L : list Z → Prop) (C : Prop) (n : NFA) :
  builds m L C → C → arena_ok (vec n) →
  ∃ r n', m n = (Done r, n') ∧ nfa2dfa n' = (Throw, n').
Proof.
  intros Hm HC Hv.
  destruct (Hm n Hv) as (r & n' & F & Hrun & Hnfa & Hv' & Hp & _ & _ & _ & Hc & _).
  exists r, n'. split; [done |].
  assert (in_range (vec n') (start (nfa n'))) as Hstart.
  { rewrite Hnfa. apply (proper_frag_ok _ _ _ Hp). }
  destruct (nfa2dfa_spec n' (arena_ok_states_ok _ Hv') Hstart)
    as [[HT _]|(d & ds & recs & c0 & _ & _ & Hnc & _)]; [done |].
  destruct Hnc. apply Hc. by right.
Qed.

(** The conversion throws on every automaton whose last construction is a
    [star] of a [star], a [star] of a [question], or a [star] of any
    construction that reads the empty input. *)
Theorem star_of_nullable_throws (a : M NFASubsetRef) (La : list Z → Prop) (Ca : Prop)
    (n : NFA) :
  builds a La Ca → arena_ok (vec n) →
  (∃ r n', (x ← a; y ← star x; star y) n = (Done r, n') ∧ nfa2dfa n' = (Throw, n')) ∧
  (∃ r n', (x ← a; y ← question x; star y) n = (Done r, n') ∧ nfa2dfa n' = (Throw, n')) ∧
  (La [] → ∃ r n', (x ← a; star x) n = (Done r, n') ∧ nfa2dfa n' = (Throw, n')).
Proof.
  intros Ha Hv. split_and!.
  - rewrite <- mbind_assoc_run.
    apply (builds_throws _ _ _ n (builds_star _ _ _ (builds_star a La Ca Ha))); [|done].
    right. constructor.
  - rewrite <- mbind_assoc_run.
    apply (builds_throws _ _ _ n (builds_star _ _ _ (builds_question a La Ca Ha))); [|done].
    right. by right.
  - intros Hnil. apply (builds_throws _ _ _ n (builds_star a La Ca Ha)); [|done]. by right.
Qed.

Lemma star_of_nullable_throws_witness :
  builds (ch 97) (char_lang 97) False ∧ arena_ok (vec NFA_new) ∧
  (∃ r n', (x ← ch 97; y ← star x; star y) NFA_new = (Done r, n') ∧
           nfa2dfa n' = (Throw, n')) ∧
  (∃ r n', (x ← ch 97; y ← question x; star y) NFA_new = (Done r, n') ∧
           nfa2dfa n' = (Throw, n')) ∧
  (char_lang 97 [] →
   ∃ r n', (x ← ch 97; star x) NFA_new = (Done r, n') ∧ nfa2dfa n' = (Throw, n')).
Proof.
  split; [exact (builds_ch 97) |]. split; [exact arena_ok_empty |].
  exact (star_of_nullable_throws (ch 97) (char_lang 97) False NFA_new (builds_ch 97)
           arena_ok_empty).
Defined.

(** When the stored fragment's entry is no state of the arena, as after
    [NFA()] alone or after a first call [range(lo, hi)] with [lo > hi], the
    conversion throws if the arena has an epsilon cycle and otherwise reads
    the closure table outside its bounds. *)
Theorem conversion_without_fragment (n : NFA) :
  states_ok (vec n) → ¬ in_range (vec n) (start (nfa n)) →
  (eps_cycle (vec n) ∧ nfa2dfa n = (Throw, n)) ∨
  (¬ eps_cycle (vec n) ∧ nfa2dfa n = (Undef, n)).
Proof.
  intros Hok Hstart.
  unfold nfa2dfa, dfa_tables, mbind, M_bind, get_size, get_vec, get_nfa, lift.
  unfold vec_size. rewrite Nat2Z.id.
  destruct (closures_total (vec n) Hok) as [[ecs H]|(ecs & H & Hcyc)]; rewrite H.
  - right. destruct (closures_Done _ _ H) as (Hlen & Hacyc & _). split; [done |].
    destruct (vec_at_cases ecs (start (nfa n))) as [[x Hx]|Hu]; [|by rewrite Hu].
    apply vec_at_in_range in Hx. destruct Hstart. unfold in_range, vec_size in *. lia.
  - by left.
Qed.

Lemma conversion_without_fragment_witness :
  states_ok (vec NFA_new) ∧ ¬ in_range (vec NFA_new) (start (nfa NFA_new)) ∧
  ((eps_cycle (vec NFA_new) ∧ nfa2dfa NFA_new = (Throw, NFA_new)) ∨
   (¬ eps_cycle (vec NFA_new) ∧ nfa2dfa NFA_new = (Undef, NFA_new))).
Proof.
  assert (states_ok (vec NFA_new)) as Hok by constructor.
  assert (¬ in_range (vec NFA_new) (start (nfa NFA_new))) as Hs
    by (unfold in_range; simpl; unfold REF_UNDEFINED; lia).
  split; [exact Hok |]. split; [exact Hs |].
  exact (conversion_without_fragment NFA_new Hok Hs).
Defined.

(** ** A fragment linked with itself *)

Lemma self_link_frag v v' (A : NFASubsetRef) (FA : gset Z) :
  proper_frag v A FA →
  vec_at v' (end_ A) = Done {| rule := RULE_EPSILON; refs := (start A, REF_UNDEFINED) |} →
  (∀ i, in_range v i → i ≠ end_ A → vec_at v' i = vec_at v i) →
  ∀ w, frag_lang v' A w ↔
       ∃ w1 w2, w = w1 ++ w2 ∧ frag_lang v A w1 ∧ lang_star (frag_lang v A) w2.
Proof.
  intros HA HeA Hother.
  pose proof (pf_end _ _ _ HA) as HeAin. pose proof (pf_start _ _ _ HA) as HsAin.
  pose proof (pf_range _ _ _ HA _ HsAin) as HsArng.
  assert (∀ p, p ∈ FA → p ≠ end_ A → vec_at v' p = vec_at v p) as HkA.
  { intros p Hp Hne. apply Hother; [by apply (pf_range _ _ _ HA) | done]. }
  assert (extends v v') as Hext by exact (exit_linked_extends v v' A FA HA Hother).
  assert (∀ q, edge v' (end_ A) q → q = start A) as Hexit.
  { intros q Hq. apply (edge_from_eps _ _ _ _ HeA eq_refl) in Hq.
    apply (eps_edge_targets _ _ _ _ HeA) in Hq as (_ & Hq & [->| ->]); simpl in *; done. }
  assert (eps_edge v' (end_ A) (start A)) as Hloop.
  { eexists. split; [exact HeA |]. split_and!; [done | | by left].
    unfold in_range, REF_UNDEFINED in *. simpl. lia. }
  intros w. unfold frag_lang. split.
  - assert (∀ p w q, nfa_path v' p w q → q = end_ A → p ∈ FA →
      (p = end_ A → lang_star (λ w, nfa_path v (start A) w (end_ A)) w) ∧
      (∃ w1 w2, w = w1 ++ w2 ∧ nfa_path v p w1 (end_ A) ∧
                lang_star (λ w, nfa_path v (start A) w (end_ A)) w2)) as Hsplit;
      cycle 1.
    { intros H. by apply (Hsplit _ _ _ H). }
    intros p w0 q H. induction H as [p|p q w' r He Hrest IH|p c q w' r He Hrest IH];
      intros Hq Hp.
    + subst. split; [constructor |]. exists [], []. split_and!; constructor.
    + destruct (decide (p = end_ A)) as [->|Hne].
      * assert (q = start A) as -> by (apply Hexit; by left).
        destruct (IH Hq HsAin) as [_ (w1 & w2 & -> & H1 & H2)].
        assert (lang_star (λ w, nfa_path v (start A) w (end_ A)) (w1 ++ w2)) as Hs
          by (by constructor).
        split; [done |]. exists [], (w1 ++ w2). split_and!; [done | constructor | done].
      * apply (eps_edge_same v v' p q (HkA p Hp Hne)) in He.
        destruct IH as [_ (w1 & w2 & -> & H1 & H2)];
          [done | eapply (pf_closed _ _ _ HA); [done | by left] |].
        split; [done |]. exists w1, w2. split_and!; [done | by eapply path_eps | done].
    + assert (p ≠ end_ A) as Hne.
      { intros ->. destruct He as (st & Hst & Hr & [Hc _] & _).
        rewrite HeA in Hst. injection Hst as <-. simpl in Hr. congruence. }
      apply (sym_edge_same v v' p c q (HkA p Hp Hne)) in He.
      destruct IH as [_ (w1 & w2 & -> & H1 & H2)];
        [done | eapply (pf_closed _ _ _ HA); [done | right; by exists c] |].
      split; [done |]. exists (c :: w1), w2. split_and!; [done | by eapply path_sym | done].
  - intros (w1 & w2 & -> & H1 & H2). eapply nfa_path_app.
    { apply (nfa_path_extends v v'); [done | exact H1]. }
    induction H2 as [|w1' w2' H1' _ IH]; [constructor |].
    eapply path_eps; [exact Hloop |]. eapply nfa_path_app; [|exact IH].
    by apply (nfa_path_extends v v').
Qed.

Lemma self_link_cycle v v' (A : NFASubsetRef) (FA : gset Z) :
  proper_frag v A FA →
  vec_at v' (end_ A) = Done {| rule := RULE_EPSILON; refs := (start A, REF_UNDEFINED) |} →
  (∀ i, in_range v i → i ≠ end_ A → vec_at v' i = vec_at v i) →
  vec_size v' = vec_size v →
  eps_cycle v' ↔ eps_cycle v ∨ frag_lang v A [].
Proof.
  intros HA HeA Hother Hsz'.
  pose proof (pf_end _ _ _ HA) as HeAin. pose proof (pf_start _ _ _ HA) as HsAin.
  pose proof (pf_range _ _ _ HA _ HsAin) as HsArng.
  assert (∀ p, p ∈ FA → p ≠ end_ A → vec_at v' p = vec_at v p) as HkA.
  { intros p Hp Hne. apply Hother; [by apply (pf_range _ _ _ HA) | done]. }
  assert (extends v v') as Hext by exact (exit_linked_extends v v' A FA HA Hother).
  assert (eps_edge v' (end_ A) (start A)) as Hloop.
  { eexists. split; [exact HeA |]. split_and!; [done | | by left].
    unfold in_range, REF_UNDEFINED in *. simpl. lia. }
  split.
  - intros Hcyc.
    destruct (cycle_split v v' (λ x y, eps_edge v' x y ∧ x = end_ A))
      as [?|(x & y & [He ->] & Hr)]; [|done|by left|].
    { intros x y He. destruct (decide (x = end_ A)) as [?|Hne]; [by right |].
      left. apply (eps_edge_same v v' x y); [|done]. apply Hother; [|done].
      apply eps_edge_source in He. unfold in_range in *. lia. }
    right. unfold frag_lang. apply nfa_path_nil in Hr.
    apply (eps_edge_targets _ _ _ _ HeA) in He as (_ & Hy & [->| ->]); simpl in *; [|done].
    destruct (exit_first v v' A FA HA HkA _ _ _ Hr HsAin) as (w1 & w2 & Hw & H1 & _);
      [by left |].
    symmetry in Hw. apply app_eq_nil in Hw as [-> _]. done.
  - intros [Hcyc|Hnull]; [by eapply eps_cycle_extends |].
    exists (end_ A). eapply tc_rtc_r; [by apply tc_once |].
    apply nfa_path_nil. by apply (nfa_path_extends v v').
Qed.

(** Fragments are used in place, not copied: [link(A, A)] turns the exit of
    [A] into an epsilon state back to its entry. The call returns [A]
    itself, which then reads one or more inputs of the old [A] in a row, and
    the arena gets an epsilon cycle exactly when it had one or the old [A]
    reads the empty input. *)
Theorem link_with_itself (n : NFA) (A : NFASubsetRef) (FA : gset Z) :
  proper_frag (vec n) A FA →
  ∃ n',
    link A A n = (Done A, n') ∧ nfa n' = A ∧
    (∀ i, in_range (vec n) i → i ≠ end_ A → vec_at (vec n') i = vec_at (vec n) i) ∧
    (∀ w, frag_lang (vec n') A w ↔
          ∃ w1 w2, w = w1 ++ w2 ∧ frag_lang (vec n) A w1 ∧
                   lang_star (frag_lang (vec n) A) w2) ∧
    (eps_cycle (vec n') ↔ eps_cycle (vec n) ∨ frag_lang (vec n) A []).
Proof.
  intros HA. destruct (link_lookups n A A FA HA) as (HeA & Hother & Hsz').
  pose proof (link_run A A n (proj2 (proper_frag_ok _ _ _ HA))) as Hrun.
  assert ({| start := start A; end_ := end_ A |} = A) as HAeq by (by destruct A).
  rewrite HAeq in Hrun. rewrite Hrun in HeA, Hother, Hsz'. cbn [snd] in HeA, Hother, Hsz'.
  eexists. split; [exact Hrun |]. split; [done |]. split; [exact Hother |]. split.
  - exact (self_link_frag _ _ A FA HA HeA Hother).
  - exact (self_link_cycle _ _ A FA HA HeA Hother Hsz').
Qed.

Lemma link_with_itself_witness :
  proper_frag (vec ex_ab) ex_fa ex_Fa ∧
  ∃ n',
    link ex_fa ex_fa ex_ab = (Done ex_fa, n') ∧ nfa n' = ex_fa ∧
    (∀ i, in_range (vec ex_ab) i → i ≠ end_ ex_fa →
          vec_at (vec n') i = vec_at (vec ex_ab) i) ∧
    (∀ w, frag_lang (vec n') ex_fa w ↔
          ∃ w1 w2, w = w1 ++ w2 ∧ frag_lang (vec ex_ab) ex_fa w1 ∧
                   lang_star (frag_lang (vec ex_ab) ex_fa) w2) ∧
    (eps_cycle (vec n') ↔ eps_cycle (vec ex_ab) ∨ frag_lang (vec ex_ab) ex_fa []).
Proof.
  split; [exact proper_ex_fa |].
  exact (link_with_itself ex_ab ex_fa ex_Fa proper_ex_fa).
Defined.

(** ** The subset construction, state by state *)

(** In the DFA that the conversion returns, the state 0 holds exactly the
    states reached from the entry of the stored fragment by epsilon
    transitions, and a transition on [c] from a state with members [s] leads
    to the state that holds exactly the states reached from a member of [s]
    by one transition on [c] followed by epsilon transitions. *)
Theorem dfa_transitions_are_moves (n : NFA) (d : DFA) (ds : list (gset Z))
    (recs : list DFARefRecord) :
  built n → nfa n ≠ NFASubsetRef_new →
  nfa2dfa n = (Done d, n) → dfa_tables n = (Done (ds, recs), n) →
  (∃ c0, ds !! 0%nat = Some c0 ∧ ∀ j, j ∈ c0 ↔ eps_reach (vec n) (start (nfa n)) j) ∧
  ∀ (i : nat) s st c to,
    ds !! i = Some s → d !! i = Some st → drefs st !! c = Some to →
    ∃ (k : nat) t, to = Z.of_nat k ∧ ds !! k = Some t ∧
                   ∀ j, j ∈ t ↔ move_to (vec n) s c j.
Proof.
  intros Hb Hne Hd Ht.
  destruct (built_nfa_ok n Hb) as [Hv [[? _]|[Hstart _]]]; [done |].
  apply arena_ok_states_ok in Hv.
  destruct (nfa2dfa_spec n Hv Hstart)
    as [[H' _]|(d' & ds' & recs' & c0 & Hd' & Ht' & _ & Hinv & Hdfa & H0 & Hc0)];
    [congruence |].
  assert (d' = d) as -> by congruence.
  assert (ds' = ds ∧ recs' = recs) as [-> ->] by (split; congruence).
  split; [by exists c0 |].
  intros i s st c to Hs Hi Hc. destruct Hdfa as [_ Hst].
  destruct (Hst i s Hs) as (st' & Hi' & _ & Hsome & _).
  assert (st' = st) as -> by congruence.
  apply Hsome in Hc.
  pose proof (ti_recs _ _ _ _ Hinv) as Hrecs. rewrite Forall_forall in Hrecs.
  destruct (Hrecs _ Hc) as (i' & k & s' & t & Hfrom & Hto & Hs' & Hk & _ & Hmove).
  simpl in Hfrom, Hto, Hmove. apply Nat2Z.inj in Hfrom as <-.
  assert (s' = s) as -> by congruence.
  by exists k, t.
Qed.

Lemma dfa_transitions_are_moves_witness :
  (∃ c0, ex_a_states !! 0%nat = Some c0 ∧
         ∀ j, j ∈ c0 ↔ eps_reach (vec ex_a) (start (nfa ex_a)) j) ∧
  ∀ (i : nat) s st c to,
    ex_a_states !! i = Some s → ex_a_dfa !! i = Some st → drefs st !! c = Some to →
    ∃ (k : nat) t, to = Z.of_nat k ∧ ex_a_states !! k = Some t ∧
                   ∀ j, j ∈ t ↔ move_to (vec ex_a) s c j.
Proof.
  apply (dfa_transitions_are_moves ex_a ex_a_dfa ex_a_states ex_a_records);
    [apply built_ex_a | discriminate | vm_compute; reflexivity | vm_compute; reflexivity].
Defined.
